(** * react-heap: step-trace generation and playback of a binary min-heap

    A shallow embedding of the two versions of the [HeapVisualizer]
    component (the file with the Play / Pause / Next Step engine, and
    [src/HeapVisualizer.jsx] with the auto-playing engine), and proofs about
    the step generators and the playback controllers. *)

From Equations Require Import Equations.
From stdpp Require Import base list strings pretty.
From Stdlib Require Import ZArith Lia Ascii.

Set Default Proof Using "Type".

(** ** JavaScript values held by the heap array

    All the generators do with an element is compare it with [<] and move
    it, so of a number only its place in the order matters: a number other
    than [NaN] is represented by an integer (any finite set of them embeds
    in [Z] with its order). [NaN] and [undefined], which an out-of-range
    read returns, are kept apart because every comparison with them is
    false. *)

Inductive jsval :=
  | undefined
  | NaN
  | Num (z : Z).

#[global] Instance jsval_eq_dec : EqDecision jsval.
Proof. solve_decision. Defined.

(** [a < b] of JavaScript: [undefined] converts to [NaN], and a comparison
    with [NaN] is [false]. *)
Definition js_lt (a b : jsval) : bool :=
  match a, b with
  | Num x, Num y => (x <? y)%Z
  | _, _ => false
  end.

(** [a >= b] of JavaScript. *)
Definition js_ge (a b : jsval) : bool :=
  match a, b with
  | Num x, Num y => (y <=? x)%Z
  | _, _ => false
  end.

(** [Number.isNaN(v)]. *)
Definition isNaN (v : jsval) : bool :=
  match v with NaN => true | _ => false end.

Definition is_number (v : jsval) : bool :=
  match v with Num _ => true | _ => false end.

(** ** Arrays *)

(** [arr[i]] when read: [undefined] when out of range. *)
Definition aget (arr : list jsval) (i : nat) : jsval :=
  default undefined (arr !! i).

(** [arr[i] = v]: in range it overwrites, out of range the array grows and
    the holes read as [undefined]. *)
Definition aset (arr : list jsval) (i : nat) (v : jsval) : list jsval :=
  if decide (i < length arr) then <[i:=v]> arr
  else arr ++ replicate (i - length arr) undefined ++ [v].

(** [arr.pop()], for the array left behind. *)
Definition pop (arr : list jsval) : list jsval :=
  take (length arr - 1) arr.

(** The exchange of two slots as both generators write it:
    [tmp = arr[i]; arr[i] = arr[j]; arr[j] = tmp]. *)
Definition exchange (a : list jsval) (i j : nat) : list jsval :=
  aset (aset a i (aget a j)) j (aget a i).

(** ** Steps *)

(** The [info] object of a step, by the shapes the generators build. *)
Inductive step_info :=
  | info_index (index : nat)
  | info_i_parent (i parent : nat)
  | info_i_smaller (i smaller : nat)
  | info_i_j (i j : nat)
  | info_removedIndex (removedIndex : nat)
  | info_root_last (root last : nat)
  | info_none.

Record step := Step {
  type : string;
  arr : list jsval;
  info : step_info;
}.

#[global] Instance step_info_eq_dec : EqDecision step_info.
Proof. solve_decision. Defined.
#[global] Instance step_eq_dec : EqDecision step.
Proof. solve_decision. Defined.

(** ** Loops

    A [while] loop is its body, a function from the loop variables to
    either the variables of the next iteration or those at the exit. *)

Record loop := Loop {
  l_arr : list jsval;
  l_i : nat;
  l_steps : list step;
}.

Inductive ctl :=
  | Continue (s : loop)
  | Break (s : loop).

(** The loop run with a bound on the number of times its body is entered:
    [None] when the bound is reached before the loop exits. *)
Fixpoint while (fuel : nat) (body : loop → ctl) (s : loop) : option loop :=
  match fuel with
  | 0 => None
  | S fuel =>
      match body s with
      | Continue s' => while fuel body s'
      | Break s' => Some s'
      end
  end.

(** The loop variables a body hands on. *)
Definition ctl_loop (c : ctl) : loop :=
  match c with Continue s | Break s => s end.

(** A value together with the equation that it is that value, to keep the
    outcome of a loop body at hand where the loop recurs. *)
Definition inspect {A} (a : A) : {b | a = b} := exist _ a eq_refl.

(** ** generateInsertSteps

    Both components have the same two generators, statement for statement;
    [startHeap.slice()] and [arr.slice()] copy an array, which a list needs
    not. *)

(** [Math.floor((i - 1) / 2)], for [i > 0]. *)
Definition parent_of (i : nat) : nat := (i - 1) / 2.

(** One pass through [while (i > 0) { ... }]. *)
Definition bubbleUp_body (s : loop) : ctl :=
  let arr := l_arr s in
  let i := l_i s in
  if decide (0 < i) then
    let parent := parent_of i in
    let steps := l_steps s ++ [Step "compare" arr (info_i_parent i parent)] in
    if js_lt (aget arr i) (aget arr parent) then
      let tmp := aget arr i in
      let arr := aset arr i (aget arr parent) in
      let arr := aset arr parent tmp in
      let steps := steps ++ [Step "swap" arr (info_i_parent i parent)] in
      Continue (Loop arr parent steps)
    else Break (Loop arr i steps)
  else Break s.

Lemma parent_of_lt i : 0 < i → parent_of i < i.
Proof.
  intros Hi. unfold parent_of.
  assert ((i - 1) / 2 ≤ i - 1) by (apply Nat.Div0.div_le_upper_bound; lia).
  lia.
Qed.

Lemma bubbleUp_body_decreases s s' :
  bubbleUp_body s = Continue s' → l_i s' < l_i s.
Proof.
  unfold bubbleUp_body. case_decide as Hi; [|done].
  destruct (js_lt _ _); [|done].
  intros [= <-]. simpl. by apply parent_of_lt.
Qed.

Equations bubbleUp (s : loop) : loop by wf (l_i s) lt :=
  bubbleUp s with inspect (bubbleUp_body s) := {
    | exist _ (Continue s') H => bubbleUp s'
    | exist _ (Break s') H => s' }.
Next Obligation. intros s s' H _. by apply bubbleUp_body_decreases. Qed.

Definition generateInsertSteps (startHeap : list jsval) (insertedValue : jsval)
    : list step :=
  let arr := startHeap in
  let steps := [] in
  let arr := arr ++ [insertedValue] in
  let steps := steps ++ [Step "push" arr (info_index (length arr - 1))] in
  let s := bubbleUp (Loop arr (length arr - 1) steps) in
  l_steps s ++ [Step "done" (l_arr s) info_none].

(** ** generateDeleteMinSteps *)

(** One pass through [while (true) { ... }]. *)
Definition bubbleDown_body (s : loop) : ctl :=
  let arr := l_arr s in
  let i := l_i s in
  let left := 2 * i + 1 in
  let right := 2 * i + 2 in
  if decide (length arr ≤ left) then Break s
  else
    let smaller :=
      if bool_decide (right < length arr) && js_lt (aget arr right) (aget arr left)
      then right else left in
    let steps := l_steps s ++ [Step "compare" arr (info_i_smaller i smaller)] in
    if js_lt (aget arr smaller) (aget arr i) then
      let tmp := aget arr i in
      let arr := aset arr i (aget arr smaller) in
      let arr := aset arr smaller tmp in
      let steps := steps ++ [Step "swap" arr (info_i_j i smaller)] in
      Continue (Loop arr smaller steps)
    else Break (Loop arr i steps).

Lemma length_aset_lt a i v : i < length a → length (aset a i v) = length a.
Proof. intros. unfold aset. rewrite decide_True by done. apply length_insert. Qed.

Lemma bubbleDown_body_increases s s' :
  bubbleDown_body s = Continue s' →
  l_i s < l_i s' ∧ l_i s' < length (l_arr s') ∧
  length (l_arr s') = length (l_arr s).
Proof.
  unfold bubbleDown_body. case_decide as Hl; [done|].
  set (smaller := if (_ && _) then _ else _).
  assert (l_i s < smaller ∧ smaller < length (l_arr s)) as [? ?].
  { subst smaller. case_bool_decide; simpl; [destruct (js_lt _ _)|]; lia. }
  clearbody smaller.
  destruct (js_lt _ _); [|done].
  intros [= <-]. simpl.
  rewrite !length_aset_lt; rewrite ?length_aset_lt; lia.
Qed.

Equations bubbleDown (s : loop) : loop by wf (length (l_arr s) - l_i s) lt :=
  bubbleDown s with inspect (bubbleDown_body s) := {
    | exist _ (Continue s') H => bubbleDown s'
    | exist _ (Break s') H => s' }.
Next Obligation.
  intros s s' H _. apply bubbleDown_body_increases in H. lia.
Qed.

Definition generateDeleteMinSteps (startHeap : list jsval) : list step :=
  let arr := startHeap in
  let steps := [] in
  if decide (length arr = 0) then steps
  else
    let lastIndex := length arr - 1 in
    let steps :=
      steps ++ [Step "removeRoot" arr (info_root_last 0 lastIndex)] in
    if decide (lastIndex = 0) then
      let arr := pop arr in
      steps ++ [Step "done" arr info_none]
    else
      let rootVal := aget arr 0 in
      let arr := aset arr 0 (aget arr lastIndex) in
      let arr := aset arr lastIndex rootVal in
      let steps := steps ++ [Step "swap" arr (info_i_j 0 lastIndex)] in
      let arr := pop arr in
      let steps := steps ++ [Step "pop" arr (info_removedIndex lastIndex)] in
      let s := bubbleDown (Loop arr 0 steps) in
      l_steps s ++ [Step "done" (l_arr s) info_none].

(** ** The generators with a bound on the passes through the loop *)

Definition generateInsertSteps_within (fuel : nat)
    (startHeap : list jsval) (insertedValue : jsval) : option (list step) :=
  let arr := startHeap in
  let steps := [] in
  let arr := arr ++ [insertedValue] in
  let steps := steps ++ [Step "push" arr (info_index (length arr - 1))] in
  s ← while fuel bubbleUp_body (Loop arr (length arr - 1) steps);
  Some (l_steps s ++ [Step "done" (l_arr s) info_none]).

Definition generateDeleteMinSteps_within (fuel : nat)
    (startHeap : list jsval) : option (list step) :=
  let arr := startHeap in
  let steps := [] in
  if decide (length arr = 0) then Some steps
  else
    let lastIndex := length arr - 1 in
    let steps :=
      steps ++ [Step "removeRoot" arr (info_root_last 0 lastIndex)] in
    if decide (lastIndex = 0) then
      let arr := pop arr in
      Some (steps ++ [Step "done" arr info_none])
    else
      let rootVal := aget arr 0 in
      let arr := aset arr 0 (aget arr lastIndex) in
      let arr := aset arr lastIndex rootVal in
      let steps := steps ++ [Step "swap" arr (info_i_j 0 lastIndex)] in
      let arr := pop arr in
      let steps := steps ++ [Step "pop" arr (info_removedIndex lastIndex)] in
      s ← while fuel bubbleDown_body (Loop arr 0 steps);
      Some (l_steps s ++ [Step "done" (l_arr s) info_none]).

(** ** Traces *)

(** The array a controller shows once a trace has been played to its end:
    the snapshot of the last step, or the heap it had when the trace is
    empty. *)
Definition finalSnapshot (heap : list jsval) (steps : list step) : list jsval :=
  match last steps with
  | Some s => arr s
  | None => heap
  end.

(** The steps of a trace without their snapshots. *)
Definition shape (steps : list step) : list (string * step_info) :=
  (λ s, (type s, info s)) <$> steps.

Definition nums (l : list Z) : list jsval := Num <$> l.

(** The heap after a sequence of inserts, each played to its end before the
    next one starts. *)
Definition insertAll (heap : list jsval) (values : list jsval) : list jsval :=
  foldl (λ heap v, finalSnapshot heap (generateInsertSteps heap v)) heap values.

(** ** The min-heap invariant *)

Definition numbers (a : list jsval) : Prop := Forall (λ v, is_number v = true) a.

(** For every [i > 0], [heap[i] >= heap[parent(i)]]. *)
Definition min_heap (h : list jsval) : Prop :=
  ∀ i, 0 < i < length h → js_ge (aget h i) (aget h (parent_of i)) = true.

(** The same, as a test. *)
Definition min_heapb (h : list jsval) : bool :=
  forallb (λ i, js_ge (aget h i) (aget h (parent_of i))) (seq 1 (length h - 1)).

(** ** How the steps of a trace hang together *)

(** The outcome of the test a compare step announces: [arr[i] < arr[parent]]
    when bubbling up, [arr[smaller] < arr[i]] when bubbling down, read in
    the snapshot of the step. *)
Definition decision (c : step) : option bool :=
  match info c with
  | info_i_parent i parent => Some (js_lt (aget (arr c) i) (aget (arr c) parent))
  | info_i_smaller i smaller => Some (js_lt (aget (arr c) smaller) (aget (arr c) i))
  | _ => None
  end.

(** The two slots a compare or swap step names. *)
Definition slots (s : step) : option (nat * nat) :=
  match info s with
  | info_i_parent a b | info_i_smaller a b | info_i_j a b => Some (a, b)
  | _ => None
  end.

(** How a step relates to the one before it. *)
Definition follows (p s : step) : Prop :=
  (type s = "compare" → arr s = arr p)
  ∧ (type s = "swap" →
       type p = "removeRoot"
       ∨ type p = "compare" ∧ slots p = slots s ∧ decision p = Some true)
  ∧ (type p = "compare" →
       decision p = Some true ∧ type s = "swap" ∧ slots s = slots p
       ∨ decision p = Some false ∧ type s = "done" ∧ arr s = arr p).

Definition adjacent (R : step → step → Prop) (tr : list step) : Prop :=
  ∀ k p s, tr !! k = Some p → tr !! S k = Some s → R p s.

Definition well_paired (tr : list step) : Prop :=
  adjacent follows tr
  ∧ (∀ s, tr !! 0 = Some s → type s ≠ "compare" ∧ type s ≠ "swap")
  ∧ (∀ s, last tr = Some s → type s = "done").

(** Every compare step repeats the snapshot before it and is followed by
    the swap it decided or by the end of the trace; every swap is announced
    by a compare of the same slots, the exchange of root and last apart. *)
Definition compare_framed (tr : list step) : Prop :=
  (∀ k c, tr !! k = Some c → type c = "compare" →
     (∃ p, 0 < k ∧ tr !! (k - 1) = Some p ∧ arr c = arr p)
     ∧ (∃ n, tr !! S k = Some n
          ∧ (decision c = Some true ∧ type n = "swap" ∧ slots n = slots c
             ∨ decision c = Some false ∧ type n = "done" ∧ arr n = arr c)))
  ∧ (∀ k w, tr !! k = Some w → type w = "swap" →
     ∃ p, 0 < k ∧ tr !! (k - 1) = Some p
       ∧ (type p = "removeRoot"
          ∨ type p = "compare" ∧ slots p = slots w ∧ decision p = Some true)).

(** The [info] of a step has the fields its [type] is read with. *)
Definition step_shaped (s : step) : Prop :=
  match info s with
  | info_index _ => type s = "push"
  | info_i_parent _ _ => type s = "compare" ∨ type s = "swap"
  | info_i_smaller _ _ => type s = "compare"
  | info_i_j _ _ => type s = "swap"
  | info_removedIndex _ => type s = "pop"
  | info_root_last _ _ => type s = "removeRoot"
  | info_none => type s = "done"
  end.

(** ** What the loops maintain *)

Definition compare_up (a : list jsval) (i : nat) : step :=
  Step "compare" a (info_i_parent i (parent_of i)).
Definition swap_up (a : list jsval) (i : nat) : step :=
  Step "swap" (exchange a i (parent_of i)) (info_i_parent i (parent_of i)).

Definition compare_down (a : list jsval) (i smaller : nat) : step :=
  Step "compare" a (info_i_smaller i smaller).
Definition swap_down (a : list jsval) (i smaller : nat) : step :=
  Step "swap" (exchange a i smaller) (info_i_j i smaller).

(** The candidate child of the bubble-down loop. *)
Definition smaller_of (a : list jsval) (i : nat) : nat :=
  if bool_decide (2 * i + 2 < length a)
     && js_lt (aget a (2 * i + 2)) (aget a (2 * i + 1))
  then 2 * i + 2 else 2 * i + 1.

(** The swap decisions of the two loops. The bubble-up loop standing at slot
    [i] tests [arr[i] < arr[parent]] when [i > 0]; the bubble-down loop
    standing at slot [i] tests [arr[smaller] < arr[i]] when [i] has a left
    child. Each gives the two slots of the test, or [None] when the loop
    leaves without a test. *)
Definition up_test (i : nat) : option (nat * nat) :=
  if decide (0 < i) then Some (i, parent_of i) else None.
Definition down_test (a : list jsval) (i : nat) : option (nat * nat) :=
  if decide (2 * i + 1 < length a) then Some (i, smaller_of a i) else None.

(** The swap decision that comes right after a step: the loops are entered
    after the push and after the pop, and re-entered after each of their
    swaps, at the slot the moving value is in ([parent] when bubbling up,
    [j] when bubbling down). The exchange of root and last leaves [j] at the
    last slot, which has no child: no decision comes after it. *)
Definition pending_test (p : step) : option (nat * nat) :=
  if decide (type p = "push") then
    match info p with info_index index => up_test index | _ => None end
  else if decide (type p = "swap") then
    match info p with
    | info_i_parent _ parent => up_test parent
    | info_i_j _ j => down_test (arr p) j
    | _ => None
    end
  else if decide (type p = "pop") then down_test (arr p) 0
  else None.

(** A step that is followed by a swap decision is followed by the compare
    step of that decision. *)
Definition announces (p c : step) : Prop :=
  ∀ i j, pending_test p = Some (i, j) →
    type c = "compare" ∧ arr c = arr p ∧ slots c = Some (i, j).

(** Before every swap decision the trace has a compare step: it names the
    slots of the test and carries the array the test reads. *)
Definition compare_announced (tr : list step) : Prop :=
  ∀ k p i j, tr !! k = Some p → pending_test p = Some (i, j) →
    ∃ c, tr !! S k = Some c
      ∧ type c = "compare" ∧ arr c = arr p ∧ slots c = Some (i, j).

(** What the loops maintain about the decisions announced so far. *)
Definition announced_so_far (test : loop → option (nat * nat)) (s : loop) : Prop :=
  adjacent announces (l_steps s)
  ∧ ∃ p, last (l_steps s) = Some p ∧ arr p = l_arr s ∧ pending_test p = test s.

(** The array is a heap except at slot [i], whose children already respect
    the parent of [i]. *)
Record up_inv (s : loop) : Prop := {
  up_numbers : numbers (l_arr s);
  up_bound : l_i s < length (l_arr s);
  up_others : ∀ j, 0 < j < length (l_arr s) → j ≠ l_i s →
    js_ge (aget (l_arr s) j) (aget (l_arr s) (parent_of j)) = true;
  up_grand : ∀ j, 0 < j < length (l_arr s) → parent_of j = l_i s → 0 < l_i s →
    js_ge (aget (l_arr s) j) (aget (l_arr s) (parent_of (l_i s))) = true;
}.

(** The array is a heap except below slot [i], whose children already
    respect the parent of [i]. *)
Record down_inv (s : loop) : Prop := {
  down_numbers : numbers (l_arr s);
  down_others : ∀ j, 0 < j < length (l_arr s) → parent_of j ≠ l_i s →
    js_ge (aget (l_arr s) j) (aget (l_arr s) (parent_of j)) = true;
  down_grand : ∀ j, 0 < j < length (l_arr s) → parent_of j = l_i s → 0 < l_i s →
    js_ge (aget (l_arr s) j) (aget (l_arr s) (parent_of (l_i s))) = true;
}.

(** What the loops maintain about the steps emitted so far. *)
Definition paired_so_far (s : loop) : Prop :=
  adjacent follows (l_steps s)
  ∧ (∃ p, last (l_steps s) = Some p ∧ arr p = l_arr s ∧ type p ≠ "compare")
  ∧ (∃ s0, l_steps s !! 0 = Some s0 ∧ type s0 ≠ "compare" ∧ type s0 ≠ "swap").

(** ** What the controllers share *)

(** The [highlight] state: the empty object, or [{ type, indices }]. An
    index is [None] when the field read from the step is [undefined]. *)
Inductive highlighting :=
  | hl_empty
  | hl (type : string) (indices : list (option nat)).

#[global] Instance highlighting_eq_dec : EqDecision highlighting.
Proof. solve_decision. Defined.

(** Fields of an [info] object; a field the object lacks reads as
    [undefined]. (Reading a field of a missing [info] throws in
    JavaScript: the generators give every step but [done] an [info], and
    no controller reads the [info] of a [done] step.) *)
Definition get_i (f : step_info) : option nat :=
  match f with
  | info_i_parent i _ | info_i_smaller i _ | info_i_j i _ => Some i
  | _ => None
  end.
Definition get_parent (f : step_info) : option nat :=
  match f with info_i_parent _ p => Some p | _ => None end.
Definition get_smaller (f : step_info) : option nat :=
  match f with info_i_smaller _ c => Some c | _ => None end.
Definition get_j (f : step_info) : option nat :=
  match f with info_i_j _ j => Some j | _ => None end.
Definition get_index (f : step_info) : option nat :=
  match f with info_index n => Some n | _ => None end.
Definition get_removedIndex (f : step_info) : option nat :=
  match f with info_removedIndex n => Some n | _ => None end.
Definition get_root (f : step_info) : option nat :=
  match f with info_root_last r _ => Some r | _ => None end.
Definition get_last (f : step_info) : option nat :=
  match f with info_root_last _ l => Some l | _ => None end.

(** [a ?? b]. *)
Definition nullish {A} (a b : option A) : option A :=
  match a with Some x => Some x | None => b end.

(** Interpolation into a template string. [Num z] is the number whose value
    is the integer [z]; its text is the decimal numeral of [z], which is what
    JavaScript prints for the integers below [10^21] in magnitude. *)
Definition show_index (i : option nat) : string :=
  match i with Some n => pretty n | None => "undefined" end.
Definition show_jsval (v : jsval) : string :=
  match v with undefined => "undefined" | NaN => "NaN" | Num z => pretty z end.

Definition nl : string := String "010"%char "".

(** The interval timers of the browser: the live ones, with their period,
    and the next id to hand out (ids are positive). *)
Record browser := Browser {
  live : list (nat * Z);
  fresh : nat;
}.

Definition setInterval (ms : Z) (b : browser) : nat * browser :=
  (fresh b, Browser ((fresh b, ms) :: live b) (S (fresh b))).

(** [clearInterval(id)]; a no-op on [null]. *)
Definition clearInterval (id : option nat) (b : browser) : browser :=
  match id with
  | Some id => Browser (filter (λ t, t.1 ≠ id) (live b)) (fresh b)
  | None => b
  end.

Definition is_live (id : nat) (b : browser) : bool :=
  bool_decide (id ∈ (live b).*1).

(** ** The controller with Play / Pause / Next Step

    The component whose header reads "cleaned & fixed": a single interval
    engine, a speed slider of levels 1..10 and the pseudo-code box. *)
Module Engine.

(** The React state, the three refs and the timers of the browser. [value]
    is the text of the input box (it starts as the number 0, which converts
    like the text "0"). *)
Record state := State {
  heap : list jsval;
  value : string;
  pseudo : string;
  running : bool;
  speedLevel : Z;
  speedMs : Z;
  highlight : highlighting;
  stepsRef : list step;
  stepIndexRef : nat;
  timerRef : option nat;
  timers : browser;
}.

Definition setHeap x st :=
  State x (value st) (pseudo st) (running st) (speedLevel st) (speedMs st)
    (highlight st) (stepsRef st) (stepIndexRef st) (timerRef st) (timers st).
Definition setValue x st :=
  State (heap st) x (pseudo st) (running st) (speedLevel st) (speedMs st)
    (highlight st) (stepsRef st) (stepIndexRef st) (timerRef st) (timers st).
Definition setPseudo x st :=
  State (heap st) (value st) x (running st) (speedLevel st) (speedMs st)
    (highlight st) (stepsRef st) (stepIndexRef st) (timerRef st) (timers st).
Definition setRunning x st :=
  State (heap st) (value st) (pseudo st) x (speedLevel st) (speedMs st)
    (highlight st) (stepsRef st) (stepIndexRef st) (timerRef st) (timers st).
Definition setSpeedLevel x st :=
  State (heap st) (value st) (pseudo st) (running st) x (speedMs st)
    (highlight st) (stepsRef st) (stepIndexRef st) (timerRef st) (timers st).
Definition setSpeedMs x st :=
  State (heap st) (value st) (pseudo st) (running st) (speedLevel st) x
    (highlight st) (stepsRef st) (stepIndexRef st) (timerRef st) (timers st).
Definition setHighlight x st :=
  State (heap st) (value st) (pseudo st) (running st) (speedLevel st) (speedMs st)
    x (stepsRef st) (stepIndexRef st) (timerRef st) (timers st).
Definition set_stepsRef x st :=
  State (heap st) (value st) (pseudo st) (running st) (speedLevel st) (speedMs st)
    (highlight st) x (stepIndexRef st) (timerRef st) (timers st).
Definition set_stepIndexRef x st :=
  State (heap st) (value st) (pseudo st) (running st) (speedLevel st) (speedMs st)
    (highlight st) (stepsRef st) x (timerRef st) (timers st).
Definition set_timerRef x st :=
  State (heap st) (value st) (pseudo st) (running st) (speedLevel st) (speedMs st)
    (highlight st) (stepsRef st) (stepIndexRef st) x (timers st).
Definition set_timers x st :=
  State (heap st) (value st) (pseudo st) (running st) (speedLevel st) (speedMs st)
    (highlight st) (stepsRef st) (stepIndexRef st) (timerRef st) x.

(** [clearInterval(timerRef.current)]. *)
Definition clearTimer (st : state) : state :=
  set_timers (clearInterval (timerRef st) (timers st)) st.

(** [timerRef.current = setInterval(() => runStep(), ms)]. *)
Definition startTimer (ms : Z) (st : state) : state :=
  let '(id, b) := setInterval ms (timers st) in
  set_timerRef (Some id) (set_timers b st).

(** [1200 - (level - 1) * ((1200 - 100) / 9)] rounded to the nearest
    integer, computed on rationals: [Math.round x] is [floor (x + 1/2)]. *)
Definition speedOfLevel (level : Z) : Z :=
  ((2 * (10800 - 1100 * (level - 1)) + 9) / 18)%Z.

Definition applyStep (s : option step) (st : state) : state :=
  match s with
  | None => st
  | Some s =>
      let st := setHeap (arr s) st in
      if decide (type s = "compare") then
        let a := get_i (info s) in
        let b := nullish (get_parent (info s)) (get_smaller (info s)) in
        let st := setHighlight (hl "compare" [a; b]) st in
        setPseudo ("# compare child & parent" +:+ nl +:+ "if heap["
                   +:+ show_index a +:+ "] < heap[" +:+ show_index b +:+ "]:"
                   +:+ nl +:+ "    # swap on next step") st
      else if decide (type s = "swap") then
        let a := get_i (info s) in
        let b := nullish (get_j (info s)) (get_parent (info s)) in
        let st := setHighlight (hl "swap" [a; b]) st in
        setPseudo ("# swap" +:+ nl +:+ "swap(heap[" +:+ show_index a
                   +:+ "], heap[" +:+ show_index b +:+ "])") st
      else if decide (type s = "push") then
        let idx := get_index (info s) in
        let st := setHighlight (hl "push" [idx]) st in
        let v := match idx with Some n => aget (arr s) n | None => undefined end in
        setPseudo ("# insert new value" +:+ nl +:+ "heap.append("
                   +:+ show_jsval v +:+ ")") st
      else if decide (type s = "pop") then
        let st := setHighlight (hl "pop" [get_removedIndex (info s)]) st in
        setPseudo ("# remove last" +:+ nl +:+ "heap.pop()") st
      else if decide (type s = "removeRoot") then
        let st :=
          setHighlight (hl "removeRoot" [get_root (info s); get_last (info s)]) st in
        setPseudo ("# delete-min begins" +:+ nl +:+ "swap(heap[0], heap["
                   +:+ show_index (get_last (info s)) +:+ "])") st
      else if decide (type s = "done") then
        let st := setHighlight (hl "done" []) st in
        setPseudo "# heap property restored" st
      else
        let st := setHighlight hl_empty st in
        setPseudo "" st
  end.

Definition startSteps (steps : list step) (st : state) : state :=
  if decide (length steps = 0) then st
  else
    let st :=
      if timerRef st is Some _ then set_timerRef None (clearTimer st) else st in
    let st := set_stepsRef steps st in
    let st :=
      match steps !! 0 with Some s0 => setHeap (arr s0) st | None => st end in
    let st := applyStep (steps !! 0) st in
    let st := set_stepIndexRef 1 st in
    let st := setHighlight (highlight st) st in
    setRunning false st.

Definition runStep (st : state) : state :=
  let steps := stepsRef st in
  let idx := stepIndexRef st in
  if decide (length steps ≤ idx) then
    let st :=
      if timerRef st is Some _ then set_timerRef None (clearTimer st) else st in
    let st := setRunning false st in
    setHighlight hl_empty st
  else
    let st := applyStep (steps !! idx) st in
    set_stepIndexRef (idx + 1) st.

Definition handlePlay (st : state) : state :=
  if running st then st
  else
    let steps := stepsRef st in
    if decide (length steps ≤ stepIndexRef st) then st
    else
      let ms := speedMs st in
      let st := setRunning true st in
      let st := if timerRef st is Some _ then clearTimer st else st in
      startTimer ms st.

Definition handlePause (st : state) : state :=
  let st := if timerRef st is Some _ then set_timerRef None (clearTimer st) else st in
  setRunning false st.

Definition handleNext (st : state) : state :=
  let st :=
    if running st && bool_decide (is_Some (timerRef st))
    then setRunning false (set_timerRef None (clearTimer st))
    else st in
  runStep st.

Definition handleDeleteMin (st : state) : state :=
  let steps := generateDeleteMinSteps (heap st) in
  startSteps steps st.

(** [Math.floor(Math.random() * 100)], for the draw [r]. *)
Definition handleRandomInsert (r : nat) (st : state) : state :=
  let v := Num (Z.of_nat (r mod 100)) in
  let steps := generateInsertSteps (heap st) v in
  startSteps steps st.

(** The effect on [speedMs]: restart the interval while running. *)
Definition speedMsEffect (st : state) : state :=
  if negb (running st) then st
  else
    let ms := speedMs st in
    let st := if timerRef st is Some _ then clearTimer st else st in
    startTimer ms st.

(** The effect on [speedLevel], followed by the effect on [speedMs] when
    that state changed. *)
Definition speedLevelEffect (st : state) : state :=
  let newSpeed := speedOfLevel (speedLevel st) in
  if decide (speedMs st = newSpeed) then st
  else speedMsEffect (setSpeedMs newSpeed st).

(** The slider: [setSpeedLevel(Number(e.target.value))]. *)
Definition handleSpeed (level : Z) (st : state) : state :=
  if decide (speedLevel st = level) then st
  else speedLevelEffect (setSpeedLevel level st).

(** The cleanup on unmount. *)
Definition cleanup (st : state) : state :=
  if timerRef st is Some _ then clearTimer st else st.

(** The state after the first render and its effects. *)
Definition init : state :=
  speedLevelEffect
    (State [] "0" "" false 5 600 hl_empty [] 0 None (Browser [] 1)).

Section handlers.

(** [Number(text)], the conversion of the input box's text. *)
Variable Number : string → jsval.

Definition handleInsert (st : state) : state :=
  let v := Number (value st) in
  if isNaN v then st
  else
    let steps := generateInsertSteps (heap st) v in
    startSteps steps st.

Inductive event :=
  | EditValue (text : string)
  | ClickInsert
  | ClickInsertRandom (r : nat)
  | ClickDeleteMin
  | ClickPlay
  | ClickPause
  | ClickNext
  | Slide (level : Z)
  | Tick (id : nat).

Definition handle (e : event) (st : state) : state :=
  match e with
  | EditValue text => setValue text st
  | ClickInsert => handleInsert st
  | ClickInsertRandom r => handleRandomInsert r st
  | ClickDeleteMin => handleDeleteMin st
  | ClickPlay => handlePlay st
  | ClickPause => handlePause st
  | ClickNext => handleNext st
  | Slide level => handleSpeed level st
  | Tick id => if is_live id (timers st) then runStep st else st
  end.

(** The states the component can be in. *)
Inductive reachable : state → Prop :=
  | reachable_init : reachable init
  | reachable_handle e st : reachable st → reachable (handle e st).

End handlers.

(** The only live interval, if any, is the one [timerRef] holds. *)
Definition timers_inv (st : state) : Prop :=
  match timerRef st with
  | None => live (timers st) = []
  | Some id => ∃ ms, live (timers st) = [(id, ms)]
  end.

End Engine.

(** ** The auto-playing controller of [src/HeapVisualizer.jsx]

    Loading a trace starts the interval at once; one button toggles
    Pause / Resume and the slider gives the period in milliseconds. *)
Module AutoPlay.

(** The React state, the three refs and the timers of the browser. *)
Record state := State {
  heap : list jsval;
  value : string;
  running : bool;
  speed : Z;
  highlight : highlighting;
  stepsRef : list step;
  timerRef : option nat;
  stepIndexRef : nat;
  timers : browser;
}.

Definition setHeap x st :=
  State x (value st) (running st) (speed st) (highlight st) (stepsRef st)
    (timerRef st) (stepIndexRef st) (timers st).
Definition setValue x st :=
  State (heap st) x (running st) (speed st) (highlight st) (stepsRef st)
    (timerRef st) (stepIndexRef st) (timers st).
Definition setRunning x st :=
  State (heap st) (value st) x (speed st) (highlight st) (stepsRef st)
    (timerRef st) (stepIndexRef st) (timers st).
Definition setSpeed x st :=
  State (heap st) (value st) (running st) x (highlight st) (stepsRef st)
    (timerRef st) (stepIndexRef st) (timers st).
Definition setHighlight x st :=
  State (heap st) (value st) (running st) (speed st) x (stepsRef st)
    (timerRef st) (stepIndexRef st) (timers st).
Definition set_stepsRef x st :=
  State (heap st) (value st) (running st) (speed st) (highlight st) x
    (timerRef st) (stepIndexRef st) (timers st).
Definition set_timerRef x st :=
  State (heap st) (value st) (running st) (speed st) (highlight st) (stepsRef st)
    x (stepIndexRef st) (timers st).
Definition set_stepIndexRef x st :=
  State (heap st) (value st) (running st) (speed st) (highlight st) (stepsRef st)
    (timerRef st) x (timers st).
Definition set_timers x st :=
  State (heap st) (value st) (running st) (speed st) (highlight st) (stepsRef st)
    (timerRef st) (stepIndexRef st) x.

(** [clearInterval(timerRef.current)]. *)
Definition clearTimer (st : state) : state :=
  set_timers (clearInterval (timerRef st) (timers st)) st.

(** [timerRef.current = setInterval(() => runStep(), ms)]: the handle held
    before is overwritten. *)
Definition startTimer (ms : Z) (st : state) : state :=
  let '(id, b) := setInterval ms (timers st) in
  set_timerRef (Some id) (set_timers b st).

Definition startSteps (steps : list step) (st : state) : state :=
  if decide (length steps = 0) then st
  else
    let ms := speed st in
    let st := set_stepsRef steps st in
    let st := set_stepIndexRef 0 st in
    let st := setRunning true st in
    let st := setHighlight hl_empty st in
    let st :=
      match steps !! 0 with Some s0 => setHeap (arr s0) st | None => st end in
    let st := set_stepIndexRef 1 st in
    startTimer ms st.

Definition runStep (st : state) : state :=
  let steps := stepsRef st in
  let idx := stepIndexRef st in
  if decide (length steps ≤ idx) then
    let st := clearTimer st in
    let st := set_timerRef None st in
    let st := setRunning false st in
    setHighlight hl_empty st
  else
    match steps !! idx with
    | None => st
    | Some s =>
        let st := setHeap (arr s) st in
        let st :=
          if decide (type s = "compare") then
            setHighlight
              (hl "compare"
                  [get_i (info s);
                   nullish (get_parent (info s)) (get_smaller (info s))]) st
          else if decide (type s = "swap") then
            setHighlight
              (hl "swap"
                  [get_i (info s);
                   nullish (get_j (info s)) (get_parent (info s))]) st
          else if decide (type s = "push") then
            setHighlight (hl "push" [get_index (info s)]) st
          else if decide (type s = "pop") then
            setHighlight (hl "pop" [get_removedIndex (info s)]) st
          else if decide (type s = "removeRoot") then
            setHighlight
              (hl "removeRoot" [get_root (info s); get_last (info s)]) st
          else if decide (type s = "done") then
            setHighlight (hl "done" []) st
          else setHighlight hl_empty st in
        set_stepIndexRef (idx + 1) st
    end.

Definition handleDeleteMin (st : state) : state :=
  let steps := generateDeleteMinSteps (heap st) in
  startSteps steps st.

(** [Math.floor(Math.random() * 100)], for the draw [r]. *)
Definition handleRandomInsert (r : nat) (st : state) : state :=
  let v := Num (Z.of_nat (r mod 100)) in
  let steps := generateInsertSteps (heap st) v in
  startSteps steps st.

Definition toggleRunning (st : state) : state :=
  if negb (running st) then
    if decide (stepIndexRef st < length (stepsRef st)) then
      setRunning true (startTimer (speed st) st)
    else st
  else
    let st := clearTimer st in
    let st := set_timerRef None st in
    setRunning false st.

(** The effect on [speed]: restart the interval while running. *)
Definition speedEffect (st : state) : state :=
  if running st then startTimer (speed st) (clearTimer st) else st.

(** The slider: [setSpeed(Number(e.target.value))]. *)
Definition handleSpeed (ms : Z) (st : state) : state :=
  if decide (speed st = ms) then st
  else speedEffect (setSpeed ms st).

(** The cleanup on unmount. *)
Definition cleanup (st : state) : state := clearTimer st.

Definition init : state :=
  State [] "0" false 600 hl_empty [] None 0 (Browser [] 1).

Section handlers.

(** [Number(text)], the conversion of the input box's text. *)
Variable Number : string → jsval.

Definition handleInsert (st : state) : state :=
  let v := Number (value st) in
  let steps := generateInsertSteps (heap st) v in
  startSteps steps st.

Inductive event :=
  | EditValue (text : string)
  | ClickInsert
  | ClickInsertRandom (r : nat)
  | ClickDeleteMin
  | ClickToggle
  | Slide (ms : Z)
  | Tick (id : nat).

Definition handle (e : event) (st : state) : state :=
  match e with
  | EditValue text => setValue text st
  | ClickInsert => handleInsert st
  | ClickInsertRandom r => handleRandomInsert r st
  | ClickDeleteMin => handleDeleteMin st
  | ClickToggle => toggleRunning st
  | Slide ms => handleSpeed ms st
  | Tick id => if is_live id (timers st) then runStep st else st
  end.

(** The states the component can be in. *)
Inductive reachable : state → Prop :=
  | reachable_init : reachable init
  | reachable_handle e st : reachable st → reachable (handle e st).

End handlers.

End AutoPlay.

(** ** Rendering of the highlight

    Both components draw one node per element of [heap], the node of slot
    [i] with the class [nodeClass(i)]; the component with Play / Pause /
    Next Step adds the inline style [nodeStyle(i)]. *)

(** [indices.includes(i)]. *)
Definition includes (indices : list (option nat)) (i : nat) : bool :=
  bool_decide (Some i ∈ indices).

Definition nodeClass (highlight : highlighting) (i : nat) : string :=
  match highlight with
  | hl_empty => ""
  | hl type indices =>
      if includes indices i then
        if decide (type = "swap") then "ring-4 ring-offset-2 ring-yellow-300"
        else if decide (type = "compare") then "ring-4 ring-offset-2 ring-blue-300"
        else if decide (type = "push") then "ring-4 ring-offset-2 ring-green-300"
        else if decide (type = "pop") then "opacity-50 line-through"
        else if decide (type = "removeRoot") then "ring-4 ring-offset-2 ring-red-300"
        else ""
      else ""
  end.

(** The [boxShadow] of the style object, [None] for the empty object. The
    colour table is read at the types the controllers give a highlight. *)
Definition nodeStyle (highlight : highlighting) (i : nat) : option string :=
  match highlight with
  | hl_empty => None
  | hl type indices =>
      if negb (includes indices i) then None
      else
        let color :=
          if decide (type = "swap") then "rgba(250,204,21,0.30)"
          else if decide (type = "compare") then "rgba(59,130,246,0.22)"
          else if decide (type = "push") then "rgba(34,197,94,0.22)"
          else if decide (type = "pop") then "rgba(148,163,184,0.18)"
          else if decide (type = "removeRoot") then "rgba(239,68,68,0.22)"
          else "rgba(99,102,241,0.2)" in
        Some ("0 0 0 8px " +:+ color)
  end.

(** ** Further predicates on steps and states *)

(** The slots a step names lie in its snapshot; the slot of a pop step is
    the one just past its end. *)
Definition step_in_range (s : step) : Prop :=
  match info s with
  | info_index n => n < length (arr s)
  | info_i_parent a b | info_i_smaller a b | info_i_j a b =>
      a < length (arr s) ∧ b < length (arr s)
  | info_removedIndex n => n = length (arr s)
  | info_root_last r l => r < length (arr s) ∧ l < length (arr s)
  | info_none => True
  end.

(** A step that does not open a trace. *)
Definition inner_step (s : step) : Prop :=
  type s ≠ "push" ∧ type s ≠ "removeRoot".

(** The type of a highlight, if it has one. *)
Definition hl_type (h : highlighting) : option string :=
  match h with hl_empty => None | hl type _ => Some type end.

(** A controller state that shows step [n] of the trace it holds: the
    cursor is past it, and the heap, highlight and pseudo-text are those
    the step brings. *)
Definition engine_shows (tr : list step) (n : nat) (st : Engine.state) : Prop :=
  Engine.stepsRef st = tr ∧ Engine.stepIndexRef st = S n
  ∧ ∃ s, tr !! n = Some s
      ∧ Engine.heap st = arr s
      ∧ Engine.highlight st = Engine.highlight (Engine.applyStep (Some s) st)
      ∧ Engine.pseudo st = Engine.pseudo (Engine.applyStep (Some s) st).

(** What the reachable states of the controller with Play / Pause / Next
    Step keep, beside [Engine.timers_inv]. *)
Record engine_inv (st : Engine.state) : Prop := {
  engine_cursor : Engine.stepIndexRef st ≤ length (Engine.stepsRef st);
  engine_running :
    Engine.running st = bool_decide (is_Some (Engine.timerRef st));
  engine_speed : Engine.speedMs st = Engine.speedOfLevel (Engine.speedLevel st);
}.

(** What the reachable states of [src/HeapVisualizer.jsx] keep. *)
Record autoplay_inv (st : AutoPlay.state) : Prop := {
  autoplay_cursor : AutoPlay.stepIndexRef st ≤ length (AutoPlay.stepsRef st);
  autoplay_loaded :
    AutoPlay.stepsRef st ≠ [] → 1 ≤ AutoPlay.stepIndexRef st;
  autoplay_inner : Forall inner_step (drop 1 (AutoPlay.stepsRef st));
  autoplay_running :
    AutoPlay.running st = bool_decide (is_Some (AutoPlay.timerRef st));
  autoplay_held :
    ∀ id, AutoPlay.timerRef st = Some id → is_live id (AutoPlay.timers st) = true;
  autoplay_highlight :
    hl_type (AutoPlay.highlight st) ≠ Some "push"
    ∧ hl_type (AutoPlay.highlight st) ≠ Some "removeRoot";
}.

(** A state of [src/HeapVisualizer.jsx] that shows step [n] of the trace it
    holds. *)
Definition autoplay_shows (tr : list step) (n : nat) (st : AutoPlay.state) : Prop :=
  AutoPlay.stepsRef st = tr ∧ AutoPlay.stepIndexRef st = S n
  ∧ ∃ s, tr !! n = Some s ∧ AutoPlay.heap st = arr s.

(** * Lemmas *)

(** ** The scenarios of the specification *)

Example generateInsert_empty :
  generateInsertSteps [] (Num 5)
  = [Step "push" [Num 5] (info_index 0); Step "done" [Num 5] info_none].
Proof. vm_compute. reflexivity. Qed.

Example generateInsert_bubbles :
  let tr := generateInsertSteps (nums [1; 3; 2; 7]%Z) (Num 0) in
  shape tr = [("push", info_index 4);
              ("compare", info_i_parent 4 1); ("swap", info_i_parent 4 1);
              ("compare", info_i_parent 1 0); ("swap", info_i_parent 1 0);
              ("done", info_none)]
  ∧ finalSnapshot [] tr = nums [0; 1; 2; 7; 3]%Z.
Proof. vm_compute. done. Qed.

Example generateDeleteMin_bubbles :
  let tr := generateDeleteMinSteps (nums [0; 1; 2; 7; 3]%Z) in
  shape tr = [("removeRoot", info_root_last 0 4);
              ("swap", info_i_j 0 4); ("pop", info_removedIndex 4);
              ("compare", info_i_smaller 0 1); ("swap", info_i_j 0 1);
              ("compare", info_i_smaller 1 3);
              ("done", info_none)]
  ∧ finalSnapshot [] tr = nums [1; 3; 2; 7]%Z.
Proof. vm_compute. done. Qed.

Example generateDeleteMin_single :
  generateDeleteMinSteps [Num 9]
  = [Step "removeRoot" [Num 9] (info_root_last 0 0); Step "done" [] info_none].
Proof. vm_compute. reflexivity. Qed.

(** ** The order on values *)

Lemma js_lt_ge a b : js_lt a b = true → js_ge b a = true.
Proof. destruct a, b; simpl; try done. intros. apply Z.leb_le. apply Z.ltb_lt in H. lia. Qed.

Lemma js_nlt_ge a b :
  is_number a = true → is_number b = true → js_lt a b = false → js_ge a b = true.
Proof.
  destruct a, b; simpl; try done. intros _ _ H.
  apply Z.leb_le. apply Z.ltb_ge in H. lia.
Qed.

Lemma js_ge_trans a b c : js_ge a b = true → js_ge b c = true → js_ge a c = true.
Proof.
  destruct a, b, c; simpl; try done. rewrite !Z.leb_le. lia.
Qed.

Lemma js_ge_number a b : js_ge a b = true → is_number a = true ∧ is_number b = true.
Proof. by destruct a, b. Qed.

(** ** Reading and writing in range *)

Lemma aget_lookup a i v : a !! i = Some v → aget a i = v.
Proof. unfold aget. by intros ->. Qed.

Lemma aget_number a i : numbers a → i < length a → is_number (aget a i) = true.
Proof.
  intros Ha Hi. destruct (lookup_lt_is_Some_2 a i Hi) as [v Hv].
  rewrite (aget_lookup _ _ _ Hv).
  exact (Forall_lookup_1 (λ v, is_number v = true) a i v Ha Hv).
Qed.

Lemma aget_aset_eq a i v : i < length a → aget (aset a i v) i = v.
Proof.
  intros. unfold aset, aget. rewrite decide_True by done.
  by rewrite list_lookup_insert_eq.
Qed.

Lemma aget_aset_ne a i j v : i < length a → i ≠ j → aget (aset a i v) j = aget a j.
Proof.
  intros. unfold aset, aget. rewrite decide_True by done.
  by rewrite list_lookup_insert_ne.
Qed.

Section exchange.
Context (a : list jsval) (i j : nat).
Hypothesis (Hi : i < length a) (Hj : j < length a).

Lemma length_exchange : length (exchange a i j) = length a.
Proof using Hi Hj. unfold exchange. by rewrite !length_aset_lt; rewrite ?length_aset_lt. Qed.

Lemma aget_exchange_l : aget (exchange a i j) i = aget a j.
Proof using Hi Hj.
  unfold exchange. destruct (decide (i = j)) as [->|].
  - by rewrite aget_aset_eq by by rewrite length_aset_lt.
  - rewrite aget_aset_ne by (by rewrite ?length_aset_lt).
    by rewrite aget_aset_eq.
Qed.

Lemma aget_exchange_r : aget (exchange a i j) j = aget a i.
Proof using Hi Hj. unfold exchange. by rewrite aget_aset_eq by by rewrite length_aset_lt. Qed.

Lemma aget_exchange_other k : k ≠ i → k ≠ j → aget (exchange a i j) k = aget a k.
Proof using Hi Hj.
  intros. unfold exchange.
  rewrite aget_aset_ne by (by rewrite ?length_aset_lt).
  by rewrite aget_aset_ne.
Qed.

Lemma exchange_inserts : exchange a i j = <[j:=aget a i]> (<[i:=aget a j]> a).
Proof using Hi Hj.
  unfold exchange, aset. rewrite (decide_True _ _ Hi).
  by rewrite decide_True by by rewrite length_insert.
Qed.

Lemma exchange_perm : exchange a i j ≡ₚ a.
Proof using Hi Hj.
  apply Permutation_inj. split; [apply length_exchange|].
  exists (λ k, if decide (k = i) then j else if decide (k = j) then i else k).
  split.
  - intros x y. repeat case_decide; congruence.
  - intros k. rewrite exchange_inserts.
    destruct (lookup_lt_is_Some_2 a i Hi) as [vi Hvi].
    destruct (lookup_lt_is_Some_2 a j Hj) as [vj Hvj].
    rewrite (aget_lookup _ _ _ Hvi), (aget_lookup _ _ _ Hvj).
    destruct (decide (k = j)) as [->|Hkj].
    + rewrite list_lookup_insert_eq by by rewrite length_insert.
      case_decide; by subst.
    + rewrite list_lookup_insert_ne by done.
      destruct (decide (k = i)) as [->|Hki].
      * by rewrite list_lookup_insert_eq.
      * by rewrite list_lookup_insert_ne.
Qed.

Lemma exchange_numbers : numbers a → numbers (exchange a i j).
Proof using Hi Hj. unfold numbers. by rewrite exchange_perm. Qed.
End exchange.

(** ** The min-heap invariant *)

Lemma min_heapb_spec h : min_heapb h = true ↔ min_heap h.
Proof.
  unfold min_heapb, min_heap. rewrite forallb_forall. split.
  - intros H i Hi. apply H. apply in_seq. lia.
  - intros H i Hi%in_seq. apply H. lia.
Qed.

Lemma parent_of_children i j : 0 < j → parent_of j = i ↔ j = 2 * i + 1 ∨ j = 2 * i + 2.
Proof.
  intros Hj. unfold parent_of. split.
  - intros <-. pose proof (Nat.div_mod_eq (j - 1) 2) as E.
    pose proof (Nat.mod_upper_bound (j - 1) 2). lia.
  - intros [->| ->].
    + replace (2 * i + 1 - 1) with (i * 2) by lia. by rewrite Nat.div_mul.
    + replace (2 * i + 2 - 1) with (1 + i * 2) by lia.
      rewrite Nat.div_add by done. done.
Qed.

Lemma min_heap_numbers h : 2 ≤ length h → min_heap h → numbers h.
Proof.
  intros Hlen Hh. apply Forall_lookup_2. intros i v Hv.
  pose proof (lookup_lt_Some _ _ _ Hv) as Hi.
  destruct (decide (i = 0)) as [->|].
  - specialize (Hh 1 ltac:(lia)). apply js_ge_number in Hh as [_ Hh].
    change (parent_of 1) with 0 in Hh. by rewrite (aget_lookup _ _ _ Hv) in Hh.
  - specialize (Hh i ltac:(lia)). apply js_ge_number in Hh as [Hh _].
    by rewrite (aget_lookup _ _ _ Hv) in Hh.
Qed.

(** ** Reasoning about the two loops *)

Lemma bubbleUp_body_Continue s s' :
  bubbleUp_body s = Continue s' →
  0 < l_i s
  ∧ js_lt (aget (l_arr s) (l_i s)) (aget (l_arr s) (parent_of (l_i s))) = true
  ∧ s' = Loop (exchange (l_arr s) (l_i s) (parent_of (l_i s))) (parent_of (l_i s))
              ((l_steps s ++ [compare_up (l_arr s) (l_i s)])
                 ++ [swap_up (l_arr s) (l_i s)]).
Proof.
  unfold bubbleUp_body. case_decide; [|done].
  destruct (js_lt _ _) eqn:E; [|done]. by intros [= <-].
Qed.

Lemma bubbleUp_body_Break s s' :
  bubbleUp_body s = Break s' →
  l_arr s' = l_arr s ∧ l_i s' = l_i s
  ∧ (l_i s = 0 ∧ l_steps s' = l_steps s
     ∨ 0 < l_i s
       ∧ js_lt (aget (l_arr s) (l_i s)) (aget (l_arr s) (parent_of (l_i s))) = false
       ∧ l_steps s' = l_steps s ++ [compare_up (l_arr s) (l_i s)]).
Proof.
  unfold bubbleUp_body. case_decide.
  - destruct (js_lt _ _) eqn:E; [done|]. intros [= <-]. simpl. tauto.
  - intros [= <-]. split_and!; try done. left. split; [lia|done].
Qed.

Lemma bubbleUp_eq s :
  bubbleUp s
  = match bubbleUp_body s with Continue s' => bubbleUp s' | Break s' => s' end.
Proof.
  rewrite bubbleUp_equation_1. destruct (inspect (bubbleUp_body s)) as [c H].
  transitivity (match c with Continue s' => bubbleUp s' | Break s' => s' end);
    [|by rewrite H].
  by destruct c.
Qed.

(** The invariant rule of the bubble-up loop. *)
Lemma bubbleUp_rule (P Q : loop → Prop) :
  (∀ s s', P s → bubbleUp_body s = Continue s' → P s') →
  (∀ s s', P s → bubbleUp_body s = Break s' → Q s') →
  ∀ s, P s → Q (bubbleUp s).
Proof.
  intros Hstep Hexit s. remember (l_i s) as n eqn:Hn. revert s Hn.
  induction n as [n IH] using lt_wf_ind. intros s -> HP.
  rewrite bubbleUp_eq. destruct (bubbleUp_body s) as [s'|s'] eqn:E.
  - eapply IH; [by apply bubbleUp_body_decreases|done|]. by eapply Hstep.
  - by eapply Hexit.
Qed.

Lemma bubbleDown_body_Continue s s' :
  bubbleDown_body s = Continue s' →
  let c := smaller_of (l_arr s) (l_i s) in
  2 * l_i s + 1 < length (l_arr s)
  ∧ js_lt (aget (l_arr s) c) (aget (l_arr s) (l_i s)) = true
  ∧ s' = Loop (exchange (l_arr s) (l_i s) c) c
              ((l_steps s ++ [compare_down (l_arr s) (l_i s) c])
                 ++ [swap_down (l_arr s) (l_i s) c]).
Proof.
  unfold bubbleDown_body. case_decide; [done|]. fold (smaller_of (l_arr s) (l_i s)).
  destruct (js_lt _ _) eqn:E; [|done]. intros [= <-]. simpl. split_and!; [lia|done..].
Qed.

Lemma bubbleDown_body_Break s s' :
  bubbleDown_body s = Break s' →
  let c := smaller_of (l_arr s) (l_i s) in
  l_arr s' = l_arr s ∧ l_i s' = l_i s
  ∧ (length (l_arr s) ≤ 2 * l_i s + 1 ∧ l_steps s' = l_steps s
     ∨ 2 * l_i s + 1 < length (l_arr s)
       ∧ js_lt (aget (l_arr s) c) (aget (l_arr s) (l_i s)) = false
       ∧ l_steps s' = l_steps s ++ [compare_down (l_arr s) (l_i s) c]).
Proof.
  unfold bubbleDown_body. case_decide.
  - intros [= <-]. simpl. tauto.
  - fold (smaller_of (l_arr s) (l_i s)).
    destruct (js_lt _ _) eqn:E; [done|]. intros [= <-]. simpl.
    split_and!; try done. right. split_and!; [lia|done..].
Qed.

Lemma bubbleDown_eq s :
  bubbleDown s
  = match bubbleDown_body s with Continue s' => bubbleDown s' | Break s' => s' end.
Proof.
  rewrite bubbleDown_equation_1. destruct (inspect (bubbleDown_body s)) as [c H].
  transitivity (match c with Continue s' => bubbleDown s' | Break s' => s' end);
    [|by rewrite H].
  by destruct c.
Qed.

(** The invariant rule of the bubble-down loop. *)
Lemma bubbleDown_rule (P Q : loop → Prop) :
  (∀ s s', P s → bubbleDown_body s = Continue s' → P s') →
  (∀ s s', P s → bubbleDown_body s = Break s' → Q s') →
  ∀ s, P s → Q (bubbleDown s).
Proof.
  intros Hstep Hexit s. remember (length (l_arr s) - l_i s) as n eqn:Hn.
  revert s Hn. induction n as [n IH] using lt_wf_ind. intros s -> HP.
  rewrite bubbleDown_eq. destruct (bubbleDown_body s) as [s'|s'] eqn:E.
  - eapply IH; [|done|by eapply Hstep].
    apply bubbleDown_body_increases in E. lia.
  - by eapply Hexit.
Qed.

Lemma smaller_of_cases a i :
  2 * i + 1 < length a →
  let c := smaller_of a i in
  (c = 2 * i + 1 ∨ c = 2 * i + 2) ∧ i < c < length a.
Proof.
  intros H c. subst c. unfold smaller_of.
  case_bool_decide; simpl; [destruct (js_lt _ _)|]; lia.
Qed.

Lemma finalSnapshot_snoc heap steps s : finalSnapshot heap (steps ++ [s]) = arr s.
Proof. unfold finalSnapshot. by rewrite last_snoc. Qed.

(** ** Bubble-up restores the invariant *)

Lemma up_inv_step s s' : up_inv s → bubbleUp_body s = Continue s' → up_inv s'.
Proof.
  intros [Hnum Hb Hoth Hgr] (Hi & Hlt & ->)%bubbleUp_body_Continue.
  destruct s as [a i st]; simpl in *.
  set (p := parent_of i) in *.
  assert (p < i) as Hp by by apply parent_of_lt.
  assert (p < length a) as Hpl by lia.
  pose proof (js_lt_ge _ _ Hlt) as Hge.
  split; simpl.
  - by apply exchange_numbers.
  - by rewrite length_exchange.
  - rewrite length_exchange by done. intros j Hj Hjp.
    pose proof (parent_of_lt j ltac:(lia)) as Hq.
    destruct (decide (j = i)) as [->|Hji].
    + fold p. by rewrite aget_exchange_l, aget_exchange_r.
    + rewrite (aget_exchange_other a i p Hb Hpl j) by done.
      destruct (decide (parent_of j = i)) as [Hqi|Hqi].
      * rewrite Hqi, aget_exchange_l by done. by apply Hgr.
      * destruct (decide (parent_of j = p)) as [Hqp|Hqp].
        -- rewrite Hqp, aget_exchange_r by done.
           eapply js_ge_trans; [|exact Hge]. rewrite <-Hqp. by apply Hoth.
        -- rewrite aget_exchange_other by done. by apply Hoth.
  - rewrite length_exchange by done. intros j Hj Hjp Hp0.
    pose proof (parent_of_lt p Hp0) as Hpp.
    rewrite (aget_exchange_other a i p Hb Hpl (parent_of p)) by lia.
    assert (js_ge (aget a p) (aget a (parent_of p)) = true) as Hpge
      by (apply Hoth; lia).
    destruct (decide (j = i)) as [->|Hji].
    + by rewrite aget_exchange_l.
    + pose proof (parent_of_lt j ltac:(lia)).
      rewrite aget_exchange_other by lia.
      eapply js_ge_trans; [|exact Hpge]. rewrite <-Hjp. by apply Hoth.
Qed.

Lemma up_inv_exit s s' :
  up_inv s → bubbleUp_body s = Break s' → min_heap (l_arr s') ∧ numbers (l_arr s').
Proof.
  intros [Hnum Hb Hoth Hgr] (-> & _ & Hcase)%bubbleUp_body_Break.
  split; [|done]. intros j Hj.
  destruct (decide (j = l_i s)) as [->|]; [|by apply Hoth].
  destruct Hcase as [[? _]|(Hi & Hlt & _)]; [lia|].
  apply js_nlt_ge; [| |done]; apply aget_number; try done.
  pose proof (parent_of_lt _ Hi). lia.
Qed.

Lemma aget_app_l a b i : i < length a → aget (a ++ b) i = aget a i.
Proof. intros. unfold aget. by rewrite lookup_app_l. Qed.

Lemma up_inv_init h v st :
  min_heap h → numbers h → is_number v = true →
  up_inv (Loop (h ++ [v]) (length (h ++ [v]) - 1) st).
Proof.
  intros Hh Hnum Hv.
  assert (length (h ++ [v]) - 1 = length h) as -> by (rewrite length_app; simpl; lia).
  split; simpl; rewrite ?length_app; simpl.
  - apply Forall_app. split; [done|]. by apply Forall_singleton.
  - lia.
  - intros j Hj Hne. pose proof (parent_of_lt j ltac:(lia)).
    rewrite !aget_app_l by lia. apply Hh. lia.
  - intros j Hj Hp. pose proof (parent_of_lt j ltac:(lia)). lia.
Qed.

Lemma generateInsertSteps_final heap h v :
  finalSnapshot heap (generateInsertSteps h v)
  = l_arr (bubbleUp (Loop (h ++ [v]) (length (h ++ [v]) - 1)
                          [Step "push" (h ++ [v]) (info_index (length (h ++ [v]) - 1))])).
Proof. unfold generateInsertSteps. by rewrite finalSnapshot_snoc. Qed.

Lemma insert_min_heap heap h v :
  min_heap h → numbers h → is_number v = true →
  let h' := finalSnapshot heap (generateInsertSteps h v) in
  min_heap h' ∧ numbers h'.
Proof.
  intros Hh Hnum Hv. simpl. rewrite generateInsertSteps_final.
  apply (bubbleUp_rule up_inv (λ s, min_heap (l_arr s) ∧ numbers (l_arr s))).
  - apply up_inv_step.
  - apply up_inv_exit.
  - by apply up_inv_init.
Qed.

Lemma insertAll_min_heap heap values :
  min_heap heap → numbers heap → numbers values →
  min_heap (insertAll heap values) ∧ numbers (insertAll heap values).
Proof.
  intros Hh Hn Hv. revert heap Hh Hn.
  induction Hv as [|v values Hv Hvs IH]; intros heap Hh Hn; [done|].
  simpl. destruct (insert_min_heap heap heap v Hh Hn Hv) as [? ?]. by apply IH.
Qed.

(** ** Insert permutes *)

Lemma bubbleUp_perm s :
  l_i s < length (l_arr s) → l_arr (bubbleUp s) ≡ₚ l_arr s.
Proof.
  intros Hb.
  apply (bubbleUp_rule
           (λ s', l_i s' < length (l_arr s') ∧ l_arr s' ≡ₚ l_arr s)
           (λ s', l_arr s' ≡ₚ l_arr s)); [| |done].
  - intros s1 s2 [Hi HP] (Hpos & _ & ->)%bubbleUp_body_Continue. simpl.
    pose proof (parent_of_lt _ Hpos).
    split; [rewrite length_exchange; lia|].
    rewrite exchange_perm; [done|lia..].
  - by intros s1 s2 [Hi HP] (-> & _ & _)%bubbleUp_body_Break.
Qed.

(** ** Bubble-down restores the invariant *)

Lemma js_ge_refl a : is_number a = true → js_ge a a = true.
Proof. destruct a; simpl; try done. intros _. apply Z.leb_le. lia. Qed.

(** The candidate child is a least child. *)
Lemma smaller_of_min a i j :
  numbers a → 0 < j < length a → parent_of j = i →
  js_ge (aget a j) (aget a (smaller_of a i)) = true.
Proof.
  intros Hnum Hj Hp. apply parent_of_children in Hp; [|lia].
  assert (is_number (aget a j) = true) by (apply aget_number; [done|lia]).
  unfold smaller_of. case_bool_decide as Hr; simpl.
  - destruct (js_lt _ _) eqn:Hlt.
    + destruct Hp as [->| ->]; [by apply js_lt_ge|by apply js_ge_refl].
    + destruct Hp as [->| ->]; [by apply js_ge_refl|].
      apply js_nlt_ge; [done| |done]. apply aget_number; [done|lia].
  - destruct Hp as [->| ->]; [by apply js_ge_refl|lia].
Qed.

Lemma down_inv_step s s' : down_inv s → bubbleDown_body s = Continue s' → down_inv s'.
Proof.
  intros [Hnum Hoth Hgr] (Hl & Hlt & ->)%bubbleDown_body_Continue.
  destruct s as [a i st]; simpl in *.
  destruct (smaller_of_cases a i Hl) as [Hc [Hic Hcl]].
  pose proof (smaller_of_min a i) as Hmin.
  set (c := smaller_of a i) in *.
  assert (i < length a) as Hil by lia.
  assert (parent_of c = i) as Hpc by (apply parent_of_children; [lia|done]).
  pose proof (js_lt_ge _ _ Hlt) as Hge.
  split; simpl.
  - by apply exchange_numbers.
  - rewrite length_exchange by done. intros j Hj Hjp.
    pose proof (parent_of_lt j ltac:(lia)) as Hq.
    destruct (decide (j = c)) as [->|Hjc].
    + by rewrite Hpc, aget_exchange_l, aget_exchange_r.
    + destruct (decide (j = i)) as [->|Hji].
      * rewrite aget_exchange_l by done.
        rewrite aget_exchange_other by lia. apply Hgr; [lia|done|lia].
      * rewrite (aget_exchange_other a i c Hil Hcl j) by done.
        destruct (decide (parent_of j = i)) as [Hqi|Hqi].
        -- rewrite Hqi, aget_exchange_l by done. by apply Hmin.
        -- rewrite aget_exchange_other by done. by apply Hoth.
  - rewrite length_exchange by done. intros j Hj Hjp Hc0.
    pose proof (parent_of_lt j ltac:(lia)) as Hq.
    rewrite Hpc, aget_exchange_l by done.
    rewrite aget_exchange_other by lia.
    rewrite <-Hjp. apply Hoth; [done|lia].
Qed.

Lemma down_inv_exit s s' :
  down_inv s → bubbleDown_body s = Break s' → min_heap (l_arr s').
Proof.
  intros [Hnum Hoth Hgr] (-> & _ & Hcase)%bubbleDown_body_Break.
  intros j Hj.
  destruct (decide (parent_of j = l_i s)) as [Hp|]; [|by apply Hoth].
  pose proof Hp as Hch. apply parent_of_children in Hch; [|lia].
  destruct Hcase as [[? _]|(Hl & Hlt & _)]; [lia|].
  destruct (smaller_of_cases _ _ Hl) as [_ [? ?]].
  rewrite Hp. eapply js_ge_trans; [by apply smaller_of_min|].
  apply js_nlt_ge; [| |done]; apply aget_number; try done; lia.
Qed.

Lemma bubbleDown_min_heap s : down_inv s → min_heap (l_arr (bubbleDown s)).
Proof.
  apply (bubbleDown_rule down_inv (λ s, min_heap (l_arr s))).
  - apply down_inv_step.
  - apply down_inv_exit.
Qed.

Lemma bubbleDown_perm s : l_arr (bubbleDown s) ≡ₚ l_arr s.
Proof.
  apply (bubbleDown_rule (λ s', l_arr s' ≡ₚ l_arr s) (λ s', l_arr s' ≡ₚ l_arr s));
    [| |done].
  - intros s1 s2 HP (Hl & _ & ->)%bubbleDown_body_Continue. simpl.
    destruct (smaller_of_cases _ _ Hl) as [_ [? ?]].
    rewrite exchange_perm; [done|lia..].
  - by intros s1 s2 HP (-> & _ & _)%bubbleDown_body_Break.
Qed.

Lemma length_pop a : length (pop a) = length a - 1.
Proof. unfold pop. rewrite length_take. lia. Qed.

Lemma aget_pop a i : i < length a - 1 → aget (pop a) i = aget a i.
Proof. intros. unfold pop, aget. by rewrite lookup_take_lt. Qed.

Lemma pop_snoc a : a ≠ [] → a = pop a ++ [aget a (length a - 1)].
Proof.
  intros Ha. destruct (exists_last Ha) as (b & x & ->).
  unfold pop, aget. rewrite length_app. simpl.
  replace (length b + 1 - 1) with (length b) by lia.
  rewrite take_app_length. by rewrite list_lookup_middle.
Qed.

Lemma down_inv_init h st :
  2 ≤ length h → min_heap h →
  down_inv (Loop (pop (exchange h 0 (length h - 1))) 0 st).
Proof.
  intros Hlen Hh.
  assert (0 < length h) as H0 by lia.
  assert (length h - 1 < length h) as Hl by lia.
  split; simpl; rewrite ?length_pop, ?length_exchange by done.
  - apply Forall_take. apply exchange_numbers; [done..|].
    by apply min_heap_numbers.
  - intros j Hj Hp. pose proof (parent_of_lt j ltac:(lia)).
    rewrite !aget_pop by (rewrite length_exchange by done; lia).
    rewrite !aget_exchange_other by lia. apply Hh. lia.
  - intros; lia.
Qed.

Lemma generateDeleteMinSteps_final heap h :
  2 ≤ length h →
  let lastIndex := length h - 1 in
  let a1 := exchange h 0 lastIndex in
  finalSnapshot heap (generateDeleteMinSteps h)
  = l_arr (bubbleDown
      (Loop (pop a1) 0
         [Step "removeRoot" h (info_root_last 0 lastIndex);
          Step "swap" a1 (info_i_j 0 lastIndex);
          Step "pop" (pop a1) (info_removedIndex lastIndex)])).
Proof.
  intros Hlen. simpl. unfold generateDeleteMinSteps.
  rewrite decide_False by lia. rewrite decide_False by lia.
  by rewrite finalSnapshot_snoc.
Qed.

Lemma generateDeleteMinSteps_single v :
  generateDeleteMinSteps [v]
  = [Step "removeRoot" [v] (info_root_last 0 0); Step "done" [] info_none].
Proof. done. Qed.

(** ** One interval at a time, in the controller with Play / Pause / Next *)

Module EngineFacts.
Import Engine.

Lemma applyStep_frame s st :
  timerRef (applyStep s st) = timerRef st
  ∧ timers (applyStep s st) = timers st
  ∧ stepsRef (applyStep s st) = stepsRef st
  ∧ stepIndexRef (applyStep s st) = stepIndexRef st
  ∧ running (applyStep s st) = running st
  ∧ value (applyStep s st) = value st.
Proof. destruct s as [s|]; [|done]. unfold applyStep. by repeat case_decide. Qed.

Lemma applyStep_heap s st : heap (applyStep (Some s) st) = arr s.
Proof. unfold applyStep. by repeat case_decide. Qed.

(** Cancelling the interval held leaves none. *)
Lemma timers_inv_clear st :
  timers_inv st → timers_inv (set_timerRef None (clearTimer st)).
Proof.
  unfold timers_inv. destruct st as [? ? ? ? ? ? ? ? ? [id|] [l f]]; simpl; [|done].
  intros [ms ->]. simpl. by rewrite filter_cons_False by (intros H; by apply H).
Qed.

Lemma live_clearTimer st : timers_inv st → live (timers (clearTimer st)) = [].
Proof.
  unfold timers_inv. destruct st as [? ? ? ? ? ? ? ? ? [id|] [l f]]; simpl; [|done].
  intros [ms ->]. simpl. by rewrite filter_cons_False by (intros H; by apply H).
Qed.

(** Starting an interval when none is live leaves exactly that one. *)
Lemma timers_inv_start ms st :
  live (timers st) = [] → timers_inv (startTimer ms st).
Proof.
  unfold timers_inv, startTimer. destruct st as [? ? ? ? ? ? ? ? ? ? [l f]]; simpl.
  intros ->. by exists ms.
Qed.

Lemma timers_inv_restart ms st :
  timers_inv st →
  timers_inv (startTimer ms (if timerRef st is Some _ then clearTimer st else st)).
Proof.
  intros Hinv. apply timers_inv_start.
  destruct (timerRef st) eqn:E; [by apply live_clearTimer|].
  unfold timers_inv in Hinv. by rewrite E in Hinv.
Qed.

(** The invariant only reads [timerRef] and [timers]. *)
Lemma timers_inv_frame st st' :
  timerRef st' = timerRef st → timers st' = timers st →
  timers_inv st → timers_inv st'.
Proof. unfold timers_inv. by intros -> ->. Qed.

Lemma timers_inv_stop st :
  timers_inv st →
  timers_inv (if timerRef st is Some _ then set_timerRef None (clearTimer st) else st).
Proof. intros. destruct (timerRef st) eqn:E; [by apply timers_inv_clear|done]. Qed.

Lemma timers_inv_startSteps steps st :
  timers_inv st → timers_inv (startSteps steps st).
Proof.
  intros Hinv. unfold startSteps. case_decide; [done|].
  apply timers_inv_stop in Hinv. revert Hinv.
  generalize (if timerRef st is Some _ then set_timerRef None (clearTimer st) else st).
  intros st1 Hinv. eapply timers_inv_frame; [..|exact Hinv]; simpl.
  - destruct (applyStep_frame (steps !! 0)
      (match steps !! 0 with
       | Some s0 => setHeap (arr s0) (set_stepsRef steps st1)
       | None => set_stepsRef steps st1 end)) as (-> & _).
    by destruct (steps !! 0).
  - destruct (applyStep_frame (steps !! 0)
      (match steps !! 0 with
       | Some s0 => setHeap (arr s0) (set_stepsRef steps st1)
       | None => set_stepsRef steps st1 end)) as (_ & -> & _).
    by destruct (steps !! 0).
Qed.

Lemma timers_inv_runStep st : timers_inv st → timers_inv (runStep st).
Proof.
  intros Hinv. unfold runStep. case_decide.
  - apply timers_inv_stop in Hinv.
    eapply timers_inv_frame; [..|exact Hinv]; done.
  - destruct (applyStep_frame (stepsRef st !! stepIndexRef st) st)
      as (E1 & E2 & _).
    eapply timers_inv_frame; [exact E1|exact E2|exact Hinv].
Qed.

Lemma timers_inv_handlePlay st : timers_inv st → timers_inv (handlePlay st).
Proof.
  intros Hinv. unfold handlePlay. destruct (running st) eqn:E; [done|].
  case_decide; [done|].
  apply (timers_inv_restart (speedMs st) (setRunning true st)).
  eapply timers_inv_frame; [..|exact Hinv]; done.
Qed.

Lemma timers_inv_speedMsEffect st : timers_inv st → timers_inv (speedMsEffect st).
Proof.
  intros Hinv. unfold speedMsEffect. destruct (running st); [|done].
  by apply timers_inv_restart.
Qed.

Lemma timers_inv_handleSpeed level st :
  timers_inv st → timers_inv (handleSpeed level st).
Proof.
  intros Hinv. unfold handleSpeed, speedLevelEffect. case_decide; [done|].
  case_decide; [done|]. apply timers_inv_speedMsEffect.
  eapply timers_inv_frame; [..|exact Hinv]; done.
Qed.

Lemma timers_inv_handle Number e st :
  timers_inv st → timers_inv (handle Number e st).
Proof.
  intros Hinv. destruct e; simpl.
  - done.
  - unfold handleInsert. destruct (isNaN _); [done|].
    by apply timers_inv_startSteps.
  - by apply timers_inv_startSteps.
  - by apply timers_inv_startSteps.
  - by apply timers_inv_handlePlay.
  - unfold handlePause. apply timers_inv_stop in Hinv.
    eapply timers_inv_frame; [..|exact Hinv]; done.
  - unfold handleNext. apply timers_inv_runStep.
    destruct (running st && _); [|done].
    apply timers_inv_clear in Hinv.
    eapply timers_inv_frame; [..|exact Hinv]; done.
  - by apply timers_inv_handleSpeed.
  - destruct (is_live _ _); [|done]. by apply timers_inv_runStep.
Qed.

Lemma timers_inv_init : timers_inv init.
Proof. done. Qed.

Lemma reachable_timers_inv Number st : reachable Number st → timers_inv st.
Proof.
  induction 1 as [|e st _ IH]; [apply timers_inv_init|].
  by apply timers_inv_handle.
Qed.

Lemma timers_inv_at_most_one st : timers_inv st → length (live (timers st)) ≤ 1.
Proof.
  unfold timers_inv. destruct (timerRef st); [intros [ms ->]|intros ->]; simpl; lia.
Qed.
End EngineFacts.

(** ** The loops only append steps *)

Lemma bubbleUp_steps s : ∃ ext, l_steps (bubbleUp s) = l_steps s ++ ext.
Proof.
  apply (bubbleUp_rule (λ s', ∃ ext, l_steps s' = l_steps s ++ ext)
                       (λ s', ∃ ext, l_steps s' = l_steps s ++ ext)).
  - intros s1 s2 [ext E] (_ & _ & ->)%bubbleUp_body_Continue. simpl.
    rewrite E. eexists. by rewrite <-!app_assoc.
  - intros s1 s2 [ext E] (_ & _ & [[_ ->]|(_ & _ & ->)])%bubbleUp_body_Break.
    + by exists ext.
    + rewrite E. eexists. by rewrite <-!app_assoc.
  - exists []. by rewrite app_nil_r.
Qed.

Lemma bubbleDown_steps s : ∃ ext, l_steps (bubbleDown s) = l_steps s ++ ext.
Proof.
  apply (bubbleDown_rule (λ s', ∃ ext, l_steps s' = l_steps s ++ ext)
                         (λ s', ∃ ext, l_steps s' = l_steps s ++ ext)).
  - intros s1 s2 [ext E] (_ & _ & ->)%bubbleDown_body_Continue. simpl.
    rewrite E. eexists. by rewrite <-!app_assoc.
  - intros s1 s2 [ext E] (_ & _ & [[_ ->]|(_ & _ & ->)])%bubbleDown_body_Break.
    + by exists ext.
    + rewrite E. eexists. by rewrite <-!app_assoc.
  - exists []. by rewrite app_nil_r.
Qed.

(** ** Every generated step has the [info] of its type *)

Lemma bubbleUp_shaped s :
  Forall step_shaped (l_steps s) → Forall step_shaped (l_steps (bubbleUp s)).
Proof.
  apply (bubbleUp_rule (λ s, Forall step_shaped (l_steps s))
                       (λ s, Forall step_shaped (l_steps s))).
  - intros s1 s2 HP (_ & _ & ->)%bubbleUp_body_Continue. simpl.
    rewrite !Forall_app, !Forall_singleton. split_and!; [done|by left|by right].
  - intros s1 s2 HP (_ & _ & [[_ ->]|(_ & _ & ->)])%bubbleUp_body_Break; [done|].
    rewrite Forall_app, Forall_singleton. split; [done|by left].
Qed.

Lemma bubbleDown_shaped s :
  Forall step_shaped (l_steps s) → Forall step_shaped (l_steps (bubbleDown s)).
Proof.
  apply (bubbleDown_rule (λ s, Forall step_shaped (l_steps s))
                         (λ s, Forall step_shaped (l_steps s))).
  - intros s1 s2 HP (_ & _ & ->)%bubbleDown_body_Continue. simpl.
    by rewrite !Forall_app, !Forall_singleton.
  - intros s1 s2 HP (_ & _ & [[_ ->]|(_ & _ & ->)])%bubbleDown_body_Break; [done|].
    by rewrite Forall_app, Forall_singleton.
Qed.

Lemma generateInsertSteps_shaped h v : Forall step_shaped (generateInsertSteps h v).
Proof.
  unfold generateInsertSteps. rewrite Forall_app, Forall_singleton.
  split; [|done]. apply bubbleUp_shaped. simpl. by rewrite Forall_singleton.
Qed.

Lemma generateDeleteMinSteps_shaped h : Forall step_shaped (generateDeleteMinSteps h).
Proof.
  unfold generateDeleteMinSteps. case_decide; [done|].
  case_decide; [by repeat constructor|].
  rewrite Forall_app, Forall_singleton.
  split; [|done]. apply bubbleDown_shaped. simpl. by repeat constructor.
Qed.

(** ** The loops exit within a bound *)

Lemma while_bubbleUp fuel s :
  l_i s < fuel → while fuel bubbleUp_body s = Some (bubbleUp s).
Proof.
  revert s. induction fuel as [|fuel IH]; intros s Hlt; [lia|].
  simpl. rewrite bubbleUp_eq. destruct (bubbleUp_body s) as [s'|s'] eqn:E; [|done].
  apply IH. apply bubbleUp_body_decreases in E. lia.
Qed.

Lemma while_bubbleDown fuel s :
  length (l_arr s) - l_i s < fuel →
  while fuel bubbleDown_body s = Some (bubbleDown s).
Proof.
  revert s. induction fuel as [|fuel IH]; intros s Hlt; [lia|].
  simpl. rewrite bubbleDown_eq.
  destruct (bubbleDown_body s) as [s'|s'] eqn:E; [|done].
  apply IH. apply bubbleDown_body_increases in E. lia.
Qed.

(** ** Compare steps and the steps around them *)

Lemma adjacent_snoc R tr x :
  adjacent R tr → (∀ p, last tr = Some p → R p x) → adjacent R (tr ++ [x]).
Proof.
  intros Htr Hx k p s Hp Hs.
  pose proof (lookup_lt_Some _ _ _ Hs) as Hk. rewrite length_app in Hk. simpl in Hk.
  rewrite lookup_app_l in Hp by lia.
  destruct (decide (S k < length tr)).
  - rewrite lookup_app_l in Hs by done. by eapply Htr.
  - assert (S k = length tr) as Hlen by lia.
    rewrite Hlen, list_lookup_middle in Hs by done. injection Hs as <-.
    apply Hx. rewrite last_lookup. by replace (pred (length tr)) with k by lia.
Qed.

Lemma adjacent_short R tr : length tr ≤ 1 → adjacent R tr.
Proof. intros Hl k p s Hp Hs. apply lookup_lt_Some in Hs. lia. Qed.

Lemma lookup_0_snoc (l : list step) x s0 : l !! 0 = Some s0 → (l ++ [x]) !! 0 = Some s0.
Proof. intros H. rewrite lookup_app_l; [done|]. by eapply lookup_lt_Some. Qed.

Lemma follows_compare p a f :
  type p ≠ "compare" → arr p = a → follows p (Step "compare" a f).
Proof. intros Hp <-. split_and!; simpl; try done. Qed.

Lemma paired_snoc_compare_swap s c w :
  paired_so_far s →
  type c = "compare" → arr c = l_arr s → decision c = Some true →
  type w = "swap" → slots w = slots c →
  paired_so_far (Loop (arr w) (l_i s) ((l_steps s ++ [c]) ++ [w])).
Proof.
  intros (Hadj & (p & Hlast & Hp & Hpt) & (s0 & H0 & Hs0)) Hc Hca Hd Hw Hsl.
  split_and!; simpl.
  - apply adjacent_snoc; [apply adjacent_snoc; [done|]|].
    + intros p' Hp'. rewrite Hlast in Hp'. injection Hp' as <-.
      split_and!; [congruence|rewrite Hc; done|done].
    + intros c'. rewrite last_snoc. intros [= <-].
      split_and!; [rewrite Hw; done| |]; intros _; [right|left]; done.
  - exists w. rewrite last_snoc. split_and!; [done..|]. by rewrite Hw.
  - exists s0. split; [|done]. by do 2 apply lookup_0_snoc.
Qed.

Lemma paired_done steps a :
  adjacent follows steps →
  (∃ s0, steps !! 0 = Some s0 ∧ type s0 ≠ "compare" ∧ type s0 ≠ "swap") →
  (∀ p, last steps = Some p →
     type p ≠ "compare" ∨ decision p = Some false ∧ arr p = a) →
  well_paired (steps ++ [Step "done" a info_none]).
Proof.
  intros Hadj (s0 & H0 & Hs0) Hlast. split_and!.
  - apply adjacent_snoc; [done|]. intros p Hp.
    split_and!; simpl; try done. intros Hpt.
    destruct (Hlast p Hp) as [?|[? ?]]; [done|]. by right.
  - intros s. rewrite (lookup_0_snoc _ _ _ H0). by intros [= <-].
  - intros s. rewrite last_snoc. by intros [= <-].
Qed.

Lemma paired_exit s c :
  paired_so_far s →
  type c = "compare" → arr c = l_arr s → decision c = Some false →
  well_paired ((l_steps s ++ [c]) ++ [Step "done" (l_arr s) info_none]).
Proof.
  intros (Hadj & (p & Hlast & Hp & Hpt) & (s0 & H0 & Hs0)) Hc Hca Hd.
  apply paired_done.
  - apply adjacent_snoc; [done|].
    intros p' Hp'. rewrite Hlast in Hp'. injection Hp' as <-.
    split_and!; [congruence|rewrite Hc; done|done].
  - exists s0. split; [|done]. by apply lookup_0_snoc.
  - intros c'. rewrite last_snoc. intros [= <-]. by right.
Qed.

Lemma paired_exit_plain s :
  paired_so_far s → well_paired (l_steps s ++ [Step "done" (l_arr s) info_none]).
Proof.
  intros (Hadj & (p & Hlast & Hp & Hpt) & H0).
  apply paired_done; [done..|].
  intros p'. rewrite Hlast. intros [= <-]. by left.
Qed.

Lemma bubbleUp_paired s :
  paired_so_far s →
  let s' := bubbleUp s in
  well_paired (l_steps s' ++ [Step "done" (l_arr s') info_none]).
Proof.
  simpl.
  apply (bubbleUp_rule paired_so_far
    (λ s', well_paired (l_steps s' ++ [Step "done" (l_arr s') info_none]))).
  - intros s1 s2 HP (_ & Hlt & ->)%bubbleUp_body_Continue.
    apply (paired_snoc_compare_swap s1 (compare_up _ _) (swap_up _ _)); try done.
    unfold decision. simpl. by rewrite Hlt.
  - intros s1 s2 HP (Ha & _ & [[_ Hs]|(_ & Hlt & Hs)])%bubbleUp_body_Break;
      rewrite Hs, Ha.
    + by apply paired_exit_plain.
    + apply paired_exit; try done. unfold decision. simpl. by rewrite Hlt.
Qed.

Lemma bubbleDown_paired s :
  paired_so_far s →
  let s' := bubbleDown s in
  well_paired (l_steps s' ++ [Step "done" (l_arr s') info_none]).
Proof.
  simpl.
  apply (bubbleDown_rule paired_so_far
    (λ s', well_paired (l_steps s' ++ [Step "done" (l_arr s') info_none]))).
  - intros s1 s2 HP (_ & Hlt & ->)%bubbleDown_body_Continue.
    apply (paired_snoc_compare_swap s1 (compare_down _ _ _) (swap_down _ _ _));
      try done.
    unfold decision. simpl. by rewrite Hlt.
  - intros s1 s2 HP (Ha & _ & [[_ Hs]|(_ & Hlt & Hs)])%bubbleDown_body_Break;
      rewrite Hs, Ha.
    + by apply paired_exit_plain.
    + apply paired_exit; try done. unfold decision. simpl. by rewrite Hlt.
Qed.

Lemma generateInsertSteps_paired h v : well_paired (generateInsertSteps h v).
Proof.
  unfold generateInsertSteps. apply bubbleUp_paired. split_and!; simpl.
  - by apply adjacent_short.
  - by eexists.
  - by eexists.
Qed.

Lemma generateDeleteMinSteps_paired h : well_paired (generateDeleteMinSteps h).
Proof.
  unfold generateDeleteMinSteps. case_decide.
  { split_and!; [apply adjacent_short; simpl; lia|done..]. }
  case_decide.
  { apply (paired_done [_]); [by apply adjacent_short|by eexists|].
    intros p [= <-]. by left. }
  apply bubbleDown_paired. split_and!; simpl.
  - intros [|[|k]] p s; simpl; try done.
    + intros [= <-] [= <-]. split_and!; simpl; try done. by left.
    + intros [= <-] [= <-]. by split_and!.
  - by eexists.
  - by eexists.
Qed.

Lemma well_paired_framed tr : well_paired tr → compare_framed tr.
Proof.
  intros (Hadj & Hhead & Hlast). split.
  - intros k c Hc Hct. split.
    + destruct k as [|k]; [by destruct (Hhead c Hc)|].
      destruct (lookup_lt_is_Some_2 tr k) as [p Hp];
        [apply lookup_lt_Some in Hc; lia|].
      exists p. replace (S k - 1) with k by lia. split_and!; [lia|done|].
      destruct (Hadj k p c Hp Hc) as (H1 & _). by apply H1.
    + destruct (decide (S k < length tr)) as [Hlt|Hge].
      * destruct (lookup_lt_is_Some_2 tr (S k) Hlt) as [n Hn].
        exists n. split; [done|].
        destruct (Hadj k c n Hc Hn) as (_ & _ & H3). exact (H3 Hct).
      * pose proof (lookup_lt_Some _ _ _ Hc).
        assert (last tr = Some c) as Hl.
        { rewrite last_lookup. by replace (pred (length tr)) with k by lia. }
        apply Hlast in Hl. congruence.
  - intros k w Hw Hwt.
    destruct k as [|k]; [by destruct (Hhead w Hw)|].
    destruct (lookup_lt_is_Some_2 tr k) as [p Hp];
      [apply lookup_lt_Some in Hw; lia|].
    exists p. replace (S k - 1) with k by lia. split_and!; [lia|done|].
    destruct (Hadj k p w Hp Hw) as (_ & H2 & _). by apply H2.
Qed.

(** ** A compare step before every swap decision *)

Lemma adjacent_announced tr :
  adjacent announces tr →
  (∀ p, last tr = Some p → pending_test p = None) →
  compare_announced tr.
Proof.
  intros Hadj Hlast k p i j Hp Ht.
  pose proof (lookup_lt_Some _ _ _ Hp) as Hk.
  destruct (decide (S k < length tr)) as [Hlt|Hge].
  - destruct (lookup_lt_is_Some_2 tr (S k) Hlt) as [c Hc].
    exists c. split; [done|]. by apply (Hadj k p c Hp Hc).
  - assert (last tr = Some p) as Hl.
    { rewrite last_lookup. by replace (pred (length tr)) with k by lia. }
    apply Hlast in Hl. congruence.
Qed.

Lemma pending_test_compare a f : pending_test (Step "compare" a f) = None.
Proof. done. Qed.

Lemma announces_none p c : pending_test p = None → announces p c.
Proof. intros H i j. by rewrite H. Qed.

Lemma announced_snoc_compare_swap test s s' c w i j :
  announced_so_far test s → test s = Some (i, j) →
  type c = "compare" → arr c = l_arr s → slots c = Some (i, j) →
  pending_test c = None →
  l_steps s' = (l_steps s ++ [c]) ++ [w] → arr w = l_arr s' →
  pending_test w = test s' →
  announced_so_far test s'.
Proof.
  intros (Hadj & p & Hlast & Hp & Hpt) Ht Hc Hca Hsl Hcn Hs' Hw Hwt.
  split.
  - rewrite Hs'. apply adjacent_snoc; [apply adjacent_snoc; [done|]|].
    + intros p'. rewrite Hlast. intros [= <-] i' j'.
      rewrite Hpt, Ht. intros [= <- <-]. split_and!; [done|congruence|done].
    + intros c'. rewrite last_snoc. intros [= <-]. by apply announces_none.
  - exists w. rewrite Hs', last_snoc. done.
Qed.

Lemma announced_exit test s c i j a :
  announced_so_far test s → test s = Some (i, j) →
  type c = "compare" → arr c = l_arr s → slots c = Some (i, j) →
  pending_test c = None →
  compare_announced ((l_steps s ++ [c]) ++ [Step "done" a info_none]).
Proof.
  intros (Hadj & p & Hlast & Hp & Hpt) Ht Hc Hca Hsl Hcn.
  apply adjacent_announced.
  - apply adjacent_snoc; [apply adjacent_snoc; [done|]|].
    + intros p'. rewrite Hlast. intros [= <-] i' j'.
      rewrite Hpt, Ht. intros [= <- <-]. split_and!; [done|congruence|done].
    + intros c'. rewrite last_snoc. intros [= <-]. by apply announces_none.
  - intros d. rewrite last_snoc. by intros [= <-].
Qed.

Lemma announced_exit_plain test s a :
  announced_so_far test s → test s = None →
  compare_announced (l_steps s ++ [Step "done" a info_none]).
Proof.
  intros (Hadj & p & Hlast & Hp & Hpt) Ht.
  apply adjacent_announced.
  - apply adjacent_snoc; [done|].
    intros p'. rewrite Hlast. intros [= <-]. apply announces_none. congruence.
  - intros d. rewrite last_snoc. by intros [= <-].
Qed.

Lemma bubbleUp_announced s :
  announced_so_far (λ s, up_test (l_i s)) s →
  let s' := bubbleUp s in
  compare_announced (l_steps s' ++ [Step "done" (l_arr s') info_none]).
Proof.
  simpl.
  apply (bubbleUp_rule (announced_so_far (λ s, up_test (l_i s)))
    (λ s', compare_announced (l_steps s' ++ [Step "done" (l_arr s') info_none]))).
  - intros s1 s2 HP (Hpos & _ & ->)%bubbleUp_body_Continue.
    eapply (announced_snoc_compare_swap (λ s, up_test (l_i s)) s1 _ (compare_up _ _) (swap_up _ _));
      [exact HP|simpl; unfold up_test; by rewrite decide_True|done..].
  - intros s1 s2 HP (Ha & _ & [[Hz Hs]|(Hpos & _ & Hs)])%bubbleUp_body_Break;
      rewrite Hs.
    + apply (announced_exit_plain (λ s, up_test (l_i s)) s1); [done|]. simpl. by rewrite Hz.
    + eapply (announced_exit (λ s, up_test (l_i s)) s1 (compare_up _ _)); [exact HP| |done..].
      simpl. unfold up_test. by rewrite decide_True.
Qed.

Lemma bubbleDown_announced s :
  announced_so_far (λ s, down_test (l_arr s) (l_i s)) s →
  let s' := bubbleDown s in
  compare_announced (l_steps s' ++ [Step "done" (l_arr s') info_none]).
Proof.
  simpl.
  apply (bubbleDown_rule (announced_so_far (λ s, down_test (l_arr s) (l_i s)))
    (λ s', compare_announced (l_steps s' ++ [Step "done" (l_arr s') info_none]))).
  - intros s1 s2 HP (Hl & _ & ->)%bubbleDown_body_Continue.
    eapply (announced_snoc_compare_swap (λ s, down_test (l_arr s) (l_i s)) s1 _ (compare_down _ _ _) (swap_down _ _ _));
      [exact HP|simpl; unfold down_test; by rewrite decide_True|done..].
  - intros s1 s2 HP (Ha & _ & [[Hz Hs]|(Hl & _ & Hs)])%bubbleDown_body_Break;
      rewrite Hs.
    + apply (announced_exit_plain (λ s, down_test (l_arr s) (l_i s)) s1); [done|]. simpl. unfold down_test.
      rewrite decide_False; [done|lia].
    + eapply (announced_exit (λ s, down_test (l_arr s) (l_i s)) s1 (compare_down _ _ _)); [exact HP| |done..].
      simpl. unfold down_test. by rewrite decide_True.
Qed.

Lemma generateInsertSteps_announced h v : compare_announced (generateInsertSteps h v).
Proof.
  unfold generateInsertSteps. apply bubbleUp_announced. split; simpl.
  - by apply adjacent_short.
  - by eexists.
Qed.

Lemma generateDeleteMinSteps_announced h : compare_announced (generateDeleteMinSteps h).
Proof.
  unfold generateDeleteMinSteps. case_decide as Hz.
  { intros k p i j Hp. by rewrite lookup_nil in Hp. }
  case_decide as Hone.
  { apply adjacent_announced.
    - intros [|k] p s; simpl; [|done]. intros [= <-] _. by apply announces_none.
    - by intros p [= <-]. }
  fold (exchange h 0 (length h - 1)).
  assert (length (exchange h 0 (length h - 1)) = length h) as Hlen
    by (apply length_exchange; lia).
  apply bubbleDown_announced. split; simpl.
  - intros [|[|k]] p s; simpl; try done.
    + intros [= <-] _. by apply announces_none.
    + intros [= <-] _. apply announces_none. unfold pending_test. simpl.
      unfold down_test. rewrite decide_False; [done|]. rewrite Hlen. lia.
  - by eexists.
Qed.

Lemma generateInsertSteps_head h v :
  generateInsertSteps h v !! 0
  = Some (Step "push" (h ++ [v]) (info_index (length h))).
Proof.
  unfold generateInsertSteps.
  destruct (bubbleUp_steps
    (Loop (h ++ [v]) (length (h ++ [v]) - 1)
       [Step "push" (h ++ [v]) (info_index (length (h ++ [v]) - 1))])) as [ext Hext].
  simpl in Hext. simpl. rewrite Hext. simpl.
  rewrite length_app. simpl. by replace (length h + 1 - 1) with (length h) by lia.
Qed.

Lemma generateDeleteMinSteps_head h :
  2 ≤ length h →
  let lastIndex := length h - 1 in
  ∃ rest,
    generateDeleteMinSteps h
    = Step "removeRoot" h (info_root_last 0 lastIndex)
      :: Step "swap" (exchange h 0 lastIndex) (info_i_j 0 lastIndex)
      :: Step "pop" (pop (exchange h 0 lastIndex)) (info_removedIndex lastIndex)
      :: rest.
Proof.
  intros Hlen. simpl. unfold generateDeleteMinSteps.
  rewrite decide_False by lia. rewrite decide_False by lia.
  fold (exchange h 0 (length h - 1)).
  destruct (bubbleDown_steps
    (Loop (pop (exchange h 0 (length h - 1))) 0
       [Step "removeRoot" h (info_root_last 0 (length h - 1));
        Step "swap" (exchange h 0 (length h - 1)) (info_i_j 0 (length h - 1));
        Step "pop" (pop (exchange h 0 (length h - 1)))
          (info_removedIndex (length h - 1))])) as [ext Hext].
  simpl in Hext. simpl. rewrite Hext. simpl. by eexists.
Qed.

(** ** What [src/HeapVisualizer.jsx] does on load *)

Module AutoPlayFacts.
Import AutoPlay.

Lemma autoplay_startSteps_cons s0 rest st :
  let st' := startSteps (s0 :: rest) st in
  heap st' = arr s0 ∧ stepIndexRef st' = 1 ∧ stepsRef st' = s0 :: rest
  ∧ running st' = true ∧ highlight st' = hl_empty
  ∧ timerRef st' = Some (fresh (timers st))
  ∧ live (timers st') = (fresh (timers st), speed st) :: live (timers st).
Proof. by destruct st as [? ? ? ? ? ? ? ? [l f]]. Qed.
End AutoPlayFacts.

(** ** Loading a trace, in the controller with Play / Pause / Next *)

Module EngineLoad.
Import Engine EngineFacts.

(** What a step shows does not depend on the state it is applied to. *)
Lemma applyStep_shows s st st' :
  highlight (applyStep (Some s) st) = highlight (applyStep (Some s) st')
  ∧ pseudo (applyStep (Some s) st) = pseudo (applyStep (Some s) st').
Proof. unfold applyStep. by repeat case_decide. Qed.

#[local] Arguments applyStep : simpl never.

Lemma timers_stopped st :
  timers_inv st →
  let st1 := if timerRef st is Some _ then set_timerRef None (clearTimer st) else st in
  timerRef st1 = None ∧ live (timers st1) = [].
Proof.
  intros Hinv. simpl. destruct (timerRef st) eqn:E.
  - split; [done|]. by apply live_clearTimer.
  - split; [done|]. unfold timers_inv in Hinv. by rewrite E in Hinv.
Qed.

Lemma engine_startSteps_cons s0 rest st :
  timers_inv st →
  let st' := startSteps (s0 :: rest) st in
  heap st' = arr s0
  ∧ highlight st' = highlight (applyStep (Some s0) st)
  ∧ pseudo st' = pseudo (applyStep (Some s0) st)
  ∧ stepIndexRef st' = 1 ∧ stepsRef st' = s0 :: rest
  ∧ timerRef st' = None ∧ live (timers st') = [] ∧ running st' = false.
Proof.
  intros Hinv. apply timers_stopped in Hinv. revert Hinv.
  unfold startSteps. simpl.
  generalize (if timerRef st is Some _ then set_timerRef None (clearTimer st) else st).
  intros st1 [Ht Hl].
  set (st2 := setHeap (arr s0) (set_stepsRef (s0 :: rest) st1)).
  destruct (applyStep_frame (Some s0) st2) as (E1 & E2 & E3 & _).
  destruct (applyStep_shows s0 st2 st) as [E4 E5].
  split_and!; simpl; try done.
  - apply applyStep_heap.
  - by rewrite E1.
  - by rewrite E2.
Qed.
End EngineLoad.

(** * The properties of the specification *)

Lemma generateDeleteMinSteps_last heap h :
  h ≠ [] →
  last (generateDeleteMinSteps h)
  = Some (Step "done" (finalSnapshot heap (generateDeleteMinSteps h)) info_none).
Proof.
  intros Hh. assert (length h ≠ 0) by by destruct h.
  unfold generateDeleteMinSteps. rewrite decide_False by done.
  case_decide; by rewrite finalSnapshot_snoc, last_snoc.
Qed.

(** C1. For a non-empty array that satisfies the min-heap invariant, the
    trace of [generateDeleteMinSteps] ends with a [done] step whose snapshot
    satisfies the invariant, has one element less, and is the original
    array with one occurrence of the original [heap[0]] taken out. *)
Theorem deleteMin_restores_heap (heap : list jsval) :
  heap ≠ [] → min_heap heap →
  let tr := generateDeleteMinSteps heap in
  let final := finalSnapshot heap tr in
  last tr = Some (Step "done" final info_none)
  ∧ min_heap final
  ∧ length final = length heap - 1
  ∧ heap ≡ₚ aget heap 0 :: final.
Proof.
  intros Hne Hh. simpl. split; [by apply generateDeleteMinSteps_last|].
  destruct heap as [|v [|w rest]]; [done| |].
  - rewrite generateDeleteMinSteps_single. unfold finalSnapshot. simpl.
    split_and!; [|done..]. intros i Hi. simpl in Hi. lia.
  - set (h := v :: w :: rest) in *.
    assert (2 ≤ length h) as Hlen by (simpl; lia).
    assert (0 < length h) as H0 by lia.
    assert (length h - 1 < length h) as Hl by lia.
    rewrite generateDeleteMinSteps_final by done.
    set (s := bubbleDown _).
    assert (l_arr s ≡ₚ pop (exchange h 0 (length h - 1))) as Hperm
      by apply bubbleDown_perm.
    split_and!.
    + apply bubbleDown_min_heap. by apply down_inv_init.
    + rewrite Hperm, length_pop, length_exchange by done. done.
    + rewrite Hperm. rewrite <-(exchange_perm h 0 (length h - 1)) at 1 by done.
      rewrite (pop_snoc (exchange h 0 (length h - 1))) at 1.
      * rewrite length_exchange, aget_exchange_r by done.
        by rewrite Permutation_app_comm.
      * intros E. apply (f_equal length) in E.
        rewrite length_exchange in E by done. simpl in E. lia.
Qed.

Lemma deleteMin_restores_heap_witness :
  let heap := nums [0; 1; 2; 7; 3]%Z in
  let tr := generateDeleteMinSteps heap in
  let final := finalSnapshot heap tr in
  (heap ≠ [] ∧ min_heapb heap = true ∧ final = nums [1; 3; 2; 7]%Z)
  ∧ last tr = Some (Step "done" final info_none)
  ∧ min_heap final ∧ length final = 4 ∧ heap ≡ₚ Num 0 :: final.
Proof.
  split; [by vm_compute|].
  apply (deleteMin_restores_heap (nums [0; 1; 2; 7; 3]%Z)).
  - discriminate.
  - apply min_heapb_spec. vm_compute. reflexivity.
Defined.

(** C2. Inserting any finite sequence of numbers one at a time into the
    empty array, each insert starting from the final snapshot of the one
    before, ends in an array where [heap[i] >= heap[floor((i-1)/2)]] for
    every [i > 0]. *)
Theorem inserts_keep_min_heap (values : list jsval) :
  Forall (λ v, is_number v = true) values →
  min_heap (insertAll [] values).
Proof.
  intros Hv.
  destruct (insertAll_min_heap [] values) as [Hheap _]; [|by constructor|done|done].
  intros i Hi. simpl in Hi. lia.
Qed.

Lemma inserts_keep_min_heap_witness :
  let values := nums [5; 3; 8; 1; 3]%Z in
  Forall (λ v, is_number v = true) values
  ∧ insertAll [] values = nums [1; 3; 8; 5; 3]%Z
  ∧ min_heap (insertAll [] values).
Proof.
  split; [repeat constructor|].
  split; [vm_compute; reflexivity|].
  apply (inserts_keep_min_heap (nums [5; 3; 8; 1; 3]%Z)).
  repeat constructor.
Defined.

(** C3, as the code has it. For every non-empty trace, [startSteps] shows
    the snapshot of step 0 at once and sets the cursor to 1. The controller
    with Play / Pause / Next Step also shows the highlight and the
    pseudo-text of step 0 and is left paused: no interval is live, the
    handle is empty and [running] is false. The controller of
    [src/HeapVisualizer.jsx] starts the interval at once and sets [running]
    to true. *)
Theorem startSteps_first_step
    (st : Engine.state) (st2 : AutoPlay.state) (s0 : step) (rest : list step) :
  Engine.timers_inv st →
  let e := Engine.startSteps (s0 :: rest) st in
  let a := AutoPlay.startSteps (s0 :: rest) st2 in
  (Engine.heap e = arr s0
   ∧ Engine.highlight e = Engine.highlight (Engine.applyStep (Some s0) st)
   ∧ Engine.pseudo e = Engine.pseudo (Engine.applyStep (Some s0) st)
   ∧ Engine.stepIndexRef e = 1 ∧ Engine.stepsRef e = s0 :: rest
   ∧ Engine.timerRef e = None ∧ live (Engine.timers e) = []
   ∧ Engine.running e = false)
  ∧ (AutoPlay.heap a = arr s0
     ∧ AutoPlay.stepIndexRef a = 1 ∧ AutoPlay.stepsRef a = s0 :: rest
     ∧ AutoPlay.running a = true
     ∧ ∃ id, AutoPlay.timerRef a = Some id
             ∧ (id, AutoPlay.speed st2) ∈ live (AutoPlay.timers a)).
Proof.
  intros Hinv e a. subst e a. split; [by apply EngineLoad.engine_startSteps_cons|].
  destruct (AutoPlayFacts.autoplay_startSteps_cons s0 rest st2)
    as (? & ? & ? & ? & _ & Ht & Hl).
  split_and!; [done..|].
  exists (fresh (AutoPlay.timers st2)). split; [exact Ht|].
  rewrite Hl. left.
Qed.

Lemma startSteps_first_step_witness :
  let tr := generateInsertSteps [] (Num 5) in
  let e := Engine.startSteps tr Engine.init in
  let a := AutoPlay.startSteps tr AutoPlay.init in
  (Engine.heap e = [Num 5]
   ∧ Engine.highlight e = hl "push" [Some 0]
   ∧ Engine.pseudo e = "# insert new value" +:+ nl +:+ "heap.append(5)"
   ∧ Engine.stepIndexRef e = 1 ∧ Engine.stepsRef e = tr
   ∧ Engine.timerRef e = None ∧ live (Engine.timers e) = []
   ∧ Engine.running e = false)
  ∧ (AutoPlay.heap a = [Num 5]
     ∧ AutoPlay.stepIndexRef a = 1 ∧ AutoPlay.stepsRef a = tr
     ∧ AutoPlay.running a = true
     ∧ ∃ id, AutoPlay.timerRef a = Some id
             ∧ (id, 600%Z) ∈ live (AutoPlay.timers a)).
Proof.
  apply (startSteps_first_step Engine.init AutoPlay.init
           (Step "push" [Num 5] (info_index 0)) [Step "done" [Num 5] info_none]).
  reflexivity.
Defined.

(** C3 as stated fails for [src/HeapVisualizer.jsx]: after loading the
    trace of an insert the controller is playing, an interval is live, and
    the highlight of step 0 is not shown. *)
Lemma autoplay_startSteps_is_playing :
  let tr := generateInsertSteps [] (Num 5) in
  let a := AutoPlay.startSteps tr AutoPlay.init in
  tr ≠ []
  ∧ AutoPlay.running a = true
  ∧ AutoPlay.timerRef a = Some 1
  ∧ live (AutoPlay.timers a) = [(1, 600%Z)]
  ∧ AutoPlay.highlight a = hl_empty.
Proof. vm_compute. by split_and!. Qed.

(** In the controller with Play / Pause / Next Step at most one interval is
    live in every reachable state, and [timerRef] holds it. *)
Lemma engine_one_timer Number st :
  Engine.reachable Number st →
  Engine.timers_inv st ∧ length (live (Engine.timers st)) ≤ 1.
Proof.
  intros Hr%EngineFacts.reachable_timers_inv.
  split; [done|]. by apply EngineFacts.timers_inv_at_most_one.
Qed.

(** C4. In [src/HeapVisualizer.jsx] a second insert while the first trace is
    playing leaves two live intervals, of which [timerRef] holds the second
    only; once the trace has been played to its end the first interval is
    still live, with no handle left to cancel it. *)
Theorem autoplay_second_load_keeps_first_timer :
  let st1 := AutoPlay.handleRandomInsert 3 AutoPlay.init in
  let st2 := AutoPlay.handleRandomInsert 7 st1 in
  let st3 := AutoPlay.runStep (AutoPlay.runStep (AutoPlay.runStep st2)) in
  (∀ Number, AutoPlay.reachable Number st2)
  ∧ live (AutoPlay.timers st1) = [(1, 600%Z)]
  ∧ AutoPlay.timerRef st1 = Some 1
  ∧ live (AutoPlay.timers st2) = [(2, 600%Z); (1, 600%Z)]
  ∧ AutoPlay.timerRef st2 = Some 2
  ∧ length (AutoPlay.stepsRef st2) = 3
  ∧ AutoPlay.running st3 = false
  ∧ AutoPlay.timerRef st3 = None
  ∧ live (AutoPlay.timers st3) = [(1, 600%Z)].
Proof.
  simpl. split; [|vm_compute; by split_and!].
  intros Number.
  apply (AutoPlay.reachable_handle Number (AutoPlay.ClickInsertRandom 7)).
  apply (AutoPlay.reachable_handle Number (AutoPlay.ClickInsertRandom 3)).
  apply AutoPlay.reachable_init.
Qed.

(** C5. When the bubble-down loop reaches a node with a left child, the
    compare step it emits names as [smaller] the right child exactly when
    the right child exists and is strictly less than the left one, and the
    left child otherwise; equal children give the left one. *)
Theorem bubbleDown_prefers_left (s : loop) :
  let a := l_arr s in
  let i := l_i s in
  let left := 2 * i + 1 in
  let right := 2 * i + 2 in
  left < length a →
  ∃ smaller rest,
    l_steps (ctl_loop (bubbleDown_body s))
    = l_steps s ++ Step "compare" a (info_i_smaller i smaller) :: rest
    ∧ (smaller = right ↔
         right < length a ∧ js_lt (aget a right) (aget a left) = true)
    ∧ (smaller = left ↔
         ¬ (right < length a ∧ js_lt (aget a right) (aget a left) = true))
    ∧ (aget a right = aget a left → smaller = left).
Proof.
  intros a i left right Hl.
  assert (∃ rest, l_steps (ctl_loop (bubbleDown_body s))
                  = l_steps s ++ compare_down a i (smaller_of a i) :: rest)
    as [rest Hrest].
  { destruct (bubbleDown_body s) as [s'|s'] eqn:E; simpl.
    - apply bubbleDown_body_Continue in E as (_ & _ & ->). simpl.
      eexists. by rewrite <-app_assoc.
    - apply bubbleDown_body_Break in E as (_ & _ & [[? _]|(_ & _ & ->)]).
      + subst a i left. lia.
      + by eexists. }
  exists (smaller_of a i), rest. split; [done|].
  unfold smaller_of. fold left right.
  assert (js_lt (aget a left) (aget a left) = false) as Hirr.
  { destruct (aget a left); simpl; try done. apply Z.ltb_irrefl. }
  case_bool_decide as Hr; simpl.
  - destruct (js_lt (aget a right) (aget a left)) eqn:Hlt.
    + split_and!.
      * by split.
      * split; [subst left right; lia|]. intros Hn. destruct Hn. done.
      * intros Heq. rewrite Heq in Hlt. congruence.
    + split_and!; [| |done].
      * split; [subst left right; lia|]. by intros [_ ?].
      * split; [|done]. by intros _ [_ ?].
  - split_and!; [| |done].
    + split; [subst left right; lia|]. by intros [? _].
    + split; [|done]. by intros _ [? _].
Qed.

Lemma bubbleDown_prefers_left_witness :
  let a := nums [9; 4; 4]%Z in
  ∃ smaller rest,
    l_steps (ctl_loop (bubbleDown_body (Loop a 0 [])))
    = Step "compare" a (info_i_smaller 0 smaller) :: rest
    ∧ (smaller = 2 ↔ 2 < length a ∧ js_lt (aget a 2) (aget a 1) = true)
    ∧ (smaller = 1 ↔ ¬ (2 < length a ∧ js_lt (aget a 2) (aget a 1) = true))
    ∧ (aget a 2 = aget a 1 → smaller = 1).
Proof.
  apply (bubbleDown_prefers_left (Loop (nums [9; 4; 4]%Z) 0 [])).
  simpl. lia.
Defined.

(** C6. In every trace of [generateInsertSteps] and of
    [generateDeleteMinSteps], a compare step carries the snapshot of the
    step just before it, and it is followed by the swap it decided or, when
    its test fails, by the end of the trace; every swap but the exchange of
    root and last comes right after a compare of the same two slots. A
    compare step is emitted before every swap decision, whichever way the
    decision goes: a step after which a loop tests two slots is followed by
    the compare step that names these slots, on the same snapshot. The
    traces open with the steps that lead into the loops: the push for an
    insert; removeRoot, the exchange of root and last and the pop for a
    delete-min on two or more elements. *)
Theorem compare_steps_framed (startHeap : list jsval) (insertedValue : jsval) :
  let ins := generateInsertSteps startHeap insertedValue in
  let del := generateDeleteMinSteps startHeap in
  (compare_framed ins ∧ compare_framed del)
  ∧ (compare_announced ins ∧ compare_announced del)
  ∧ ins !! 0
    = Some (Step "push" (startHeap ++ [insertedValue])
                 (info_index (length startHeap)))
  ∧ (2 ≤ length startHeap →
     let lastIndex := length startHeap - 1 in
     del !! 0 = Some (Step "removeRoot" startHeap (info_root_last 0 lastIndex))
     ∧ del !! 1
       = Some (Step "swap" (exchange startHeap 0 lastIndex) (info_i_j 0 lastIndex))
     ∧ del !! 2
       = Some (Step "pop" (pop (exchange startHeap 0 lastIndex))
                    (info_removedIndex lastIndex))).
Proof.
  split_and!.
  - apply well_paired_framed, generateInsertSteps_paired.
  - apply well_paired_framed, generateDeleteMinSteps_paired.
  - apply generateInsertSteps_announced.
  - apply generateDeleteMinSteps_announced.
  - apply generateInsertSteps_head.
  - intros Hlen. destruct (generateDeleteMinSteps_head startHeap Hlen) as [rest E].
    simpl. by rewrite E.
Qed.

Lemma compare_steps_framed_witness :
  let startHeap := nums [1; 3; 2]%Z in
  let ins := generateInsertSteps startHeap (Num 5) in
  let del := generateDeleteMinSteps startHeap in
  (ins = [Step "push" (nums [1; 3; 2; 5]%Z) (info_index 3);
          Step "compare" (nums [1; 3; 2; 5]%Z) (info_i_parent 3 1);
          Step "done" (nums [1; 3; 2; 5]%Z) info_none]
   ∧ del = [Step "removeRoot" (nums [1; 3; 2]%Z) (info_root_last 0 2);
            Step "swap" (nums [2; 3; 1]%Z) (info_i_j 0 2);
            Step "pop" (nums [2; 3]%Z) (info_removedIndex 2);
            Step "compare" (nums [2; 3]%Z) (info_i_smaller 0 1);
            Step "done" (nums [2; 3]%Z) info_none])
  ∧ (compare_framed ins ∧ compare_framed del)
  ∧ (compare_announced ins ∧ compare_announced del)
  ∧ ins !! 0 = Some (Step "push" (nums [1; 3; 2; 5]%Z) (info_index 3))
  ∧ del !! 0 = Some (Step "removeRoot" (nums [1; 3; 2]%Z) (info_root_last 0 2))
  ∧ del !! 1 = Some (Step "swap" (nums [2; 3; 1]%Z) (info_i_j 0 2))
  ∧ del !! 2 = Some (Step "pop" (nums [2; 3]%Z) (info_removedIndex 2)).
Proof.
  split; [by vm_compute|].
  destruct (compare_steps_framed (nums [1; 3; 2]%Z) (Num 5)) as (H1 & H2 & H3 & H4).
  assert (2 ≤ length (nums [1; 3; 2]%Z)) as Hlen by (simpl; lia).
  split; [exact H1|]. split; [exact H2|]. split; [exact H3|]. exact (H4 Hlen).
Defined.

(** C7. [generateDeleteMinSteps] returns the empty trace exactly on the
    empty array, and [generateInsertSteps] always returns a trace that
    starts with a push step and ends with a done step. *)
Theorem empty_trace_only_for_empty_deleteMin
    (startHeap : list jsval) (insertedValue : jsval) :
  (generateDeleteMinSteps startHeap = [] ↔ startHeap = [])
  ∧ (∃ middle final,
       generateInsertSteps startHeap insertedValue
       = Step "push" (startHeap ++ [insertedValue]) (info_index (length startHeap))
         :: middle ++ [Step "done" final info_none])
  ∧ 2 ≤ length (generateInsertSteps startHeap insertedValue).
Proof.
  split_and!.
  - split; [|by intros ->].
    unfold generateDeleteMinSteps. case_decide as Hlen; [by destruct startHeap|].
    case_decide; [done|].
    destruct (bubbleDown_steps
      (Loop (pop (exchange startHeap 0 (length startHeap - 1))) 0
         [Step "removeRoot" startHeap (info_root_last 0 (length startHeap - 1));
          Step "swap" (exchange startHeap 0 (length startHeap - 1))
            (info_i_j 0 (length startHeap - 1));
          Step "pop" (pop (exchange startHeap 0 (length startHeap - 1)))
            (info_removedIndex (length startHeap - 1))])) as [ext Hext].
    simpl in Hext. intros E. apply (f_equal length) in E.
    rewrite length_app in E. simpl in E. lia.
  - unfold generateInsertSteps.
    destruct (bubbleUp_steps
      (Loop (startHeap ++ [insertedValue]) (length (startHeap ++ [insertedValue]) - 1)
         [Step "push" (startHeap ++ [insertedValue])
            (info_index (length (startHeap ++ [insertedValue]) - 1))]))
      as [ext Hext].
    simpl in Hext. simpl. rewrite Hext. eexists ext, _. simpl.
    rewrite length_app. simpl. by replace (length startHeap + 1 - 1) with (length startHeap) by lia.
  - unfold generateInsertSteps.
    destruct (bubbleUp_steps
      (Loop (startHeap ++ [insertedValue]) (length (startHeap ++ [insertedValue]) - 1)
         [Step "push" (startHeap ++ [insertedValue])
            (info_index (length (startHeap ++ [insertedValue]) - 1))]))
      as [ext Hext].
    simpl in Hext. simpl. rewrite Hext, !length_app. simpl. lia.
Qed.





(** C9. The final snapshot of [generateInsertSteps] is a permutation of the
    input array with the inserted value appended. *)
Theorem insert_permutes (startHeap : list jsval) (insertedValue : jsval) :
  finalSnapshot startHeap (generateInsertSteps startHeap insertedValue)
  ≡ₚ startHeap ++ [insertedValue].
Proof.
  rewrite generateInsertSteps_final.
  rewrite bubbleUp_perm; [done|]. simpl. rewrite length_app. simpl. lia.
Qed.

(** C10. Both generators terminate on every array: the loop of
    [generateInsertSteps] exits within [length + 1] passes through its body
    and that of [generateDeleteMinSteps] within [length]; a pass that goes
    on strictly decreases the bubble-up index, and strictly increases the
    bubble-down index, which stays below the length of the array. *)
Theorem generators_terminate :
  (∀ startHeap insertedValue,
     generateInsertSteps_within (length startHeap + 1) startHeap insertedValue
     = Some (generateInsertSteps startHeap insertedValue))
  ∧ (∀ startHeap,
       generateDeleteMinSteps_within (length startHeap) startHeap
       = Some (generateDeleteMinSteps startHeap))
  ∧ (∀ s s', bubbleUp_body s = Continue s' → l_i s' < l_i s)
  ∧ (∀ s s', bubbleDown_body s = Continue s' →
       l_i s < l_i s' ∧ l_i s' < length (l_arr s')
       ∧ length (l_arr s') = length (l_arr s)).
Proof.
  split_and!.
  - intros h v. unfold generateInsertSteps_within, generateInsertSteps.
    rewrite while_bubbleUp; [done|]. simpl. rewrite length_app. simpl. lia.
  - intros h. unfold generateDeleteMinSteps_within, generateDeleteMinSteps.
    case_decide; [done|]. case_decide; [done|].
    rewrite while_bubbleDown; [done|]. simpl.
    rewrite length_pop. fold (exchange h 0 (length h - 1)).
    rewrite length_exchange by lia. lia.
  - apply bubbleUp_body_decreases.
  - apply bubbleDown_body_increases.
Qed.

(** * Further properties of the code *)

(** ** The slots a generated step names *)

Lemma bubbleUp_in_range s :
  l_i s < length (l_arr s) → Forall step_in_range (l_steps s) →
  Forall step_in_range (l_steps (bubbleUp s)).
Proof.
  intros Hi Hs.
  apply (bubbleUp_rule
    (λ s, l_i s < length (l_arr s) ∧ Forall step_in_range (l_steps s))
    (λ s, Forall step_in_range (l_steps s))); [| |done].
  - intros s1 s2 [Hb HP] (Hpos & _ & ->)%bubbleUp_body_Continue. simpl.
    pose proof (parent_of_lt _ Hpos).
    assert (parent_of (l_i s1) < length (l_arr s1)) by lia.
    split; [by rewrite length_exchange|].
    rewrite !Forall_app, !Forall_singleton. split_and!; [done|done|].
    unfold step_in_range. simpl. by rewrite length_exchange.
  - intros s1 s2 [Hb HP] (_ & _ & [[_ ->]|(Hpos & _ & ->)])%bubbleUp_body_Break;
      [done|].
    pose proof (parent_of_lt _ Hpos).
    rewrite Forall_app, Forall_singleton. split; [done|].
    unfold step_in_range. simpl. lia.
Qed.

Lemma bubbleDown_in_range s :
  Forall step_in_range (l_steps s) → Forall step_in_range (l_steps (bubbleDown s)).
Proof.
  apply (bubbleDown_rule (λ s, Forall step_in_range (l_steps s))
                         (λ s, Forall step_in_range (l_steps s))).
  - intros s1 s2 HP (Hl & _ & ->)%bubbleDown_body_Continue. simpl.
    destruct (smaller_of_cases _ _ Hl) as [_ [? ?]].
    rewrite !Forall_app, !Forall_singleton. split_and!; [done| |].
    + unfold step_in_range. simpl. lia.
    + unfold step_in_range. simpl. rewrite length_exchange by lia. lia.
  - intros s1 s2 HP (_ & _ & [[_ ->]|(Hl & _ & ->)])%bubbleDown_body_Break;
      [done|].
    destruct (smaller_of_cases _ _ Hl) as [_ [? ?]].
    rewrite Forall_app, Forall_singleton. split; [done|].
    unfold step_in_range. simpl. lia.
Qed.

Lemma generateInsertSteps_in_range h v : Forall step_in_range (generateInsertSteps h v).
Proof.
  unfold generateInsertSteps. rewrite Forall_app, Forall_singleton.
  split; [|done].
  assert (length (h ++ [v]) - 1 < length (h ++ [v]))
    by (rewrite length_app; simpl; lia).
  apply bubbleUp_in_range; simpl; [done|]. by rewrite Forall_singleton.
Qed.

Lemma generateDeleteMinSteps_in_range h :
  Forall step_in_range (generateDeleteMinSteps h).
Proof.
  unfold generateDeleteMinSteps. case_decide; [done|].
  case_decide.
  { repeat constructor; unfold step_in_range; simpl; lia. }
  rewrite Forall_app, Forall_singleton.
  split; [|done]. apply bubbleDown_in_range. simpl.
  fold (exchange h 0 (length h - 1)).
  repeat constructor; unfold step_in_range; simpl;
    rewrite ?length_pop, ?length_exchange by lia; lia.
Qed.

(** ** Where a trace opens *)

Lemma drop_1_snoc (l : list step) x : l ≠ [] → drop 1 (l ++ [x]) = drop 1 l ++ [x].
Proof. by destruct l. Qed.

Lemma bubbleUp_inner s :
  l_steps s ≠ [] → Forall inner_step (drop 1 (l_steps s)) →
  l_steps (bubbleUp s) ≠ [] ∧ Forall inner_step (drop 1 (l_steps (bubbleUp s))).
Proof.
  intros Hne Hs.
  apply (bubbleUp_rule
    (λ s, l_steps s ≠ [] ∧ Forall inner_step (drop 1 (l_steps s)))
    (λ s, l_steps s ≠ [] ∧ Forall inner_step (drop 1 (l_steps s)))); [| |done].
  - intros s1 s2 [Hn HP] (_ & _ & ->)%bubbleUp_body_Continue. simpl.
    split; [by destruct (l_steps s1)|].
    rewrite !drop_1_snoc by (by destruct (l_steps s1)).
    by rewrite !Forall_app, !Forall_singleton.
  - intros s1 s2 [Hn HP] (_ & _ & [[_ ->]|(_ & _ & ->)])%bubbleUp_body_Break;
      [done|].
    split; [by destruct (l_steps s1)|].
    rewrite drop_1_snoc by done. by rewrite Forall_app, Forall_singleton.
Qed.

Lemma bubbleDown_inner s :
  l_steps s ≠ [] → Forall inner_step (drop 1 (l_steps s)) →
  l_steps (bubbleDown s) ≠ [] ∧ Forall inner_step (drop 1 (l_steps (bubbleDown s))).
Proof.
  intros Hne Hs.
  apply (bubbleDown_rule
    (λ s, l_steps s ≠ [] ∧ Forall inner_step (drop 1 (l_steps s)))
    (λ s, l_steps s ≠ [] ∧ Forall inner_step (drop 1 (l_steps s)))); [| |done].
  - intros s1 s2 [Hn HP] (_ & _ & ->)%bubbleDown_body_Continue. simpl.
    split; [by destruct (l_steps s1)|].
    rewrite !drop_1_snoc by (by destruct (l_steps s1)).
    by rewrite !Forall_app, !Forall_singleton.
  - intros s1 s2 [Hn HP] (_ & _ & [[_ ->]|(_ & _ & ->)])%bubbleDown_body_Break;
      [done|].
    split; [by destruct (l_steps s1)|].
    rewrite drop_1_snoc by done. by rewrite Forall_app, Forall_singleton.
Qed.

Lemma generateInsertSteps_inner h v :
  Forall inner_step (drop 1 (generateInsertSteps h v)).
Proof.
  unfold generateInsertSteps.
  edestruct bubbleUp_inner as [Hne Hin]; [| |rewrite drop_1_snoc by exact Hne].
  - simpl. done.
  - simpl. constructor.
  - by rewrite Forall_app, Forall_singleton.
Qed.

Lemma generateDeleteMinSteps_inner h :
  Forall inner_step (drop 1 (generateDeleteMinSteps h)).
Proof.
  unfold generateDeleteMinSteps. case_decide; [constructor|].
  case_decide; [by repeat constructor|].
  edestruct bubbleDown_inner as [Hne Hin]; [| |rewrite drop_1_snoc by exact Hne].
  - simpl. done.
  - simpl. by repeat constructor.
  - by rewrite Forall_app, Forall_singleton.
Qed.

(** ** The snapshots of a trace *)

Lemma bubbleUp_snapshots (Φ : list jsval → Prop) s :
  (∀ a b, a ≡ₚ b → Φ a → Φ b) →
  l_i s < length (l_arr s) → Φ (l_arr s) → Forall (λ st, Φ (arr st)) (l_steps s) →
  Φ (l_arr (bubbleUp s)) ∧ Forall (λ st, Φ (arr st)) (l_steps (bubbleUp s)).
Proof.
  intros HΦ Hi Ha Hs.
  apply (bubbleUp_rule
    (λ s, l_i s < length (l_arr s) ∧ Φ (l_arr s)
          ∧ Forall (λ st, Φ (arr st)) (l_steps s))
    (λ s, Φ (l_arr s) ∧ Forall (λ st, Φ (arr st)) (l_steps s))); [| |done].
  - intros s1 s2 (Hb & H1 & H2) (Hpos & _ & ->)%bubbleUp_body_Continue. simpl.
    pose proof (parent_of_lt _ Hpos).
    assert (Φ (exchange (l_arr s1) (l_i s1) (parent_of (l_i s1)))) as H3.
    { eapply HΦ; [|exact H1]. symmetry. apply exchange_perm; lia. }
    split_and!; [rewrite length_exchange; lia|done|].
    by rewrite !Forall_app, !Forall_singleton.
  - intros s1 s2 (Hb & H1 & H2) (-> & _ & [[_ ->]|(_ & _ & ->)])%bubbleUp_body_Break;
      [done|].
    split; [done|]. by rewrite Forall_app, Forall_singleton.
Qed.

Lemma bubbleDown_snapshots (Φ : list jsval → Prop) s :
  (∀ a b, a ≡ₚ b → Φ a → Φ b) →
  Φ (l_arr s) → Forall (λ st, Φ (arr st)) (l_steps s) →
  Φ (l_arr (bubbleDown s)) ∧ Forall (λ st, Φ (arr st)) (l_steps (bubbleDown s)).
Proof.
  intros HΦ Ha Hs.
  apply (bubbleDown_rule
    (λ s, Φ (l_arr s) ∧ Forall (λ st, Φ (arr st)) (l_steps s))
    (λ s, Φ (l_arr s) ∧ Forall (λ st, Φ (arr st)) (l_steps s))); [| |done].
  - intros s1 s2 (H1 & H2) (Hl & _ & ->)%bubbleDown_body_Continue. simpl.
    destruct (smaller_of_cases _ _ Hl) as [_ [? ?]].
    assert (Φ (exchange (l_arr s1) (l_i s1) (smaller_of (l_arr s1) (l_i s1)))) as H3.
    { eapply HΦ; [|exact H1]. symmetry. apply exchange_perm; lia. }
    split; [done|]. by rewrite !Forall_app, !Forall_singleton.
  - intros s1 s2 (H1 & H2) (-> & _ & [[_ ->]|(_ & _ & ->)])%bubbleDown_body_Break;
      [done|].
    split; [done|]. by rewrite Forall_app, Forall_singleton.
Qed.

Lemma generateInsertSteps_snapshots h v :
  Forall (λ s, arr s ≡ₚ h ++ [v]) (generateInsertSteps h v).
Proof.
  unfold generateInsertSteps.
  edestruct (bubbleUp_snapshots (λ a, a ≡ₚ h ++ [v])) as [H1 H2];
    [| | | |rewrite Forall_app, Forall_singleton; split; [exact H2|exact H1]].
  - intros a b Hab Ha. by rewrite <-Hab.
  - simpl. rewrite length_app. simpl. lia.
  - done.
  - simpl. by rewrite Forall_singleton.
Qed.

Lemma generateDeleteMinSteps_snapshots h :
  Forall (λ s, arr s ≡ₚ h ∨ h ≡ₚ aget h 0 :: arr s) (generateDeleteMinSteps h).
Proof.
  unfold generateDeleteMinSteps. case_decide as Hlen; [constructor|].
  case_decide as Hone.
  { destruct h as [|x [|y h]]; simpl in *; try lia.
    apply Forall_cons; split; [by left|].
    apply Forall_cons; split; [by right|]. constructor. }
  assert (0 < length h) as H0 by lia.
  assert (length h - 1 < length h) as Hl by lia.
  fold (exchange h 0 (length h - 1)).
  assert (h ≡ₚ aget h 0 :: pop (exchange h 0 (length h - 1))) as Hpop.
  { rewrite <-(exchange_perm h 0 (length h - 1)) at 1 by done.
    rewrite (pop_snoc (exchange h 0 (length h - 1))) at 1.
    - rewrite length_exchange, aget_exchange_r by done.
      by rewrite Permutation_app_comm.
    - intros E. apply (f_equal length) in E.
      rewrite length_exchange in E by done. simpl in E. lia. }
  edestruct (bubbleDown_snapshots (λ a, a ≡ₚ h ∨ h ≡ₚ aget h 0 :: a)) as [H1 H2];
    [| | |rewrite Forall_app, Forall_singleton; split; [exact H2|exact H1]].
  - intros a b Hab [Ha|Ha]; [left|right]; by rewrite <-Hab.
  - simpl. by right.
  - simpl. apply Forall_cons; split; [by left|].
    apply Forall_cons; split; [left; by apply exchange_perm|].
    apply Forall_cons; split; [by right|]. constructor.
Qed.

(** ** The root of a heap is a least element *)

Lemma min_heap_root h i :
  min_heap h → 0 < i < length h → js_ge (aget h i) (aget h 0) = true.
Proof.
  intros Hh. induction i as [i IH] using lt_wf_ind. intros Hi.
  pose proof (parent_of_lt i ltac:(lia)) as Hp.
  pose proof (Hh i Hi) as Hge.
  destruct (decide (parent_of i = 0)) as [E|E]; [by rewrite E in Hge|].
  eapply js_ge_trans; [exact Hge|]. apply IH; lia.
Qed.

Lemma min_heap_root_least h x :
  min_heap h → numbers h → x ∈ h → js_ge x (aget h 0) = true.
Proof.
  intros Hh Hn [i Hi]%list_elem_of_lookup.
  pose proof (lookup_lt_Some _ _ _ Hi) as Hlt.
  rewrite <-(aget_lookup _ _ _ Hi).
  destruct (decide (i = 0)) as [->|].
  - apply js_ge_refl. by apply aget_number.
  - apply min_heap_root; [done|lia].
Qed.

(** ** The length of a trace *)

Lemma log2_parent i : 0 < i → Nat.log2 (i + 1) = S (Nat.log2 (parent_of i + 1)).
Proof.
  intros Hi. unfold parent_of.
  pose proof (Nat.div_mod_eq (i - 1) 2) as E.
  pose proof (Nat.mod_upper_bound (i - 1) 2 ltac:(lia)) as Hr.
  set (q := (i - 1) / 2) in *.
  destruct (decide ((i - 1) mod 2 = 0)) as [E0|E0].
  - replace (i + 1) with (2 * (q + 1)) by lia. apply Nat.log2_double. lia.
  - replace (i + 1) with (2 * (q + 1) + 1) by lia. apply Nat.log2_succ_double. lia.
Qed.

Lemma log2_child i c :
  c = 2 * i + 1 ∨ c = 2 * i + 2 → Nat.log2 (c + 1) = S (Nat.log2 (i + 1)).
Proof.
  intros [->| ->].
  - replace (2 * i + 1 + 1) with (2 * (i + 1)) by lia. apply Nat.log2_double. lia.
  - replace (2 * i + 2 + 1) with (2 * (i + 1) + 1) by lia.
    apply Nat.log2_succ_double. lia.
Qed.

Lemma bubbleUp_length s :
  length (l_steps (bubbleUp s)) ≤ length (l_steps s) + 2 * Nat.log2 (l_i s + 1).
Proof.
  apply (bubbleUp_rule
    (λ s', length (l_steps s') + 2 * Nat.log2 (l_i s' + 1)
           ≤ length (l_steps s) + 2 * Nat.log2 (l_i s + 1))
    (λ s', length (l_steps s') ≤ length (l_steps s) + 2 * Nat.log2 (l_i s + 1)));
    [| |done].
  - intros s1 s2 HP (Hpos & _ & ->)%bubbleUp_body_Continue. simpl.
    rewrite !length_app. simpl. rewrite (log2_parent _ Hpos) in HP. lia.
  - intros s1 s2 HP (_ & _ & [[_ ->]|(Hpos & _ & ->)])%bubbleUp_body_Break; [lia|].
    rewrite length_app. simpl. rewrite (log2_parent _ Hpos) in HP. lia.
Qed.

Lemma bubbleDown_length s :
  l_i s < length (l_arr s) →
  length (l_steps (bubbleDown s)) + 2 * Nat.log2 (l_i s + 1)
  ≤ length (l_steps s) + 2 * Nat.log2 (length (l_arr s)).
Proof.
  intros Hi.
  apply (bubbleDown_rule
    (λ s', l_i s' < length (l_arr s') ∧ length (l_arr s') = length (l_arr s)
           ∧ length (l_steps s') + 2 * Nat.log2 (l_i s + 1)
             ≤ length (l_steps s) + 2 * Nat.log2 (l_i s' + 1))
    (λ s', length (l_steps s') + 2 * Nat.log2 (l_i s + 1)
           ≤ length (l_steps s) + 2 * Nat.log2 (length (l_arr s))));
    [| |split_and!; [done|done|lia]].
  - intros s1 s2 (Hb & Hlen & HP) E.
    pose proof (bubbleDown_body_increases _ _ E) as (? & ? & ?).
    apply bubbleDown_body_Continue in E as (Hl & _ & ->). simpl in *.
    destruct (smaller_of_cases _ _ Hl) as [Hc _].
    rewrite !length_app. simpl. rewrite (log2_child _ _ Hc).
    split_and!; [lia|lia|lia].
  - intros s1 s2 (Hb & Hlen & HP)
      (_ & _ & [[_ ->]|(Hl & _ & ->)])%bubbleDown_body_Break.
    + assert (Nat.log2 (l_i s1 + 1) ≤ Nat.log2 (length (l_arr s)))
        by (apply Nat.log2_le_mono; lia).
      lia.
    + rewrite length_app. simpl.
      assert (S (Nat.log2 (l_i s1 + 1)) ≤ Nat.log2 (length (l_arr s))).
      { rewrite <-(log2_child (l_i s1) (2 * l_i s1 + 1)) by (by left).
        apply Nat.log2_le_mono. lia. }
      lia.
Qed.

(** ** Playing a trace, in the controller with Play / Pause / Next *)

Module EnginePlay.
Import Engine EngineFacts.

#[local] Arguments applyStep : simpl never.

(** Applying a step sets the heap, the highlight and the pseudo-text, and
    nothing else. *)
Lemma applyStep_sets s st :
  applyStep (Some s) st
  = setPseudo (pseudo (applyStep (Some s) st))
      (setHighlight (highlight (applyStep (Some s) st)) (setHeap (arr s) st)).
Proof. unfold applyStep. destruct st. by repeat case_decide. Qed.

Lemma runStep_pending st s :
  stepsRef st !! stepIndexRef st = Some s →
  runStep st = set_stepIndexRef (stepIndexRef st + 1) (applyStep (Some s) st).
Proof.
  intros Hs. unfold runStep. pose proof (lookup_lt_Some _ _ _ Hs).
  rewrite decide_False by lia. by rewrite Hs.
Qed.

Lemma runStep_shows tr n st :
  stepsRef st = tr → stepIndexRef st = S n → S n < length tr →
  engine_shows tr (S n) (runStep st)
  ∧ timerRef (runStep st) = timerRef st ∧ timers (runStep st) = timers st
  ∧ running (runStep st) = running st.
Proof.
  intros Htr Hn Hlt. destruct (lookup_lt_is_Some_2 tr (S n) Hlt) as [s Hs].
  rewrite (runStep_pending st s) by (by rewrite Htr, Hn).
  rewrite applyStep_sets. split_and!; try done.
  split_and!; simpl; [done|lia|].
  exists s. split_and!; [done|done|..];
    by destruct (EngineLoad.applyStep_shows s st
      (set_stepIndexRef (stepIndexRef st + 1)
         (setPseudo (pseudo (applyStep (Some s) st))
            (setHighlight (highlight (applyStep (Some s) st))
               (setHeap (arr s) st))))).
Qed.
Lemma startSteps_shows s0 rest st :
  let st' := startSteps (s0 :: rest) st in
  engine_shows (s0 :: rest) 0 st'
  ∧ timerRef st' = None ∧ running st' = false
  ∧ speedMs st' = speedMs st ∧ speedLevel st' = speedLevel st
  ∧ value st' = value st
  ∧ fresh (timers st') = fresh (timers st)
  ∧ (timers_inv st → live (timers st') = []).
Proof.
  unfold startSteps. simpl.
  set (st1 := if timerRef st is Some _ then set_timerRef None (clearTimer st) else st).
  assert (timerRef st1 = None ∧ speedMs st1 = speedMs st
          ∧ speedLevel st1 = speedLevel st ∧ value st1 = value st
          ∧ fresh (timers st1) = fresh (timers st)
          ∧ (timers_inv st → live (timers st1) = [])) as (H1 & H2 & H3 & H4 & H5 & H6).
  { subst st1. destruct (timerRef st) eqn:E; simpl; split_and!; try done.
    - unfold clearInterval. by rewrite E.
    - apply live_clearTimer.
    - unfold timers_inv. by rewrite E. }
  clearbody st1. rewrite applyStep_sets. simpl.
  split_and!; try done.
  split_and!; [done|done|]. exists s0. split_and!; [done|done|..];
    by destruct (EngineLoad.applyStep_shows s0
      (setHeap (arr s0) (set_stepsRef (s0 :: rest) st1))
      (setRunning false
         (setHighlight
            (highlight (applyStep (Some s0)
               (setHeap (arr s0) (set_stepsRef (s0 :: rest) st1))))
            (set_stepIndexRef 1
               (setPseudo
                  (pseudo (applyStep (Some s0)
                     (setHeap (arr s0) (set_stepsRef (s0 :: rest) st1))))
                  (setHighlight
                     (highlight (applyStep (Some s0)
                        (setHeap (arr s0) (set_stepsRef (s0 :: rest) st1))))
                     (setHeap (arr s0)
                        (setHeap (arr s0) (set_stepsRef (s0 :: rest) st1))))))))).
Qed.

(** Running [m] pending steps from a state that shows step [k]. *)
Lemma runStep_iter tr k m st :
  engine_shows tr k st → k + m < length tr →
  let st' := Nat.iter m runStep st in
  engine_shows tr (k + m) st'
  ∧ timerRef st' = timerRef st ∧ timers st' = timers st
  ∧ running st' = running st.
Proof.
  intros Hsh. induction m as [|m IH]; intros Hlt; simpl.
  { by rewrite Nat.add_0_r. }
  destruct IH as ((Htr & Hk & _) & Ht & Hl & Hr); [lia|].
  destruct (runStep_shows tr (k + m) (Nat.iter m runStep st)) as (H1 & H2 & H3 & H4);
    [done|done|lia|].
  replace (k + S m) with (S (k + m)) by lia.
  split_and!; [done|congruence..].
Qed.

Lemma handleNext_paused st : running st = false → handleNext st = runStep st.
Proof. unfold handleNext. by intros ->. Qed.

Lemma handleNext_iter tr k m st :
  engine_shows tr k st → running st = false → k + m < length tr →
  Nat.iter m handleNext st = Nat.iter m runStep st.
Proof.
  intros Hsh Hr. induction m as [|m IH]; intros Hlt; simpl; [done|].
  rewrite IH by lia. apply handleNext_paused.
  destruct (runStep_iter tr k m st Hsh) as (_ & _ & _ & ->); [lia|done].
Qed.

Lemma tick_iter Number id tr k m st :
  engine_shows tr k st → is_live id (timers st) = true → k + m < length tr →
  Nat.iter m (handle Number (Tick id)) st = Nat.iter m runStep st.
Proof.
  intros Hsh Hlive. induction m as [|m IH]; intros Hlt; simpl; [done|].
  rewrite IH by lia.
  destruct (runStep_iter tr k m st Hsh) as (_ & _ & -> & _); [lia|].
  by rewrite Hlive.
Qed.

Lemma handlePlay_paused st :
  running st = false → timerRef st = None →
  stepIndexRef st < length (stepsRef st) →
  handlePlay st = startTimer (speedMs st) (setRunning true st).
Proof.
  intros Hr Ht Hlt. unfold handlePlay. rewrite Hr.
  rewrite decide_False by lia. simpl. by rewrite Ht.
Qed.

Lemma runStep_finished st :
  length (stepsRef st) ≤ stepIndexRef st →
  runStep st
  = setHighlight hl_empty
      (setRunning false
         (if timerRef st is Some _ then set_timerRef None (clearTimer st) else st)).
Proof. intros Hle. unfold runStep. by rewrite decide_True. Qed.

End EnginePlay.

(** ** What the reachable states keep, in the controller with Play / Pause / Next *)

Module EngineInv.
Import Engine EngineFacts EnginePlay.

#[local] Arguments applyStep : simpl never.

Lemma engine_inv_frame st st' :
  stepIndexRef st' = stepIndexRef st → stepsRef st' = stepsRef st →
  running st' = running st → timerRef st' = timerRef st →
  speedMs st' = speedMs st → speedLevel st' = speedLevel st →
  engine_inv st → engine_inv st'.
Proof.
  intros E1 E2 E3 E4 E5 E6 [? ? ?].
  split; [by rewrite E1, E2|by rewrite E3, E4|by rewrite E5, E6].
Qed.

Lemma engine_inv_stop st :
  engine_inv st →
  engine_inv (setRunning false
    (if timerRef st is Some _ then set_timerRef None (clearTimer st) else st)).
Proof.
  intros [Hc Hr Hs]. destruct (timerRef st) eqn:E; split; simpl; try done.
  by rewrite E.
Qed.

Lemma engine_inv_startSteps steps st : engine_inv st → engine_inv (startSteps steps st).
Proof.
  intros Hinv. destruct steps as [|s0 rest]; [done|].
  destruct (startSteps_shows s0 rest st)
    as ((E1 & E2 & _) & E3 & E4 & E5 & E6 & _).
  destruct Hinv as [_ _ Hs].
  split; [rewrite E1, E2; simpl; lia|by rewrite E3, E4|by rewrite E5, E6].
Qed.

Lemma engine_inv_runStep st : engine_inv st → engine_inv (runStep st).
Proof.
  intros Hinv. destruct (decide (length (stepsRef st) ≤ stepIndexRef st)) as [Hle|Hgt].
  - rewrite runStep_finished by done. apply engine_inv_stop in Hinv.
    eapply engine_inv_frame; [..|exact Hinv]; done.
  - destruct (lookup_lt_is_Some_2 (stepsRef st) (stepIndexRef st)) as [s Hs]; [lia|].
    rewrite (runStep_pending st s Hs), applyStep_sets.
    destruct Hinv as [Hc Hr Hsp]. split; simpl; [lia|done..].
Qed.

Lemma engine_inv_restart ms st :
  stepIndexRef st ≤ length (stepsRef st) →
  speedMs st = speedOfLevel (speedLevel st) → running st = true →
  engine_inv (startTimer ms (if timerRef st is Some _ then clearTimer st else st)).
Proof.
  intros Hc Hs Hrun. unfold startTimer.
  destruct (timerRef st); split; simpl; done.
Qed.

Lemma engine_inv_handlePlay st : engine_inv st → engine_inv (handlePlay st).
Proof.
  intros Hinv. unfold handlePlay. destruct (running st) eqn:E; [done|].
  case_decide; [done|]. destruct Hinv as [Hc Hr Hs].
  by apply (engine_inv_restart (speedMs st) (setRunning true st)).
Qed.

Lemma engine_inv_handlePause st : engine_inv st → engine_inv (handlePause st).
Proof. apply engine_inv_stop. Qed.

Lemma engine_inv_handleNext st : engine_inv st → engine_inv (handleNext st).
Proof.
  intros Hinv. unfold handleNext. apply engine_inv_runStep.
  destruct (running st && _) eqn:E; [|done].
  destruct Hinv as [Hc Hr Hs]. split; simpl; done.
Qed.

Lemma engine_inv_handleSpeed level st : engine_inv st → engine_inv (handleSpeed level st).
Proof.
  intros [Hc Hr Hs]. unfold handleSpeed, speedLevelEffect. case_decide; [done|].
  simpl. case_decide as E.
  { split; simpl; done. }
  unfold speedMsEffect. simpl. destruct (running st) eqn:Hrun; simpl.
  - by apply (engine_inv_restart _
      (setSpeedMs (speedOfLevel level) (setSpeedLevel level st))).
  - split; simpl; [done|by rewrite Hrun|done].
Qed.

Lemma engine_inv_handle Number e st : engine_inv st → engine_inv (handle Number e st).
Proof.
  intros Hinv. destruct e; simpl.
  - destruct Hinv. split; done.
  - unfold handleInsert. destruct (isNaN _); [done|].
    by apply engine_inv_startSteps.
  - by apply engine_inv_startSteps.
  - by apply engine_inv_startSteps.
  - by apply engine_inv_handlePlay.
  - by apply engine_inv_handlePause.
  - by apply engine_inv_handleNext.
  - by apply engine_inv_handleSpeed.
  - destruct (is_live _ _); [|done]. by apply engine_inv_runStep.
Qed.

Lemma engine_inv_init : engine_inv init.
Proof. split; by vm_compute. Qed.

Lemma reachable_engine_inv Number st : reachable Number st → engine_inv st.
Proof.
  induction 1 as [|e st _ IH]; [apply engine_inv_init|].
  by apply engine_inv_handle.
Qed.
End EngineInv.

(** ** What the reachable states of [src/HeapVisualizer.jsx] keep *)

Module AutoPlayInv.
Import AutoPlay.

Lemma is_live_setInterval ms b : is_live (fresh b) (setInterval ms b).2 = true.
Proof. unfold is_live. simpl. apply bool_decide_eq_true. left. Qed.

Lemma autoplay_inv_startTimer ms st :
  AutoPlay.stepIndexRef st ≤ length (AutoPlay.stepsRef st) →
  (stepsRef st ≠ [] → 1 ≤ stepIndexRef st) →
  Forall inner_step (drop 1 (stepsRef st)) →
  running st = true →
  hl_type (highlight st) ≠ Some "push" ∧ hl_type (highlight st) ≠ Some "removeRoot" →
  autoplay_inv (startTimer ms st).
Proof.
  intros H1 H2 H3 H4 H5. unfold startTimer. split; simpl; try done.
  intros id [= <-]. apply (is_live_setInterval ms (timers st)).
Qed.

Lemma autoplay_inv_startSteps steps st :
  Forall inner_step (drop 1 steps) →
  autoplay_inv st → autoplay_inv (startSteps steps st).
Proof.
  intros Hin Hinv. unfold startSteps. case_decide as Hlen; [done|].
  destruct steps as [|s0 rest]; [done|]. simpl.
  apply autoplay_inv_startTimer; simpl; try done. lia.
Qed.

Lemma autoplay_inv_stopped st :
  autoplay_inv st →
  autoplay_inv (setRunning false (set_timerRef None (clearTimer st))).
Proof. intros [H1 H2 H3 H4 H5 H6]. split; simpl; done. Qed.

Lemma runStep_highlight_type s st :
  let st' :=
    if decide (type s = "compare") then
      setHighlight
        (hl "compare"
            [get_i (info s); nullish (get_parent (info s)) (get_smaller (info s))]) st
    else if decide (type s = "swap") then
      setHighlight
        (hl "swap" [get_i (info s); nullish (get_j (info s)) (get_parent (info s))]) st
    else if decide (type s = "push") then
      setHighlight (hl "push" [get_index (info s)]) st
    else if decide (type s = "pop") then
      setHighlight (hl "pop" [get_removedIndex (info s)]) st
    else if decide (type s = "removeRoot") then
      setHighlight (hl "removeRoot" [get_root (info s); get_last (info s)]) st
    else if decide (type s = "done") then
      setHighlight (hl "done" []) st
    else setHighlight hl_empty st in
  (hl_type (highlight st') = Some (type s) ∨ hl_type (highlight st') = None)
  ∧ stepsRef st' = stepsRef st ∧ stepIndexRef st' = stepIndexRef st
  ∧ running st' = running st ∧ timerRef st' = timerRef st
  ∧ timers st' = timers st ∧ heap st' = heap st ∧ speed st' = speed st.
Proof.
  simpl. repeat case_decide; simpl; split_and!; try done;
    first [left; congruence|by right].
Qed.

Lemma autoplay_inv_runStep st : autoplay_inv st → autoplay_inv (runStep st).
Proof.
  intros Hinv. unfold runStep. case_decide as Hle.
  { apply autoplay_inv_stopped in Hinv.
    destruct Hinv as [H1 H2 H3 H4 H5 H6]. split; simpl in *; done. }
  destruct (lookup_lt_is_Some_2 (stepsRef st) (stepIndexRef st)) as [s Hs]; [lia|].
  rewrite Hs.
  destruct Hinv as [H1 H2 H3 H4 H5 H6].
  assert (1 ≤ stepIndexRef st) as Hidx.
  { apply H2. intros E. rewrite E in Hle. simpl in Hle. lia. }
  assert (inner_step s) as [Hs1 Hs2].
  { eapply (Forall_lookup_1 _ _ (stepIndexRef st - 1) s H3).
    rewrite lookup_drop. by replace (1 + (stepIndexRef st - 1)) with (stepIndexRef st) by lia. }
  destruct (runStep_highlight_type s (setHeap (arr s) st))
    as (Hty & E1 & E2 & E3 & E4 & E5 & _).
  cbv zeta in Hty, E1, E2, E3, E4, E5.
  split; simpl; rewrite ?E1, ?E2, ?E3, ?E4, ?E5; simpl; try done.
  - lia.
  - intros _. lia.
  - destruct Hty as [-> | ->]; split; congruence.
Qed.

Lemma autoplay_inv_toggleRunning st : autoplay_inv st → autoplay_inv (toggleRunning st).
Proof.
  intros Hinv. unfold toggleRunning. destruct (running st) eqn:Hr; simpl.
  - by apply autoplay_inv_stopped.
  - case_decide; [|done]. destruct Hinv as [H1 H2 H3 H4 H5 H6].
    unfold startTimer. split; simpl; try done.
    intros id [= <-]. apply (is_live_setInterval (speed st) (timers st)).
Qed.

Lemma autoplay_inv_handleSpeed ms st : autoplay_inv st → autoplay_inv (handleSpeed ms st).
Proof.
  intros [H1 H2 H3 H4 H5 H6]. unfold handleSpeed. case_decide; [done|].
  unfold speedEffect. simpl. destruct (running st) eqn:Hr.
  - apply autoplay_inv_startTimer; simpl; done.
  - split; simpl; try done. by rewrite Hr.
Qed.

Lemma autoplay_inv_handle Number e st :
  autoplay_inv st → autoplay_inv (handle Number e st).
Proof.
  intros Hinv. destruct e; simpl.
  - destruct Hinv. split; done.
  - apply autoplay_inv_startSteps; [apply generateInsertSteps_inner|done].
  - apply autoplay_inv_startSteps; [apply generateInsertSteps_inner|done].
  - apply autoplay_inv_startSteps; [apply generateDeleteMinSteps_inner|done].
  - by apply autoplay_inv_toggleRunning.
  - by apply autoplay_inv_handleSpeed.
  - destruct (is_live _ _); [|done]. by apply autoplay_inv_runStep.
Qed.

Lemma autoplay_inv_init : autoplay_inv init.
Proof. split; simpl; done. Qed.

Lemma reachable_autoplay_inv Number st : reachable Number st → autoplay_inv st.
Proof.
  induction 1 as [|e st _ IH]; [apply autoplay_inv_init|].
  by apply autoplay_inv_handle.
Qed.
End AutoPlayInv.

(** ** The highlight of a generated step *)

Lemma applyStep_highlight_generated s st :
  step_shaped s → step_in_range s →
  ∃ idxs,
    Engine.highlight (Engine.applyStep (Some s) st) = hl (type s) (Some <$> idxs)
    ∧ Forall (λ i, i ≤ length (arr s)) idxs
    ∧ (type s ≠ "pop" → Forall (λ i, i < length (arr s)) idxs)
    ∧ (type s = "pop" → idxs = [length (arr s)])
    ∧ (type s = "done" → idxs = []).
Proof.
  destruct s as [ty a f]. unfold step_shaped, step_in_range. simpl.
  destruct f as [n|i p|i c|i j|n|r l|]; simpl.
  - intros -> Hn. exists [n]. unfold Engine.applyStep. simpl.
    split_and!; try done; repeat constructor; lia.
  - intros [-> | ->] [? ?]; exists [i; p]; unfold Engine.applyStep; simpl;
      (split_and!; try done; repeat constructor; lia).
  - intros -> [? ?]. exists [i; c]. unfold Engine.applyStep. simpl.
    split_and!; try done; repeat constructor; lia.
  - intros -> [? ?]. exists [i; j]. unfold Engine.applyStep. simpl.
    split_and!; try done; repeat constructor; lia.
  - intros -> ->. exists [length a]. unfold Engine.applyStep. simpl.
    split_and!; try done. repeat constructor.
  - intros -> [? ?]. exists [r; l]. unfold Engine.applyStep. simpl.
    split_and!; try done; repeat constructor; lia.
  - intros -> _. exists []. unfold Engine.applyStep. simpl.
    split_and!; try done; constructor.
Qed.

Lemma includes_fmap_Some idxs i : includes (Some <$> idxs) i = bool_decide (i ∈ idxs).
Proof.
  unfold includes. apply bool_decide_ext. rewrite list_elem_of_fmap. split.
  - by intros (j & [= <-] & Hj).
  - intros Hi. by exists i.
Qed.

Lemma generated_steps h v s :
  s ∈ generateInsertSteps h v ∨ s ∈ generateDeleteMinSteps h →
  step_shaped s ∧ step_in_range s.
Proof.
  intros [Hs|Hs].
  - split.
    + by eapply (proj1 (Forall_forall _ _) (generateInsertSteps_shaped h v)).
    + by eapply (proj1 (Forall_forall _ _) (generateInsertSteps_in_range h v)).
  - split.
    + by eapply (proj1 (Forall_forall _ _) (generateDeleteMinSteps_shaped h)).
    + by eapply (proj1 (Forall_forall _ _) (generateDeleteMinSteps_in_range h)).
Qed.

Lemma deleteMin_final_perm h :
  h ≠ [] → h ≡ₚ aget h 0 :: finalSnapshot h (generateDeleteMinSteps h).
Proof.
  intros Hne. destruct h as [|v [|w rest]]; [done| |].
  { by rewrite generateDeleteMinSteps_single. }
  set (h := v :: w :: rest) in *.
  assert (2 ≤ length h) as Hlen by (simpl; lia).
  assert (0 < length h) as H0 by lia.
  assert (length h - 1 < length h) as Hl by lia.
  rewrite generateDeleteMinSteps_final by done.
  rewrite bubbleDown_perm. simpl.
  rewrite <-(exchange_perm h 0 (length h - 1)) at 1 by done.
  rewrite (pop_snoc (exchange h 0 (length h - 1))) at 1.
  - rewrite length_exchange, aget_exchange_r by done.
    by rewrite Permutation_app_comm.
  - intros E. apply (f_equal length) in E.
    rewrite length_exchange in E by done. simpl in E. lia.
Qed.

(** X1. Every step of an insert trace carries a permutation of the input
    array with the inserted value appended: no step loses or duplicates an
    element. *)
Theorem insert_snapshots_permute (startHeap : list jsval) (insertedValue : jsval) :
  ∀ s, s ∈ generateInsertSteps startHeap insertedValue →
    arr s ≡ₚ startHeap ++ [insertedValue].
Proof. apply Forall_forall, generateInsertSteps_snapshots. Qed.

Lemma insert_snapshots_permute_witness :
  let s := Step "swap" (nums [1; 2]%Z) (info_i_parent 1 0) in
  s ∈ generateInsertSteps (nums [2]%Z) (Num 1)
  ∧ arr s ≡ₚ nums [2]%Z ++ [Num 1].
Proof.
  assert (Step "swap" (nums [1; 2]%Z) (info_i_parent 1 0)
          ∈ generateInsertSteps (nums [2]%Z) (Num 1)) as H.
  { vm_compute. do 2 apply list_elem_of_further. apply list_elem_of_here. }
  cbv zeta. split; [exact H|].
  exact (insert_snapshots_permute (nums [2]%Z) (Num 1) _ H).
Defined.

(** X2. Every step of a delete-min trace, on any array, carries either a
    permutation of the input or the input with one occurrence of its first
    element taken out. *)
Theorem deleteMin_snapshots_permute (startHeap : list jsval) :
  ∀ s, s ∈ generateDeleteMinSteps startHeap →
    arr s ≡ₚ startHeap ∨ startHeap ≡ₚ aget startHeap 0 :: arr s.
Proof. apply Forall_forall, generateDeleteMinSteps_snapshots. Qed.

Lemma deleteMin_snapshots_permute_witness :
  let s := Step "pop" (nums [2; 3]%Z) (info_removedIndex 2) in
  s ∈ generateDeleteMinSteps (nums [1; 3; 2]%Z)
  ∧ (arr s ≡ₚ nums [1; 3; 2]%Z
     ∨ nums [1; 3; 2]%Z ≡ₚ aget (nums [1; 3; 2]%Z) 0 :: arr s).
Proof.
  assert (Step "pop" (nums [2; 3]%Z) (info_removedIndex 2)
          ∈ generateDeleteMinSteps (nums [1; 3; 2]%Z)) as H.
  { vm_compute. do 2 apply list_elem_of_further. apply list_elem_of_here. }
  cbv zeta. split; [exact H|].
  exact (deleteMin_snapshots_permute (nums [1; 3; 2]%Z) _ H).
Defined.

(** X3. On a non-empty min-heap, delete-min takes out a least element:
    every element of the final snapshot is [>=] the removed root. *)
Theorem deleteMin_removes_least (heap : list jsval) :
  heap ≠ [] → min_heap heap →
  ∀ x, x ∈ finalSnapshot heap (generateDeleteMinSteps heap) →
    js_ge x (aget heap 0) = true.
Proof.
  intros Hne Hh x Hx.
  pose proof (deleteMin_final_perm heap Hne) as Hp.
  destruct heap as [|v [|w rest]]; [done| |].
  { rewrite generateDeleteMinSteps_single in Hx. by apply elem_of_nil in Hx. }
  set (h := v :: w :: rest) in *.
  apply min_heap_root_least; [done|apply min_heap_numbers; [simpl; lia|done]|].
  rewrite Hp. by right.
Qed.

Lemma deleteMin_removes_least_witness :
  let heap := nums [0; 1; 2; 7; 3]%Z in
  (heap ≠ [] ∧ min_heapb heap = true)
  ∧ ∀ x, x ∈ finalSnapshot heap (generateDeleteMinSteps heap) →
      js_ge x (Num 0) = true.
Proof.
  split; [by vm_compute|].
  apply (deleteMin_removes_least (nums [0; 1; 2; 7; 3]%Z)).
  - discriminate.
  - apply min_heapb_spec. vm_compute. reflexivity.
Defined.

(** X4. After an insert into a min-heap of numbers, the root of the final
    snapshot is a least element: every element of the input and the
    inserted value are [>=] it. *)
Theorem insert_root_least (heap : list jsval) (v : jsval) :
  min_heap heap → numbers heap → is_number v = true →
  ∀ x, x ∈ heap ++ [v] →
    js_ge x (aget (finalSnapshot heap (generateInsertSteps heap v)) 0) = true.
Proof.
  intros Hh Hn Hv x Hx.
  destruct (insert_min_heap heap heap v Hh Hn Hv) as [Hh' Hn'].
  apply min_heap_root_least; [done..|].
  rewrite generateInsertSteps_final. rewrite bubbleUp_perm; [done|].
  simpl. rewrite length_app. simpl. lia.
Qed.

Lemma insert_root_least_witness :
  let heap := nums [1; 3; 2; 7]%Z in
  (min_heapb heap = true
   ∧ finalSnapshot heap (generateInsertSteps heap (Num 0)) = nums [0; 1; 2; 7; 3]%Z)
  ∧ ∀ x, x ∈ heap ++ [Num 0] → js_ge x (Num 0) = true.
Proof.
  split; [by vm_compute|].
  apply (insert_root_least (nums [1; 3; 2; 7]%Z) (Num 0)).
  - apply min_heapb_spec. vm_compute. reflexivity.
  - repeat constructor.
  - reflexivity.
Defined.

(** X5. An insert trace on an array of [n] elements has at most
    [2 * floor(log2(n + 1)) + 2] steps. *)
Theorem insert_trace_length (startHeap : list jsval) (insertedValue : jsval) :
  length (generateInsertSteps startHeap insertedValue)
  ≤ 2 * Nat.log2 (length startHeap + 1) + 2.
Proof.
  unfold generateInsertSteps. rewrite length_app. simpl.
  pose proof (bubbleUp_length
    (Loop (startHeap ++ [insertedValue]) (length (startHeap ++ [insertedValue]) - 1)
       [Step "push" (startHeap ++ [insertedValue])
          (info_index (length (startHeap ++ [insertedValue]) - 1))])) as H.
  simpl in H. rewrite length_app in H. simpl in H.
  replace (length startHeap + 1 - 1 + 1) with (length startHeap + 1) in H by lia.
  rewrite length_app. simpl. lia.
Qed.

(** X6. A delete-min trace on an array of [n] elements has at most
    [2 * floor(log2(n - 1)) + 4] steps. *)
Theorem deleteMin_trace_length (startHeap : list jsval) :
  length (generateDeleteMinSteps startHeap)
  ≤ 2 * Nat.log2 (length startHeap - 1) + 4.
Proof.
  unfold generateDeleteMinSteps. case_decide as Hz; [simpl; lia|].
  case_decide as Hone; [simpl; lia|].
  rewrite length_app. simpl.
  fold (exchange startHeap 0 (length startHeap - 1)).
  pose proof (bubbleDown_length
    (Loop (pop (exchange startHeap 0 (length startHeap - 1))) 0
       [Step "removeRoot" startHeap (info_root_last 0 (length startHeap - 1));
        Step "swap" (exchange startHeap 0 (length startHeap - 1))
          (info_i_j 0 (length startHeap - 1));
        Step "pop" (pop (exchange startHeap 0 (length startHeap - 1)))
          (info_removedIndex (length startHeap - 1))])) as H.
  simpl in H. rewrite length_pop, length_exchange in H by lia.
  specialize (H ltac:(lia)). lia.
Qed.

(** X7. Applying any step of a generated trace highlights with the type of
    the step and with slots that are all defined; the slots lie inside the
    snapshot shown, except for a pop step, which names the slot just past
    its end. *)
Theorem generated_highlight_in_range
    (h : list jsval) (v : jsval) (s : step) (st : Engine.state) :
  s ∈ generateInsertSteps h v ∨ s ∈ generateDeleteMinSteps h →
  ∃ idxs,
    Engine.highlight (Engine.applyStep (Some s) st) = hl (type s) (Some <$> idxs)
    ∧ (type s ≠ "pop" → Forall (λ i, i < length (arr s)) idxs)
    ∧ (type s = "pop" → idxs = [length (arr s)]).
Proof.
  intros [Hsh Hin]%generated_steps.
  destruct (applyStep_highlight_generated s st Hsh Hin) as (idxs & ? & _ & ? & ? & _).
  by exists idxs.
Qed.

Lemma generated_highlight_in_range_witness :
  let s := Step "pop" (nums [3; 1; 2]%Z) (info_removedIndex 3) in
  s ∈ generateDeleteMinSteps (nums [0; 1; 2; 3]%Z)
  ∧ ∃ idxs,
      Engine.highlight (Engine.applyStep (Some s) Engine.init)
      = hl (type s) (Some <$> idxs)
      ∧ (type s ≠ "pop" → Forall (λ i, i < length (arr s)) idxs)
      ∧ (type s = "pop" → idxs = [length (arr s)]).
Proof.
  assert (Step "pop" (nums [3; 1; 2]%Z) (info_removedIndex 3)
          ∈ generateDeleteMinSteps (nums [0; 1; 2; 3]%Z)) as Hs.
  { apply (bool_decide_unpack _). vm_compute. reflexivity. }
  split; [exact Hs|].
  apply (generated_highlight_in_range (nums [0; 1; 2; 3]%Z) (Num 0)).
  right. exact Hs.
Defined.

(** X8. For the highlight any step brings, a node gets a class from
    [nodeClass] exactly when it gets the inline style from [nodeStyle]. *)
Theorem nodeClass_iff_nodeStyle (s : step) (st : Engine.state) (i : nat) :
  let h := Engine.highlight (Engine.applyStep (Some s) st) in
  nodeClass h i ≠ "" ↔ nodeStyle h i ≠ None.
Proof.
  unfold Engine.applyStep. repeat case_decide; simpl;
    unfold nodeClass, nodeStyle; simpl;
    try (destruct (includes _ i)); simpl; split; congruence.
Qed.

(** X9. The highlight of a pop step and of a done step of a generated trace
    marks none of the nodes drawn: the heap shown is the snapshot of the
    step, and no slot of it gets a class or a style. *)
Theorem pop_and_done_mark_nothing
    (h : list jsval) (v : jsval) (s : step) (st : Engine.state) :
  s ∈ generateInsertSteps h v ∨ s ∈ generateDeleteMinSteps h →
  type s = "pop" ∨ type s = "done" →
  let st' := Engine.applyStep (Some s) st in
  Engine.heap st' = arr s
  ∧ ∀ i, i < length (Engine.heap st') →
      nodeClass (Engine.highlight st') i = ""
      ∧ nodeStyle (Engine.highlight st') i = None.
Proof.
  intros [Hsh Hin]%generated_steps Hty st'.
  assert (Engine.heap st' = arr s) as Hheap by apply EngineFacts.applyStep_heap.
  split; [done|]. intros i Hi. rewrite Hheap in Hi.
  destruct (applyStep_highlight_generated s st Hsh Hin)
    as (idxs & Hhl & _ & _ & Hpop & Hdone).
  subst st'. rewrite Hhl. unfold nodeClass, nodeStyle.
  rewrite includes_fmap_Some.
  destruct Hty as [Hty|Hty].
  - rewrite (Hpop Hty). rewrite bool_decide_eq_false_2; [done|].
    intros ->%list_elem_of_singleton. lia.
  - rewrite (Hdone Hty). rewrite bool_decide_eq_false_2; [done|].
    apply not_elem_of_nil.
Qed.

Lemma pop_and_done_mark_nothing_witness :
  let s := Step "pop" (nums [3; 1; 2]%Z) (info_removedIndex 3) in
  let st' := Engine.applyStep (Some s) Engine.init in
  (s ∈ generateDeleteMinSteps (nums [0; 1; 2; 3]%Z)
   ∧ Engine.highlight st' = hl "pop" [Some 3])
  ∧ Engine.heap st' = arr s
  ∧ ∀ i, i < length (Engine.heap st') →
      nodeClass (Engine.highlight st') i = ""
      ∧ nodeStyle (Engine.highlight st') i = None.
Proof.
  assert (Step "pop" (nums [3; 1; 2]%Z) (info_removedIndex 3)
          ∈ generateDeleteMinSteps (nums [0; 1; 2; 3]%Z)) as Hs.
  { apply (bool_decide_unpack _). vm_compute. reflexivity. }
  split; [split; [exact Hs|reflexivity]|].
  apply (pop_and_done_mark_nothing (nums [0; 1; 2; 3]%Z) (Num 0)).
  - right. exact Hs.
  - left. reflexivity.
Defined.

(** X10. The two components map a step to the same highlight and heap:
    what [runStep] of [src/HeapVisualizer.jsx] shows for the step under the
    cursor is what [applyStep] of the other component shows for it. *)
Theorem versions_agree_on_highlight
    (a : AutoPlay.state) (e : Engine.state) (s : step) :
  AutoPlay.stepsRef a !! AutoPlay.stepIndexRef a = Some s →
  AutoPlay.highlight (AutoPlay.runStep a)
  = Engine.highlight (Engine.applyStep (Some s) e)
  ∧ AutoPlay.heap (AutoPlay.runStep a) = Engine.heap (Engine.applyStep (Some s) e)
  ∧ AutoPlay.stepIndexRef (AutoPlay.runStep a) = AutoPlay.stepIndexRef a + 1.
Proof.
  intros Hs. pose proof (lookup_lt_Some _ _ _ Hs) as Hlt.
  unfold AutoPlay.runStep. rewrite decide_False by lia. rewrite Hs.
  unfold Engine.applyStep. by repeat case_decide.
Qed.

Lemma versions_agree_on_highlight_witness :
  let a := AutoPlay.handleRandomInsert 7 (AutoPlay.handleRandomInsert 3 AutoPlay.init) in
  AutoPlay.highlight (AutoPlay.runStep a) = hl "compare" [Some 1; Some 0]
  ∧ AutoPlay.highlight (AutoPlay.runStep a)
    = Engine.highlight
        (Engine.applyStep
           (Some (Step "compare" (nums [3; 7]%Z) (info_i_parent 1 0))) Engine.init)
  ∧ AutoPlay.heap (AutoPlay.runStep a)
    = Engine.heap
        (Engine.applyStep
           (Some (Step "compare" (nums [3; 7]%Z) (info_i_parent 1 0))) Engine.init)
  ∧ AutoPlay.stepIndexRef (AutoPlay.runStep a) = AutoPlay.stepIndexRef a + 1.
Proof.
  split; [reflexivity|].
  apply (versions_agree_on_highlight
    (AutoPlay.handleRandomInsert 7 (AutoPlay.handleRandomInsert 3 AutoPlay.init))
    Engine.init (Step "compare" (nums [3; 7]%Z) (info_i_parent 1 0))).
  reflexivity.
Defined.

(** ** Play, pause and speed, in the controller with Play / Pause / Next *)

Module EngineRun.
Import Engine EngineFacts EnginePlay.

#[local] Arguments applyStep : simpl never.

Lemma engine_shows_fields tr n s st ref :
  engine_shows tr n st → tr !! n = Some s →
  stepIndexRef st = S n ∧ heap st = arr s
  ∧ highlight st = highlight (applyStep (Some s) ref)
  ∧ pseudo st = pseudo (applyStep (Some s) ref).
Proof.
  intros (_ & Hk & s' & Hs' & H1 & H2 & H3) Hs.
  rewrite Hs in Hs'. injection Hs' as <-.
  destruct (EngineLoad.applyStep_shows s st ref) as [E1 E2].
  split_and!; [done|done|by rewrite <-E1|by rewrite <-E2].
Qed.

Lemma engine_shows_frame tr n st st' :
  stepsRef st' = stepsRef st → stepIndexRef st' = stepIndexRef st →
  heap st' = heap st → highlight st' = highlight st → pseudo st' = pseudo st →
  engine_shows tr n st → engine_shows tr n st'.
Proof.
  intros E1 E2 E3 E4 E5 (Htr & Hk & s & Hs & H1 & H2 & H3).
  split_and!; [by rewrite E1|by rewrite E2|].
  exists s. destruct (EngineLoad.applyStep_shows s st st') as [E6 E7].
  split_and!; [done|by rewrite E3|by rewrite E4, <-E6|by rewrite E5, <-E7].
Qed.

Lemma startTimer_eq ms st :
  startTimer ms st
  = set_timerRef (Some (fresh (timers st)))
      (set_timers (Browser ((fresh (timers st), ms) :: live (timers st))
                           (S (fresh (timers st)))) st).
Proof. done. Qed.

(** The state right after Play on a freshly loaded trace. *)
Lemma played_state tr st :
  timers_inv st → 2 ≤ length tr →
  let p := handlePlay (startSteps tr st) in
  engine_shows tr 0 p
  ∧ timerRef p = Some (fresh (timers st))
  ∧ live (timers p) = [(fresh (timers st), speedMs st)]
  ∧ running p = true.
Proof.
  intros Hinv Hlen. destruct tr as [|s0 rest]; [simpl in Hlen; lia|].
  destruct (startSteps_shows s0 rest st)
    as (Hsh & Ht & Hr & Hms & _ & _ & Hf & Hl).
  specialize (Hl Hinv). simpl.
  set (l := startSteps (s0 :: rest) st) in *. clearbody l.
  pose proof Hsh as (Htr & Hk & _).
  rewrite handlePlay_paused; [|done|done|rewrite Htr, Hk; simpl in *; lia].
  rewrite startTimer_eq. simpl. rewrite Hf, Hl, Hms.
  split_and!; try done.
  eapply engine_shows_frame; [..|exact Hsh]; done.
Qed.

Lemma is_live_head id ms l f : is_live id (Browser ((id, ms) :: l) f) = true.
Proof. unfold is_live. simpl. apply bool_decide_eq_true. left. Qed.

Lemma is_live_nil id f : is_live id (Browser [] f) = false.
Proof. done. Qed.

Lemma is_live_cases id b l :
  live b = l → is_live id b = bool_decide (id ∈ l.*1).
Proof. by intros <-. Qed.

End EngineRun.

(** X11. After a non-empty trace is loaded, [n] clicks on Next Step show
    step [n] of the trace: the steps are applied one at a time and in
    order, and the controller stays paused. *)
Theorem next_shows_step (st : Engine.state) (tr : list step) (n : nat) (s : step) :
  tr !! n = Some s →
  let st' := Nat.iter n Engine.handleNext (Engine.startSteps tr st) in
  Engine.stepIndexRef st' = S n
  ∧ Engine.heap st' = arr s
  ∧ Engine.highlight st' = Engine.highlight (Engine.applyStep (Some s) st)
  ∧ Engine.pseudo st' = Engine.pseudo (Engine.applyStep (Some s) st)
  ∧ Engine.running st' = false ∧ Engine.timerRef st' = None.
Proof.
  intros Hs st'. pose proof (lookup_lt_Some _ _ _ Hs) as Hlt.
  destruct tr as [|s0 rest]; [simpl in Hlt; lia|].
  destruct (EnginePlay.startSteps_shows s0 rest st) as (Hsh & Ht & Hr & _).
  subst st'. rewrite (EnginePlay.handleNext_iter (s0 :: rest) 0 n) by done.
  destruct (EnginePlay.runStep_iter (s0 :: rest) 0 n _ Hsh) as (Hn & E1 & _ & E2);
    [done|].
  destruct (EngineRun.engine_shows_fields _ _ s _ st Hn Hs) as (? & ? & ? & ?).
  split_and!; [done..|by rewrite E2|by rewrite E1].
Qed.

Lemma next_shows_step_witness :
  let tr := generateInsertSteps (nums [1; 3; 2; 7]%Z) (Num 0) in
  let st' := Nat.iter 4 Engine.handleNext (Engine.startSteps tr Engine.init) in
  tr !! 4 = Some (Step "swap" (nums [0; 1; 2; 7; 3]%Z) (info_i_parent 1 0))
  ∧ Engine.stepIndexRef st' = 5
  ∧ Engine.heap st' = nums [0; 1; 2; 7; 3]%Z
  ∧ Engine.highlight st' = hl "swap" [Some 1; Some 0]
  ∧ Engine.pseudo st' = "# swap" +:+ nl +:+ "swap(heap[1], heap[0])"
  ∧ Engine.running st' = false ∧ Engine.timerRef st' = None.
Proof.
  split; [by vm_compute|].
  apply (next_shows_step Engine.init
           (generateInsertSteps (nums [1; 3; 2; 7]%Z) (Num 0)) 4
           (Step "swap" (nums [0; 1; 2; 7; 3]%Z) (info_i_parent 1 0))).
  vm_compute. reflexivity.
Defined.

Module EnginePause.
Import Engine EngineFacts EnginePlay EngineRun.

#[local] Arguments applyStep : simpl never.

Lemma handlePause_paused q :
  timers_inv q →
  let pa := handlePause q in
  running pa = false ∧ timerRef pa = None ∧ live (timers pa) = []
  ∧ fresh (timers pa) = fresh (timers q) ∧ speedMs pa = speedMs q
  ∧ stepsRef pa = stepsRef q ∧ stepIndexRef pa = stepIndexRef q
  ∧ heap pa = heap q ∧ highlight pa = highlight q ∧ pseudo pa = pseudo q.
Proof.
  intros Hinv. pose proof (EngineLoad.timers_stopped q Hinv) as [H1 H2].
  unfold handlePause. simpl in *.
  destruct (timerRef q) eqn:E; simpl in *; split_and!; try done.
  unfold clearInterval. by rewrite E.
Qed.

Lemma play_from_paused tr k pa :
  engine_shows tr k pa → running pa = false → timerRef pa = None →
  live (timers pa) = [] → S k < length tr →
  let r := handlePlay pa in
  engine_shows tr k r
  ∧ timerRef r = Some (fresh (timers pa))
  ∧ live (timers r) = [(fresh (timers pa), speedMs pa)]
  ∧ running r = true.
Proof.
  intros Hsh Hr Ht Hl Hlt. pose proof Hsh as (Htr & Hk & _). simpl.
  rewrite handlePlay_paused; [|done|done|rewrite Htr, Hk; lia].
  rewrite startTimer_eq. simpl. rewrite Hl.
  split_and!; try done.
  eapply engine_shows_frame; [..|exact Hsh]; done.
Qed.

(** Ticks of the interval held, from a playing state that shows step [k]. *)
Lemma ticks_from Number id tr k m r :
  engine_shows tr k r → is_live id (timers r) = true → k + m < length tr →
  let st' := Nat.iter m (handle Number (Tick id)) r in
  engine_shows tr (k + m) st'
  ∧ timerRef st' = timerRef r ∧ timers st' = timers r ∧ running st' = running r.
Proof.
  intros Hsh Hlive Hlt. simpl. rewrite (tick_iter Number id tr k m) by done.
  by apply runStep_iter.
Qed.

End EnginePause.

(** X12. After a load, Play followed by [n] ticks of its interval shows
    what [n] clicks on Next Step show: the same cursor, heap, highlight and
    pseudo-text. *)
Theorem ticks_show_what_next_shows
    (Number : string → jsval) (st : Engine.state) (tr : list step) (n : nat) :
  Engine.timers_inv st → n < length tr →
  let loaded := Engine.startSteps tr st in
  let tick := Engine.handle Number (Engine.Tick (fresh (Engine.timers st))) in
  let played := Nat.iter n tick (Engine.handlePlay loaded) in
  let stepped := Nat.iter n Engine.handleNext loaded in
  Engine.stepIndexRef played = Engine.stepIndexRef stepped
  ∧ Engine.heap played = Engine.heap stepped
  ∧ Engine.highlight played = Engine.highlight stepped
  ∧ Engine.pseudo played = Engine.pseudo stepped.
Proof.
  intros Hinv Hlt loaded tick played stepped.
  destruct (lookup_lt_is_Some_2 tr n Hlt) as [s Hs].
  destruct tr as [|s0 rest]; [simpl in Hlt; lia|].
  destruct (EnginePlay.startSteps_shows s0 rest st) as (Hsh & Ht & Hr & _).
  fold loaded in Hsh, Ht, Hr.
  assert (engine_shows (s0 :: rest) n stepped) as Hstepped.
  { subst stepped. rewrite (EnginePlay.handleNext_iter (s0 :: rest) 0 n) by done.
    by destruct (EnginePlay.runStep_iter (s0 :: rest) 0 n loaded Hsh). }
  assert (engine_shows (s0 :: rest) n played) as Hplayed.
  { destruct (decide (2 ≤ length (s0 :: rest))) as [Hlen|Hlen].
    - destruct (EngineRun.played_state (s0 :: rest) st Hinv Hlen)
        as (Hp & Htp & Hlp & _).
      fold loaded in Hp, Htp, Hlp.
      destruct (EnginePause.ticks_from Number (fresh (Engine.timers st))
                  (s0 :: rest) 0 n (Engine.handlePlay loaded)) as [H _];
        [done| |done|done].
      rewrite (EngineRun.is_live_cases _ _ _ Hlp). apply bool_decide_eq_true. left.
    - assert (n = 0) as -> by (simpl in *; lia). subst played. simpl.
      pose proof Hsh as (Htr & Hk & _).
      unfold Engine.handlePlay. rewrite Hr.
      rewrite decide_True; [done|]. rewrite Htr, Hk. simpl in *. lia. }
  destruct (EngineRun.engine_shows_fields _ _ s _ st Hstepped Hs) as (-> & -> & -> & ->).
  destruct (EngineRun.engine_shows_fields _ _ s _ st Hplayed Hs) as (-> & -> & -> & ->).
  done.
Qed.

Lemma ticks_show_what_next_shows_witness :
  let tr := generateDeleteMinSteps (nums [0; 1; 2; 7; 3]%Z) in
  let loaded := Engine.startSteps tr Engine.init in
  let tick := Engine.handle (λ _, NaN) (Engine.Tick 1) in
  let played := Nat.iter 4 tick (Engine.handlePlay loaded) in
  let stepped := Nat.iter 4 Engine.handleNext loaded in
  (Engine.heap stepped = nums [1; 3; 2; 7]%Z ∧ Engine.running played = true
   ∧ Engine.running stepped = false)
  ∧ Engine.stepIndexRef played = Engine.stepIndexRef stepped
  ∧ Engine.heap played = Engine.heap stepped
  ∧ Engine.highlight played = Engine.highlight stepped
  ∧ Engine.pseudo played = Engine.pseudo stepped.
Proof.
  split; [by vm_compute|].
  apply (ticks_show_what_next_shows (λ _, NaN) Engine.init
           (generateDeleteMinSteps (nums [0; 1; 2; 7; 3]%Z)) 4).
  - reflexivity.
  - vm_compute. lia.
Defined.

(** X13. Playing a loaded trace of at least two steps to its end: after as
    many ticks as the trace has steps, the heap is the final snapshot, the
    cursor is at the end, the interval is cancelled, [running] is false and
    the highlight is cleared; a later tick of that interval changes
    nothing. *)
Theorem play_to_the_end
    (Number : string → jsval) (st : Engine.state) (tr : list step) :
  Engine.timers_inv st → 2 ≤ length tr →
  let tick := Engine.handle Number (Engine.Tick (fresh (Engine.timers st))) in
  let e := Nat.iter (length tr) tick (Engine.handlePlay (Engine.startSteps tr st)) in
  Engine.heap e = finalSnapshot (Engine.heap st) tr
  ∧ Engine.stepIndexRef e = length tr
  ∧ Engine.running e = false
  ∧ Engine.timerRef e = None
  ∧ live (Engine.timers e) = []
  ∧ Engine.highlight e = hl_empty
  ∧ tick e = e.
Proof.
  intros Hinv Hlen tick e.
  destruct (EngineRun.played_state tr st Hinv Hlen) as (Hp & Htp & Hlp & _).
  set (p := Engine.handlePlay (Engine.startSteps tr st)) in *.
  set (id := fresh (Engine.timers st)) in *.
  assert (is_live id (Engine.timers p) = true) as Hlive.
  { rewrite (EngineRun.is_live_cases _ _ _ Hlp). apply bool_decide_eq_true. left. }
  destruct (length tr) as [|m] eqn:Em; [lia|].
  destruct (EnginePause.ticks_from Number id tr 0 m p Hp Hlive)
    as (Hq & Htq & Hlq & _); [lia|].
  subst e tick. rewrite Nat.iter_succ.
  set (q := Nat.iter m (Engine.handle Number (Engine.Tick id)) p) in *.
  clearbody q. simpl in Hq.
  destruct (lookup_lt_is_Some_2 tr m) as [s Hs]; [lia|].
  destruct (EngineRun.engine_shows_fields _ _ s _ st Hq Hs) as (Hk & Hheap & _).
  destruct Hq as (Htr & _).
  assert (Engine.handle Number (Engine.Tick id) q = Engine.runStep q) as ->.
  { simpl. by rewrite Hlq, Hlive. }
  rewrite EnginePlay.runStep_finished by (rewrite Htr, Hk; lia).
  rewrite Htq, Htp in *.
  assert (live (Engine.timers (Engine.clearTimer q)) = []) as Hcl.
  { apply EngineFacts.live_clearTimer. unfold Engine.timers_inv.
    rewrite Htq, Hlq, Hlp. by eexists. }
  assert (finalSnapshot (Engine.heap st) tr = arr s) as ->.
  { unfold finalSnapshot. rewrite last_lookup, Em. simpl. by rewrite Hs. }
  split_and!; simpl; try done.
  by rewrite (EngineRun.is_live_cases _ _ _ Hcl).
Qed.

Lemma play_to_the_end_witness :
  let tr := generateDeleteMinSteps (nums [0; 1; 2; 7; 3]%Z) in
  let tick := Engine.handle (λ _, NaN) (Engine.Tick 1) in
  let e := Nat.iter 7 tick (Engine.handlePlay (Engine.startSteps tr Engine.init)) in
  length tr = 7
  ∧ Engine.heap e = nums [1; 3; 2; 7]%Z
  ∧ Engine.stepIndexRef e = 7
  ∧ Engine.running e = false
  ∧ Engine.timerRef e = None
  ∧ live (Engine.timers e) = []
  ∧ Engine.highlight e = hl_empty
  ∧ tick e = e.
Proof.
  split; [by vm_compute|].
  apply (play_to_the_end (λ _, NaN) Engine.init
           (generateDeleteMinSteps (nums [0; 1; 2; 7; 3]%Z))).
  - reflexivity.
  - vm_compute. lia.
Defined.

(** X14. Past the end of the trace [runStep] only stops the controller: it
    leaves the heap and the cursor alone, clears the highlight, sets
    [running] to false and drops the handle, and running it again, by a
    tick or by Next Step, changes nothing more. *)
Theorem runStep_past_the_end (st : Engine.state) :
  length (Engine.stepsRef st) ≤ Engine.stepIndexRef st →
  let st' := Engine.runStep st in
  Engine.heap st' = Engine.heap st
  ∧ Engine.stepIndexRef st' = Engine.stepIndexRef st
  ∧ Engine.highlight st' = hl_empty
  ∧ Engine.running st' = false
  ∧ Engine.timerRef st' = None
  ∧ Engine.runStep st' = st'
  ∧ Engine.handleNext st' = st'.
Proof.
  intros Hle st'. subst st'. rewrite EnginePlay.runStep_finished by done.
  destruct st as [h v p r sl sm hi steps idx [id|] tm]; simpl in *;
    unfold Engine.handleNext, Engine.runStep; simpl;
    rewrite !decide_True by done; done.
Qed.

Lemma runStep_past_the_end_witness :
  let st := Nat.iter 1 Engine.handleNext
              (Engine.startSteps (generateInsertSteps [] (Num 5)) Engine.init) in
  let st' := Engine.runStep st in
  (Engine.stepIndexRef st = 2 ∧ length (Engine.stepsRef st) = 2)
  ∧ Engine.heap st' = Engine.heap st
  ∧ Engine.stepIndexRef st' = Engine.stepIndexRef st
  ∧ Engine.highlight st' = hl_empty
  ∧ Engine.running st' = false
  ∧ Engine.timerRef st' = None
  ∧ Engine.runStep st' = st'
  ∧ Engine.handleNext st' = st'.
Proof.
  split; [by vm_compute|].
  apply (runStep_past_the_end
           (Nat.iter 1 Engine.handleNext
              (Engine.startSteps (generateInsertSteps [] (Num 5)) Engine.init))).
  vm_compute. lia.
Defined.

(** X15. Pause keeps the cursor, and a Play after it goes on from there:
    from a state that shows step [k], Pause, Play and [m + 1] ticks of the
    new interval show step [k + m + 1], with that interval the only live
    one. *)
Theorem pause_resume_continues
    (Number : string → jsval) (q : Engine.state) (tr : list step)
    (k m : nat) (s : step) :
  engine_shows tr k q → Engine.timers_inv q → tr !! (k + S m) = Some s →
  let paused := Engine.handlePause q in
  let tick := Engine.handle Number (Engine.Tick (fresh (Engine.timers q))) in
  let st' := Nat.iter (S m) tick (Engine.handlePlay paused) in
  (Engine.stepIndexRef paused = S k ∧ Engine.heap paused = Engine.heap q
   ∧ Engine.running paused = false ∧ live (Engine.timers paused) = [])
  ∧ Engine.stepIndexRef st' = S (k + S m)
  ∧ Engine.heap st' = arr s
  ∧ Engine.highlight st' = Engine.highlight (Engine.applyStep (Some s) q)
  ∧ Engine.running st' = true
  ∧ live (Engine.timers st') = [(fresh (Engine.timers q), Engine.speedMs q)].
Proof.
  intros Hsh Hinv Hs paused tick st'. subst tick.
  pose proof (lookup_lt_Some _ _ _ Hs) as Hlt.
  destruct (EnginePause.handlePause_paused q Hinv)
    as (Hr & Ht & Hl & Hf & Hms & E1 & E2 & E3 & E4 & E5).
  fold paused in Hr, Ht, Hl, Hf, Hms, E1, E2, E3, E4, E5.
  assert (engine_shows tr k paused) as Hpa
    by (eapply EngineRun.engine_shows_frame; [..|exact Hsh]; done).
  destruct (EnginePause.play_from_paused tr k paused Hpa Hr Ht Hl)
    as (Hp & Htp & Hlp & Hrp); [lia|].
  rewrite Hf, Hms in Hlp.
  destruct (EnginePause.ticks_from Number (fresh (Engine.timers q)) tr k (S m)
              (Engine.handlePlay paused) Hp) as (Hq & _ & Hlq & Hrq); [|done|].
  { rewrite (EngineRun.is_live_cases _ _ _ Hlp). apply bool_decide_eq_true. left. }
  fold st' in Hq, Hlq, Hrq.
  destruct (EngineRun.engine_shows_fields _ _ s _ q Hq Hs) as (? & ? & ? & _).
  destruct Hsh as (_ & Hk & _).
  split_and!; try done; [congruence|congruence|congruence].
Qed.

Lemma pause_resume_continues_witness :
  let tr := generateInsertSteps (nums [1; 3; 2; 7]%Z) (Num 0) in
  let q := Engine.handle (λ _, NaN) (Engine.Tick 1)
             (Engine.handlePlay (Engine.startSteps tr Engine.init)) in
  let paused := Engine.handlePause q in
  let tick := Engine.handle (λ _, NaN) (Engine.Tick (fresh (Engine.timers q))) in
  let st' := Nat.iter 2 tick (Engine.handlePlay paused) in
  (Engine.running q = true ∧ Engine.timerRef q = Some 1
   ∧ live (Engine.timers q) = [(1, 711%Z)] ∧ Engine.stepIndexRef q = 2
   ∧ fresh (Engine.timers q) = 2)
  ∧ (Engine.stepIndexRef paused = 2 ∧ Engine.heap paused = Engine.heap q
     ∧ Engine.running paused = false ∧ live (Engine.timers paused) = [])
  ∧ Engine.stepIndexRef st' = 4
  ∧ Engine.heap st' = nums [1; 0; 2; 7; 3]%Z
  ∧ Engine.highlight st' = hl "compare" [Some 1; Some 0]
  ∧ Engine.running st' = true
  ∧ live (Engine.timers st') = [(2, 711%Z)].
Proof.
  intros tr q paused tick st'.
  assert (engine_shows tr 1 q) as H1.
  { vm_compute. split_and!; [done|done|]. eexists. by split_and!. }
  assert (Engine.timers_inv q) as H2 by (vm_compute; by eexists).
  assert (tr !! (1 + 2)
          = Some (Step "compare" (nums [1; 0; 2; 7; 3]%Z) (info_i_parent 1 0))) as H3
    by (by vm_compute).
  pose proof (pause_resume_continues (λ _, NaN) q tr 1 1 _ H1 H2 H3) as H.
  split; [by vm_compute|].
  vm_compute in H. vm_compute. exact H.
Defined.

(** X16. Play followed at once by Pause gives back the paused state: only
    the counter of timer ids has moved on, and no interval is live. *)
Theorem play_then_pause (p : Engine.state) :
  Engine.running p = false → Engine.timerRef p = None →
  live (Engine.timers p) = [] →
  Engine.stepIndexRef p < length (Engine.stepsRef p) →
  Engine.handlePause (Engine.handlePlay p)
  = Engine.set_timers (Browser [] (S (fresh (Engine.timers p)))) p.
Proof.
  intros Hr Ht Hl Hlt. rewrite EnginePlay.handlePlay_paused by done.
  destruct p as [h v ps r sl sm hi steps idx t [l f]]. simpl in *. subst.
  unfold Engine.handlePause, Engine.startTimer, Engine.clearTimer. simpl.
  by rewrite filter_cons_False by (intros H; by apply H).
Qed.

Lemma play_then_pause_witness :
  let p := Engine.startSteps (generateInsertSteps [] (Num 5)) Engine.init in
  (Engine.running (Engine.handlePlay p) = true
   ∧ live (Engine.timers (Engine.handlePlay p)) = [(1, 711%Z)])
  ∧ Engine.handlePause (Engine.handlePlay p)
    = Engine.set_timers (Browser [] 2) p.
Proof.
  split; [by vm_compute|].
  apply (play_then_pause
           (Engine.startSteps (generateInsertSteps [] (Num 5)) Engine.init));
    [reflexivity|reflexivity|reflexivity|vm_compute; lia].
Defined.

(** X17. Moving the speed slider while playing cancels the interval held
    and starts one with the new period; the cursor, the trace and the heap
    stay as they are, so no step is repeated or skipped. *)
Theorem speed_change_restarts_timer (st : Engine.state) (level : Z) :
  Engine.timers_inv st → Engine.running st = true →
  level ≠ Engine.speedLevel st →
  Engine.speedOfLevel level ≠ Engine.speedMs st →
  let st' := Engine.handleSpeed level st in
  live (Engine.timers st') = [(fresh (Engine.timers st), Engine.speedOfLevel level)]
  ∧ Engine.timerRef st' = Some (fresh (Engine.timers st))
  ∧ Engine.speedMs st' = Engine.speedOfLevel level
  ∧ Engine.stepIndexRef st' = Engine.stepIndexRef st
  ∧ Engine.stepsRef st' = Engine.stepsRef st
  ∧ Engine.heap st' = Engine.heap st
  ∧ Engine.running st' = true.
Proof.
  intros Hinv Hr Hlevel Hms st'. subst st'.
  unfold Engine.handleSpeed. rewrite decide_False by done.
  unfold Engine.speedLevelEffect. simpl. rewrite decide_False by done.
  unfold Engine.speedMsEffect. simpl. rewrite Hr. simpl.
  unfold Engine.timers_inv in Hinv.
  destruct st as [h v ps r sl sm hi steps idx [id|] [l f]]; simpl in *.
  - destruct Hinv as [ms ->]. unfold Engine.startTimer, Engine.clearTimer. simpl.
    by rewrite filter_cons_False by (intros H; by apply H).
  - subst l. done.
Qed.

Lemma speed_change_restarts_timer_witness :
  let st := Engine.handlePlay
              (Engine.startSteps (generateInsertSteps [] (Num 5)) Engine.init) in
  let st' := Engine.handleSpeed 10 st in
  live (Engine.timers st) = [(1, 711%Z)]
  ∧ live (Engine.timers st') = [(2, 100%Z)]
  ∧ Engine.timerRef st' = Some 2
  ∧ Engine.speedMs st' = 100%Z
  ∧ Engine.stepIndexRef st' = Engine.stepIndexRef st
  ∧ Engine.stepsRef st' = Engine.stepsRef st
  ∧ Engine.heap st' = Engine.heap st
  ∧ Engine.running st' = true.
Proof.
  split; [by vm_compute|].
  apply (speed_change_restarts_timer
           (Engine.handlePlay
              (Engine.startSteps (generateInsertSteps [] (Num 5)) Engine.init)) 10).
  - vm_compute. by eexists.
  - reflexivity.
  - discriminate.
  - discriminate.
Defined.

(** X18. In every reachable state of the controller with Play / Pause /
    Next Step the cursor is at most the length of the trace. *)
Theorem engine_cursor_in_bounds (Number : string → jsval) (st : Engine.state) :
  Engine.reachable Number st →
  Engine.stepIndexRef st ≤ length (Engine.stepsRef st).
Proof. by intros [? _ _]%EngineInv.reachable_engine_inv. Qed.

Lemma engine_cursor_in_bounds_witness :
  let st := Engine.handle (λ _, NaN) Engine.ClickNext
              (Engine.handle (λ _, NaN) (Engine.ClickInsertRandom 3) Engine.init) in
  Engine.stepIndexRef st = 2 ∧ Engine.stepIndexRef st ≤ length (Engine.stepsRef st).
Proof.
  split; [reflexivity|].
  apply (engine_cursor_in_bounds (λ _, NaN)).
  apply Engine.reachable_handle, Engine.reachable_handle, Engine.reachable_init.
Defined.

(** X19. In every reachable state of that controller [running] is true
    exactly when [timerRef] holds a handle; while it is false no interval is
    live, and while it is true exactly one is. *)
Theorem engine_running_iff_timer (Number : string → jsval) (st : Engine.state) :
  Engine.reachable Number st →
  (Engine.running st = true ↔ is_Some (Engine.timerRef st))
  ∧ (Engine.running st = false → live (Engine.timers st) = [])
  ∧ (Engine.running st = true → ∃ id ms,
       Engine.timerRef st = Some id ∧ live (Engine.timers st) = [(id, ms)]).
Proof.
  intros Hr. pose proof (EngineFacts.reachable_timers_inv _ _ Hr) as Hinv.
  apply EngineInv.reachable_engine_inv in Hr as [_ Hrun _].
  unfold Engine.timers_inv in Hinv. rewrite Hrun.
  destruct (Engine.timerRef st) as [id|].
  - destruct Hinv as [ms Hl]. split_and!; [done|done|]. intros _. by exists id, ms.
  - split_and!; [|done|done]. split; [done|]. by intros [? ?].
Qed.

Lemma engine_running_iff_timer_witness :
  let st := Engine.handle (λ _, NaN) Engine.ClickPlay
              (Engine.handle (λ _, NaN) (Engine.ClickInsertRandom 3) Engine.init) in
  Engine.running st = true
  ∧ (Engine.running st = true ↔ is_Some (Engine.timerRef st))
  ∧ (Engine.running st = false → live (Engine.timers st) = [])
  ∧ (Engine.running st = true → ∃ id ms,
       Engine.timerRef st = Some id ∧ live (Engine.timers st) = [(id, ms)]).
Proof.
  split; [reflexivity|].
  apply (engine_running_iff_timer (λ _, NaN)).
  apply Engine.reachable_handle, Engine.reachable_handle, Engine.reachable_init.
Defined.

(** X20. In every reachable state of that controller [speedMs] is the
    period the speed level maps to. *)
Theorem engine_speed_follows_level (Number : string → jsval) (st : Engine.state) :
  Engine.reachable Number st →
  Engine.speedMs st = Engine.speedOfLevel (Engine.speedLevel st).
Proof. by intros [_ _ ?]%EngineInv.reachable_engine_inv. Qed.

Lemma engine_speed_follows_level_witness :
  let st := Engine.handle (λ _, NaN) (Engine.Slide 8) Engine.init in
  Engine.speedMs st = 344%Z
  ∧ Engine.speedMs st = Engine.speedOfLevel (Engine.speedLevel st).
Proof.
  split; [reflexivity|].
  apply (engine_speed_follows_level (λ _, NaN)).
  apply Engine.reachable_handle, Engine.reachable_init.
Defined.

(** X21. On the levels 1..10 of the slider the period runs from 1200 ms at
    level 1 down to 100 ms at level 10, and a higher level gives a strictly
    shorter period. *)
Theorem speedOfLevel_range (a b : Z) :
  (1 ≤ a)%Z → (a ≤ b)%Z → (b ≤ 10)%Z →
  (100 ≤ Engine.speedOfLevel b)%Z
  ∧ (Engine.speedOfLevel b ≤ Engine.speedOfLevel a)%Z
  ∧ (Engine.speedOfLevel a ≤ 1200)%Z
  ∧ ((a < b)%Z → (Engine.speedOfLevel b < Engine.speedOfLevel a)%Z)
  ∧ Engine.speedOfLevel 1 = 1200%Z ∧ Engine.speedOfLevel 10 = 100%Z.
Proof.
  intros Ha Hab Hb.
  assert (Engine.speedOfLevel 1 = 1200%Z) as H1 by by vm_compute.
  assert (Engine.speedOfLevel 10 = 100%Z) as H10 by by vm_compute.
  split_and!; [| | |intros Hlt|done|done]; unfold Engine.speedOfLevel.
  all: Z.div_mod_to_equations; lia.
Qed.

Lemma speedOfLevel_range_witness :
  (Engine.speedOfLevel 3 = 956%Z ∧ Engine.speedOfLevel 7 = 467%Z)
  ∧ (100 ≤ Engine.speedOfLevel 7)%Z
  ∧ (Engine.speedOfLevel 7 ≤ Engine.speedOfLevel 3)%Z
  ∧ (Engine.speedOfLevel 3 ≤ 1200)%Z
  ∧ ((3 < 7)%Z → (Engine.speedOfLevel 7 < Engine.speedOfLevel 3)%Z)
  ∧ Engine.speedOfLevel 1 = 1200%Z ∧ Engine.speedOfLevel 10 = 100%Z.
Proof.
  split; [by vm_compute|].
  apply (speedOfLevel_range 3 7); lia.
Defined.

(** X22. From every reachable state of that controller the cleanup on
    unmount leaves no interval live. *)
Theorem engine_cleanup_cancels (Number : string → jsval) (st : Engine.state) :
  Engine.reachable Number st → live (Engine.timers (Engine.cleanup st)) = [].
Proof.
  intros Hinv%EngineFacts.reachable_timers_inv. unfold Engine.cleanup.
  destruct (Engine.timerRef st) eqn:E; [by apply EngineFacts.live_clearTimer|].
  unfold Engine.timers_inv in Hinv. by rewrite E in Hinv.
Qed.

Lemma engine_cleanup_cancels_witness :
  let st := Engine.handle (λ _, NaN) Engine.ClickPlay
              (Engine.handle (λ _, NaN) (Engine.ClickInsertRandom 3) Engine.init) in
  live (Engine.timers st) = [(1, 711%Z)]
  ∧ live (Engine.timers (Engine.cleanup st)) = [].
Proof.
  split; [reflexivity|].
  apply (engine_cleanup_cancels (λ _, NaN)).
  apply Engine.reachable_handle, Engine.reachable_handle, Engine.reachable_init.
Defined.

(** X23. Delete Min on an empty heap changes nothing, in either component:
    no trace is loaded and no timer is started. *)
Theorem deleteMin_on_empty_heap (e : Engine.state) (a : AutoPlay.state) :
  Engine.heap e = [] → AutoPlay.heap a = [] →
  Engine.handleDeleteMin e = e ∧ AutoPlay.handleDeleteMin a = a.
Proof.
  intros He Ha. unfold Engine.handleDeleteMin, AutoPlay.handleDeleteMin.
  by rewrite He, Ha.
Qed.

Lemma deleteMin_on_empty_heap_witness :
  Engine.handleDeleteMin Engine.init = Engine.init
  ∧ AutoPlay.handleDeleteMin AutoPlay.init = AutoPlay.init.
Proof. apply (deleteMin_on_empty_heap Engine.init AutoPlay.init); reflexivity. Defined.

(** ** Playing a trace in [src/HeapVisualizer.jsx] *)

Module AutoPlayRun.
Import AutoPlay AutoPlayInv.

Lemma autoplay_runStep_pending st s :
  stepsRef st !! stepIndexRef st = Some s →
  heap (runStep st) = arr s
  ∧ stepIndexRef (runStep st) = stepIndexRef st + 1
  ∧ stepsRef (runStep st) = stepsRef st
  ∧ timerRef (runStep st) = timerRef st
  ∧ timers (runStep st) = timers st
  ∧ running (runStep st) = running st.
Proof.
  intros Hs. pose proof (lookup_lt_Some _ _ _ Hs).
  unfold runStep. rewrite decide_False by lia. rewrite Hs.
  by repeat case_decide.
Qed.

Lemma autoplay_tick_iter Number id tr k m st :
  autoplay_shows tr k st → is_live id (timers st) = true → k + m < length tr →
  let st' := Nat.iter m (handle Number (Tick id)) st in
  autoplay_shows tr (k + m) st'
  ∧ timerRef st' = timerRef st ∧ timers st' = timers st ∧ running st' = running st.
Proof.
  intros Hsh Hlive. induction m as [|m IH]; intros Hlt; simpl.
  { by rewrite Nat.add_0_r. }
  destruct IH as ((Htr & Hk & _) & Ht & Hl & Hr); [lia|].
  set (q := Nat.iter m (handle Number (Tick id)) st) in *. clearbody q.
  rewrite Hl, Hlive.
  destruct (lookup_lt_is_Some_2 tr (S (k + m))) as [s Hs]; [lia|].
  destruct (autoplay_runStep_pending q s) as (E1 & E2 & E3 & E4 & E5 & E6);
    [by rewrite Htr, Hk|].
  replace (k + S m) with (S (k + m)) by lia.
  split_and!.
  - split_and!; [by rewrite E3|rewrite E2, Hk; lia|]. by exists s.
  - by rewrite E4.
  - by rewrite E5.
  - by rewrite E6.
Qed.

Lemma startSteps_loaded s0 rest st :
  let st' := startSteps (s0 :: rest) st in
  autoplay_shows (s0 :: rest) 0 st'
  ∧ timerRef st' = Some (fresh (timers st))
  ∧ live (timers st') = (fresh (timers st), speed st) :: live (timers st)
  ∧ running st' = true.
Proof.
  destruct (AutoPlayFacts.autoplay_startSteps_cons s0 rest st)
    as (H1 & H2 & H3 & H4 & _ & H5 & H6).
  split_and!; try done. split_and!; [done..|]. by exists s0.
Qed.

Lemma autoplay_runStep_finished st :
  length (stepsRef st) ≤ stepIndexRef st →
  runStep st
  = setHighlight hl_empty (setRunning false (set_timerRef None (clearTimer st))).
Proof. intros Hle. unfold runStep. by rewrite decide_True. Qed.

End AutoPlayRun.

(** X24. In every reachable state of [src/HeapVisualizer.jsx] the cursor is
    at most the length of the trace, [running] is true exactly when
    [timerRef] holds a handle, and the handle held is that of a live
    interval. *)
Theorem autoplay_cursor_and_handle (Number : string → jsval) (st : AutoPlay.state) :
  AutoPlay.reachable Number st →
  AutoPlay.stepIndexRef st ≤ length (AutoPlay.stepsRef st)
  ∧ (AutoPlay.running st = true ↔ is_Some (AutoPlay.timerRef st))
  ∧ ∀ id, AutoPlay.timerRef st = Some id → id ∈ (live (AutoPlay.timers st)).*1.
Proof.
  intros [H1 _ _ H4 H5 _]%AutoPlayInv.reachable_autoplay_inv.
  rewrite H4. split_and!; [done| |].
  - by rewrite bool_decide_eq_true.
  - intros id Hid. specialize (H5 id Hid). unfold is_live in H5.
    by apply bool_decide_eq_true in H5.
Qed.

Lemma autoplay_cursor_and_handle_witness :
  let st := AutoPlay.handle (λ _, NaN) (AutoPlay.ClickInsertRandom 7)
              (AutoPlay.handle (λ _, NaN) (AutoPlay.ClickInsertRandom 3)
                 AutoPlay.init) in
  (AutoPlay.timerRef st = Some 2 ∧ AutoPlay.stepIndexRef st = 1)
  ∧ AutoPlay.stepIndexRef st ≤ length (AutoPlay.stepsRef st)
  ∧ (AutoPlay.running st = true ↔ is_Some (AutoPlay.timerRef st))
  ∧ ∀ id, AutoPlay.timerRef st = Some id → id ∈ (live (AutoPlay.timers st)).*1.
Proof.
  split; [by vm_compute|].
  apply (autoplay_cursor_and_handle (λ _, NaN)).
  apply AutoPlay.reachable_handle, AutoPlay.reachable_handle, AutoPlay.reachable_init.
Defined.

(** X25. [src/HeapVisualizer.jsx] never shows the highlight of a push or of
    a removeRoot step: the cursor starts past step 0 and those steps only
    open a trace, so in no reachable state does a node get the green or the
    red ring of [nodeClass]. *)
Theorem autoplay_never_shows_first_step
    (Number : string → jsval) (st : AutoPlay.state) (i : nat) :
  AutoPlay.reachable Number st →
  hl_type (AutoPlay.highlight st) ≠ Some "push"
  ∧ hl_type (AutoPlay.highlight st) ≠ Some "removeRoot"
  ∧ nodeClass (AutoPlay.highlight st) i ≠ "ring-4 ring-offset-2 ring-green-300"
  ∧ nodeClass (AutoPlay.highlight st) i ≠ "ring-4 ring-offset-2 ring-red-300".
Proof.
  intros [_ _ _ _ _ [H1 H2]]%AutoPlayInv.reachable_autoplay_inv.
  split_and!; [done|done|..];
    destruct (AutoPlay.highlight st) as [|ty idx]; simpl in *; try done;
    destruct (includes idx i); try done;
    repeat case_decide; try done; congruence.
Qed.

Lemma autoplay_never_shows_first_step_witness :
  let st := AutoPlay.handle (λ _, NaN) (AutoPlay.Tick 1)
              (AutoPlay.handle (λ _, NaN) (AutoPlay.ClickInsertRandom 3)
                 AutoPlay.init) in
  (AutoPlay.stepsRef st !! 0 = Some (Step "push" [Num 3] (info_index 0))
   ∧ AutoPlay.highlight st = hl "done" [])
  ∧ hl_type (AutoPlay.highlight st) ≠ Some "push"
  ∧ hl_type (AutoPlay.highlight st) ≠ Some "removeRoot"
  ∧ nodeClass (AutoPlay.highlight st) 0 ≠ "ring-4 ring-offset-2 ring-green-300"
  ∧ nodeClass (AutoPlay.highlight st) 0 ≠ "ring-4 ring-offset-2 ring-red-300".
Proof.
  split; [by vm_compute|].
  apply (autoplay_never_shows_first_step (λ _, NaN)).
  apply AutoPlay.reachable_handle, AutoPlay.reachable_handle, AutoPlay.reachable_init.
Defined.

(** X26. In [src/HeapVisualizer.jsx] a trace loaded while no interval is
    live plays to its end: after as many ticks as the trace has steps the
    heap is the final snapshot, the cursor is at the end, [running] is
    false and no interval is left; a later tick of that interval changes
    nothing. *)
Theorem autoplay_plays_to_the_end
    (Number : string → jsval) (st : AutoPlay.state) (tr : list step) :
  live (AutoPlay.timers st) = [] → tr ≠ [] →
  let tick := AutoPlay.handle Number (AutoPlay.Tick (fresh (AutoPlay.timers st))) in
  let e := Nat.iter (length tr) tick (AutoPlay.startSteps tr st) in
  AutoPlay.heap e = finalSnapshot (AutoPlay.heap st) tr
  ∧ AutoPlay.stepIndexRef e = length tr
  ∧ AutoPlay.running e = false
  ∧ AutoPlay.timerRef e = None
  ∧ live (AutoPlay.timers e) = []
  ∧ tick e = e.
Proof.
  intros Hl Hne tick e. destruct tr as [|s0 rest]; [done|].
  destruct (AutoPlayRun.startSteps_loaded s0 rest st) as (Hsh & Ht & Hlp & _).
  rewrite Hl in Hlp.
  set (p := AutoPlay.startSteps (s0 :: rest) st) in *. clearbody p.
  set (id := fresh (AutoPlay.timers st)) in *.
  set (tr := s0 :: rest) in *.
  assert (is_live id (AutoPlay.timers p) = true) as Hlive.
  { rewrite (EngineRun.is_live_cases _ _ _ Hlp). apply bool_decide_eq_true. left. }
  destruct (length tr) as [|m] eqn:Em; [done|].
  destruct (AutoPlayRun.autoplay_tick_iter Number id tr 0 m p Hsh Hlive)
    as ((Htr & Hk & s & Hs & Hheap) & Htq & Hlq & _); [lia|].
  subst e tick. rewrite Nat.iter_succ.
  set (q := Nat.iter m (AutoPlay.handle Number (AutoPlay.Tick id)) p) in *.
  clearbody q. simpl in Hk, Hs.
  assert (AutoPlay.handle Number (AutoPlay.Tick id) q = AutoPlay.runStep q) as ->.
  { simpl. by rewrite Hlq, Hlive. }
  rewrite AutoPlayRun.autoplay_runStep_finished by (rewrite Htr, Hk; lia).
  assert (finalSnapshot (AutoPlay.heap st) tr = arr s) as ->.
  { unfold finalSnapshot. rewrite last_lookup, Em. simpl. by rewrite Hs. }
  assert (live (AutoPlay.timers (AutoPlay.clearTimer q)) = []) as Hcl.
  { unfold AutoPlay.clearTimer. simpl. rewrite Htq, Ht, Hlq. simpl. rewrite Hlp.
    by rewrite filter_cons_False by (intros H; by apply H). }
  clearbody tr.
  split_and!; simpl; try done.
  by rewrite (EngineRun.is_live_cases _ _ _ Hcl).
Qed.

Lemma autoplay_plays_to_the_end_witness :
  let tr := generateDeleteMinSteps (nums [0; 1; 2; 7; 3]%Z) in
  let tick := AutoPlay.handle (λ _, NaN) (AutoPlay.Tick 1) in
  let e := Nat.iter 7 tick (AutoPlay.startSteps tr AutoPlay.init) in
  length tr = 7
  ∧ AutoPlay.heap e = nums [1; 3; 2; 7]%Z
  ∧ AutoPlay.stepIndexRef e = 7
  ∧ AutoPlay.running e = false
  ∧ AutoPlay.timerRef e = None
  ∧ live (AutoPlay.timers e) = []
  ∧ tick e = e.
Proof.
  split; [by vm_compute|].
  apply (autoplay_plays_to_the_end (λ _, NaN) AutoPlay.init
           (generateDeleteMinSteps (nums [0; 1; 2; 7; 3]%Z))).
  - reflexivity.
  - vm_compute. discriminate.
Defined.

(** X27. In [src/HeapVisualizer.jsx], Pause and then Resume from a playing
    state whose handle is the only live interval: in between no interval
    is live and [running] is false, and the cursor, the trace and the heap
    do not move. While steps are pending, Resume starts one new interval at
    the same period; at the end of the trace Resume does nothing, and the
    controller stays paused with no interval. *)
Theorem autoplay_pause_resume (st : AutoPlay.state) (id : nat) (ms : Z) :
  AutoPlay.running st = true → AutoPlay.timerRef st = Some id →
  live (AutoPlay.timers st) = [(id, ms)] →
  let paused := AutoPlay.toggleRunning st in
  let st' := AutoPlay.toggleRunning paused in
  (AutoPlay.running paused = false ∧ AutoPlay.timerRef paused = None
   ∧ live (AutoPlay.timers paused) = [])
  ∧ (AutoPlay.stepIndexRef st' = AutoPlay.stepIndexRef st
     ∧ AutoPlay.stepsRef st' = AutoPlay.stepsRef st
     ∧ AutoPlay.heap st' = AutoPlay.heap st)
  ∧ (AutoPlay.stepIndexRef st < length (AutoPlay.stepsRef st) →
     AutoPlay.running st' = true
     ∧ AutoPlay.timerRef st' = Some (fresh (AutoPlay.timers st))
     ∧ live (AutoPlay.timers st')
       = [(fresh (AutoPlay.timers st), AutoPlay.speed st)])
  ∧ (length (AutoPlay.stepsRef st) ≤ AutoPlay.stepIndexRef st → st' = paused).
Proof.
  intros Hr Ht Hl.
  destruct st as [h v r sp hi steps t idx [l f]]. simpl in *. subst.
  unfold AutoPlay.toggleRunning. simpl.
  unfold AutoPlay.clearTimer, AutoPlay.startTimer, clearInterval, setInterval.
  simpl. rewrite !filter_cons_False by (intros H; by apply H). simpl.
  case_decide; split_and!; try done; intros; lia.
Qed.

Lemma autoplay_pause_resume_witness :
  let st := AutoPlay.handleRandomInsert 3 AutoPlay.init in
  let st' := AutoPlay.toggleRunning (AutoPlay.toggleRunning st) in
  let fin := AutoPlay.runStep st in
  let fin' := AutoPlay.toggleRunning (AutoPlay.toggleRunning fin) in
  (AutoPlay.running st = true ∧ AutoPlay.stepIndexRef st = 1
   ∧ length (AutoPlay.stepsRef st) = 2
   ∧ AutoPlay.running st' = true ∧ AutoPlay.timerRef st' = Some 2
   ∧ live (AutoPlay.timers st') = [(2, 600%Z)])
  ∧ (AutoPlay.running fin = true ∧ AutoPlay.stepIndexRef fin = 2
     ∧ live (AutoPlay.timers fin) = [(1, 600%Z)]
     ∧ AutoPlay.running fin' = false ∧ AutoPlay.timerRef fin' = None
     ∧ live (AutoPlay.timers fin') = []
     ∧ fin' = AutoPlay.toggleRunning fin).
Proof.
  intros st st' fin fin'.
  destruct (autoplay_pause_resume st 1 600) as (_ & _ & Hpending & _);
    [reflexivity..|].
  destruct (autoplay_pause_resume fin 1 600) as (_ & _ & _ & Hend);
    [reflexivity..|].
  specialize (Hpending ltac:(vm_compute; lia)) as (H1 & H2 & H3).
  specialize (Hend ltac:(vm_compute; lia)).
  split.
  - split_and!; [reflexivity|reflexivity|reflexivity|exact H1|exact H2|exact H3].
  - split_and!; [reflexivity|reflexivity|reflexivity| | | |exact Hend];
      unfold fin'; rewrite Hend; reflexivity.
Defined.

(** ** An operation from the click to the last step *)

Lemma next_to_the_end tr st :
  tr ≠ [] →
  let st' := Nat.iter (length tr - 1) Engine.handleNext (Engine.startSteps tr st) in
  Engine.heap st' = finalSnapshot (Engine.heap st) tr
  ∧ Engine.stepIndexRef st' = length tr
  ∧ Engine.running st' = false.
Proof.
  intros Hne. destruct tr as [|s0 rest]; [done|].
  destruct (EnginePlay.startSteps_shows s0 rest st) as (Hsh & _ & Hr & _).
  simpl length. replace (S (length rest) - 1) with (length rest) by lia.
  cbv zeta. rewrite (EnginePlay.handleNext_iter (s0 :: rest) 0 (length rest));
    [|done|done|simpl; lia].
  destruct (EnginePlay.runStep_iter (s0 :: rest) 0 (length rest) _ Hsh)
    as ((_ & Hk & s & Hs & Hheap & _) & _ & _ & E); [simpl; lia|].
  split_and!; [|done|by rewrite E].
  rewrite Hheap. unfold finalSnapshot. rewrite last_lookup. simpl.
  simpl in Hs. by rewrite Hs.
Qed.

Lemma deleteMin_final_min_heap h :
  h ≠ [] → min_heap h → min_heap (finalSnapshot h (generateDeleteMinSteps h)).
Proof.
  intros Hne Hh. destruct h as [|v [|w rest]]; [done| |].
  { rewrite generateDeleteMinSteps_single. intros i Hi. simpl in Hi. lia. }
  set (h := v :: w :: rest) in *.
  assert (2 ≤ length h) as Hlen by (simpl; lia).
  rewrite generateDeleteMinSteps_final by done.
  apply bubbleDown_min_heap. by apply down_inv_init.
Qed.

(** X28. Insert, from the click to the last step: with a heap that is a
    min-heap of numbers on show and a text that converts to a number, the
    Insert button followed by Next Step through the whole trace ends paused
    at the end of the trace, showing a min-heap that is the old heap plus
    the new value. *)
Theorem insert_then_step_through (Number : string → jsval) (st : Engine.state) :
  min_heap (Engine.heap st) → numbers (Engine.heap st) →
  is_number (Number (Engine.value st)) = true →
  let v := Number (Engine.value st) in
  let tr := generateInsertSteps (Engine.heap st) v in
  let st' := Nat.iter (length tr - 1) Engine.handleNext
               (Engine.handleInsert Number st) in
  min_heap (Engine.heap st')
  ∧ Engine.heap st' ≡ₚ Engine.heap st ++ [v]
  ∧ Engine.stepIndexRef st' = length tr
  ∧ Engine.running st' = false.
Proof.
  intros Hh Hn Hv v tr st'. subst st'.
  assert (Engine.handleInsert Number st = Engine.startSteps tr st) as ->.
  { assert (isNaN v = false) as HN by (subst v; by destruct (Number _)).
    unfold Engine.handleInsert. cbv zeta. fold v. by rewrite HN. }
  assert (tr ≠ []) as Hne.
  { subst tr. unfold generateInsertSteps. by destruct (l_steps _). }
  destruct (next_to_the_end tr st Hne) as (-> & -> & ->).
  destruct (insert_min_heap (Engine.heap st) (Engine.heap st) v Hh Hn Hv) as [? _].
  split_and!; [done| |done|done].
  subst tr. rewrite generateInsertSteps_final. rewrite bubbleUp_perm; [done|].
  simpl. rewrite length_app. simpl. lia.
Qed.

Lemma insert_then_step_through_witness :
  let Number := λ _ : string, Num 0 in
  let st := Nat.iter 5 Engine.handleNext
              (Engine.startSteps (generateInsertSteps (nums [1; 3; 2]%Z) (Num 7))
                 Engine.init) in
  let st' := Nat.iter 5 Engine.handleNext (Engine.handleInsert Number st) in
  (Engine.heap st = nums [1; 3; 2; 7]%Z ∧ Engine.heap st' = nums [0; 1; 2; 7; 3]%Z)
  ∧ min_heap (Engine.heap st')
  ∧ Engine.heap st' ≡ₚ Engine.heap st ++ [Num 0]
  ∧ Engine.stepIndexRef st' = 6
  ∧ Engine.running st' = false.
Proof.
  split; [by vm_compute|].
  apply (insert_then_step_through (λ _ : string, Num 0)
           (Nat.iter 5 Engine.handleNext
              (Engine.startSteps (generateInsertSteps (nums [1; 3; 2]%Z) (Num 7))
                 Engine.init))).
  - apply min_heapb_spec. vm_compute. reflexivity.
  - vm_compute. repeat constructor.
  - reflexivity.
Defined.

(** X29. Delete Min, from the click to the last step: with a non-empty
    min-heap on show, the Delete Min button followed by Next Step through
    the whole trace ends paused at the end of the trace, showing a min-heap
    that is the old heap without its root, the root being a least
    element. *)
Theorem deleteMin_then_step_through (st : Engine.state) :
  Engine.heap st ≠ [] → min_heap (Engine.heap st) →
  let tr := generateDeleteMinSteps (Engine.heap st) in
  let st' := Nat.iter (length tr - 1) Engine.handleNext (Engine.handleDeleteMin st) in
  min_heap (Engine.heap st')
  ∧ Engine.heap st ≡ₚ aget (Engine.heap st) 0 :: Engine.heap st'
  ∧ (∀ x, x ∈ Engine.heap st' → js_ge x (aget (Engine.heap st) 0) = true)
  ∧ Engine.stepIndexRef st' = length tr
  ∧ Engine.running st' = false.
Proof.
  intros Hne Hh tr st'. subst st'. unfold Engine.handleDeleteMin. fold tr.
  assert (tr ≠ []) as Htr.
  { subst tr. intros E. apply (f_equal length) in E.
    unfold generateDeleteMinSteps in E.
    rewrite decide_False in E by (by destruct (Engine.heap st)).
    case_decide; [done|]. rewrite length_app in E. simpl in E. lia. }
  destruct (next_to_the_end tr st Htr) as (-> & -> & ->).
  pose proof (deleteMin_final_perm (Engine.heap st) Hne) as Hp. fold tr in Hp.
  split_and!; [by apply deleteMin_final_min_heap|done| |done|done].
  intros x Hx.
  destruct (Engine.heap st) as [|v [|w rest]] eqn:E; [done| |].
  { subst tr. rewrite generateDeleteMinSteps_single in Hx. by apply elem_of_nil in Hx. }
  apply min_heap_root_least; [done|apply min_heap_numbers; [simpl; lia|done]|].
  rewrite Hp. by right.
Qed.

Lemma deleteMin_then_step_through_witness :
  let st := Nat.iter 5 Engine.handleNext
              (Engine.startSteps (generateInsertSteps (nums [1; 3; 2]%Z) (Num 7))
                 Engine.init) in
  let st' := Nat.iter 5 Engine.handleNext (Engine.handleDeleteMin st) in
  (Engine.heap st = nums [1; 3; 2; 7]%Z ∧ Engine.heap st' = nums [2; 3; 7]%Z)
  ∧ min_heap (Engine.heap st')
  ∧ Engine.heap st ≡ₚ Num 1 :: Engine.heap st'
  ∧ (∀ x, x ∈ Engine.heap st' → js_ge x (Num 1) = true)
  ∧ Engine.stepIndexRef st' = 6
  ∧ Engine.running st' = false.
Proof.
  split; [by vm_compute|].
  apply (deleteMin_then_step_through
           (Nat.iter 5 Engine.handleNext
              (Engine.startSteps (generateInsertSteps (nums [1; 3; 2]%Z) (Num 7))
                 Engine.init))).
  - vm_compute. discriminate.
  - apply min_heapb_spec. vm_compute. reflexivity.
Defined.
